(** * TableIdentifier-v2.1: table ranking, weights, synonyms and feedback

    A shallow embedding of the ranking engine of the repository:
    - [analysis/table_identifier.py]   (class [TableIdentifier]),
    - [analysis/name_match_manager.py] (class [NameMatchManager]),
    - [config/patterns.py]             (class [PatternManager]),
    - [feedback/feedback_manager.py]   (class [FeedbackManager]).

    Conventions of the embedding.
    - Python floats are exact rationals ([Q]); rounding is not modelled.
      Decimal literals such as [0.3] are the rationals they denote.
    - A Python [dict] keyed by strings is a [gmap string _]; a Python [set]
      of strings is a [gset string].  The order in which Python iterates
      over a set is unspecified, so it is a parameter ([SetOrder]).
    - Dictionaries that the code only builds and iterates (the catalog
      [schema_dict], the patterns, the intent map) are kept as key/value
      listings, in the order of the JSON document.
    - The NLP model is a collaborator ([NLP]); every component holds an
      [option NLP], [None] when [spacy.load] failed.
    - An exception that escapes a method is an explicit [Raise] result. *)

From Stdlib Require Import QArith Lqa Ascii String.
From stdpp Require Import gmap strings list sorting.

Local Open Scope Q_scope.

(** * The model *)

(** ** Python scalars *)

(** [max(a, b)]: the first argument wins unless the second is strictly
    larger. *)
Definition py_max (a b : Q) : Q := if Qlt_le_dec a b then b else a.

(** [min(a, b)]: the first argument wins unless the second is strictly
    smaller. *)
Definition py_min (a b : Q) : Q := if Qlt_le_dec b a then b else a.

(** [a <= b] as a test. *)
#[global] Instance Qle_decision (a b : Q) : Decision (a <= b) :=
  match Qlt_le_dec b a with
  | left Hlt => right (Qlt_not_le b a Hlt)
  | right Hle => left Hle
  end.

(** [max(xs)] over a non-empty sequence whose first element is [x]. *)
Definition py_max_list (x : Q) (xs : list Q) : Q := foldl py_max x xs.

(** ** Iteration order of Python sets

    [list(s)] and [for x in s] enumerate a set in an order the language does
    not specify.  [set_iter] is any enumeration without repetition (one per
    set); the statements below hold for every choice of it, and none
    depends on the order among tables of equal weight. *)

Class SetOrder := {
  set_iter : gset string → list string;
  set_iter_perm : ∀ X, set_iter X ≡ₚ elements X
}.

(** One admissible order: the enumeration of the finite set. *)
Definition elements_order : SetOrder :=
  {| set_iter := elements; set_iter_perm := λ X, reflexivity (elements X) |}.

(** ** Weight ledger ([TableIdentifier.weights]) *)

(** [self.weights.get(table, 1.0)] *)
Definition weight_of (weights : gmap string Q) (table : string) : Q :=
  default 1 (weights !! table).

(** [_load_weights]: the cached ledger when Redis holds one, otherwise
    1.0 for every table of the catalog. *)
Definition _load_weights (cached_weights : option (gmap string Q))
    (all_tables : list string) : gmap string Q :=
  match cached_weights with
  | Some weights => weights
  | None => foldl (λ weights table, <[table := 1]> weights) ∅ all_tables
  end.

Section WeightLedger.
Context `{SetOrder}.

(** [adjust_weights(selected_tables, all_tables)]: the three loops of the
    method, in order.  [_save_weights] copies the result to Redis. *)
Definition adjust_weights (selected_tables all_tables : list string)
    (weights : gmap string Q) : gmap string Q :=
  let weights1 :=
    foldl (λ weights table, <[table := weight_of weights table + 0.3]> weights)
          weights selected_tables in
  let weights2 :=
    foldl (λ weights table,
             <[table := py_max 0.5 (weight_of weights table * 0.85)]> weights)
          weights1
          (set_iter (list_to_set all_tables ∖ list_to_set selected_tables)) in
  foldl (λ weights table,
           <[table := py_max 0.5 (weight_of weights table * 0.95)]> weights)
        weights2
        (set_iter (dom weights2 ∖ list_to_set all_tables)).

(** A session of the ledger: bind, then any number of adjustments. *)
Definition adjust_many (calls : list (list string * list string))
    (weights : gmap string Q) : gmap string Q :=
  foldl (λ weights call, adjust_weights call.1 call.2 weights) weights calls.
End WeightLedger.

(** The floor invariant of the ledger. *)
Definition weights_floor (weights : gmap string Q) : Prop :=
  ∀ table w, weights !! table = Some w → 0.5 <= w.

(** ** Python strings *)

(** [c.lower()] on the ASCII letters. *)
Definition ascii_lower (c : ascii) : ascii :=
  if (Ascii.leb "A" c && Ascii.leb c "Z")%bool
  then ascii_of_nat (nat_of_ascii c + 32) else c.

Fixpoint map_chars (f : ascii → ascii) (s : string) : string :=
  match s with
  | EmptyString => EmptyString
  | String c s' => String (f c) (map_chars f s')
  end.

(** [s.lower()] *)
Definition lower (s : string) : string := map_chars ascii_lower s.

(** [s.replace('_', ' ')] *)
Definition underscores_to_spaces (s : string) : string :=
  map_chars (λ c, if Ascii.eqb c "_" then " "%char else c) s.

(** [needle in hay] for strings: [needle] occurs as a substring. *)
Fixpoint str_in (needle hay : string) : bool :=
  String.prefix needle hay ||
  match hay with
  | EmptyString => false
  | String _ hay' => str_in needle hay'
  end.

(** [' '.join(words)] *)
Fixpoint join_spaces (words : list string) : string :=
  match words with
  | [] => EmptyString
  | [w] => w
  | w :: ws => w +:+ " " +:+ join_spaces ws
  end.

(** [f"{schema}.{table}"] *)
Definition full_table_name (schema table : string) : string :=
  schema +:+ "." +:+ table.

(** ** Exceptions *)

Inductive exn : Type :=
  | KeyError (key : string).

Inductive result (A : Type) : Type :=
  | Ok (a : A)
  | Raise (e : exn).
Arguments Ok {A} a.
Arguments Raise {A} e.

#[global] Instance result_ret : MRet result := λ A a, Ok a.
#[global] Instance result_bind : MBind result := λ A B f m,
  match m with
  | Ok a => f a
  | Raise e => Raise e
  end.

(** A [for] loop whose body may raise: the first exception ends the loop. *)
Fixpoint for_each {A S : Type} (body : S → A → result S) (s : S) (l : list A)
    : result S :=
  match l with
  | [] => Ok s
  | x :: xs => s' ← body s x; for_each body s' xs
  end.

(** [d[key]] on a key/value listing: [KeyError] when the key is absent. *)
Fixpoint dict_index {V : Type} (d : list (string * V)) (key : string) : result V :=
  match d with
  | [] => Raise (KeyError key)
  | (k, v) :: d' => if bool_decide (k = key) then Ok v else dict_index d' key
  end.

(** [d[key] = value] on a key/value listing: the value of an existing key
    is replaced in place, a new key goes to the end. *)
Fixpoint dict_set {V : Type} (d : list (string * V)) (key : string) (value : V)
    : list (string * V) :=
  match d with
  | [] => [(key, value)]
  | (k, v) :: d' => if bool_decide (k = key) then (k, value) :: d'
                    else (k, v) :: dict_set d' key value
  end.

(** ** The NLP collaborator (spaCy) *)

Record NLP : Type := {
  (** [[token.lemma_ for token in nlp(text) if not token.is_stop and token.is_alpha]] *)
  lemmas : string → list string;
  (** [[token.text for token in nlp(text) if not token.is_stop and token.is_alpha]] *)
  tokens : string → list string;
  (** [[ent.label_ for ent in nlp(text).ents]] *)
  ent_labels : string → list string;
  (** [nlp(a).similarity(nlp(b))] *)
  similarity : string → string → Q
}.

(** ** The catalog ([schema_dict]) *)

Record column_info : Type := {
  col_type : string;
  nullable : bool;
  is_primary_key : bool;
  is_foreign_key : bool
}.

Record foreign_key : Type := {
  fk_column : string;
  referenced_table : string;
  referenced_column : string
}.

Record schema_dict : Type := {
  sd_tables : list (string * list string);
  sd_columns : list (string * list (string * list (string * column_info)));
  sd_foreign_keys : list (string * list (string * list foreign_key))
}.

(** [get_all_tables]: every [schema.table] of the catalog. *)
Definition get_all_tables (sd : schema_dict) : list string :=
  '(schema, table_list) ← sd_tables sd;
  table ← table_list;
  [full_table_name schema table].

(** The nested loop
    [for schema in columns: for table in columns[schema]:
       for col_name, col_info in columns[schema][table].items():
         if test(col_name, col_info): found.add(f"{schema}.{table}")],
    which [match_pattern] runs three times with different tests. *)
Definition tables_with_column (sd : schema_dict)
    (test : string → column_info → bool) : gset string :=
  foldl (λ found '(schema, by_table),
    foldl (λ found '(table, cols),
      foldl (λ found '(col_name, col_info),
               if test col_name col_info
               then {[full_table_name schema table]} ∪ found else found)
            found cols)
      found by_table)
    ∅ (sd_columns sd).

(** ** Pattern index ([PatternManager]) *)

Record PatternManager : Type := {
  pm_schema_dict : schema_dict;
  pm_nlp : option NLP;
  (** table ↦ patterns; a pattern is its sequence of ["LOWER"] tokens *)
  patterns : list (string * list (list string));
  (** intent ↦ keywords *)
  entity_mappings : list (string * list string)
}.

Section PatternIndex.
Context `{SetOrder}.

(** [col in schema_dict['columns'][schema][table]] *)
Definition has_column (cols : list (string * column_info)) (col : string) : bool :=
  bool_decide (col ∈ cols.*1).

(** The patterns that [_initialize_patterns] generates for one table. *)
Definition table_patterns (schema table : string)
    (cols : list (string * column_info)) : list (list string) :=
  [[lower table]; [lower schema]]
  ++ ((λ col, [underscores_to_spaces (lower col.1)]) <$> cols)
  ++ (if existsb (has_column cols) ["first_name"; "last_name"]
      then [["customer"; "name"]; ["employee"; "name"]] else [])
  ++ (if existsb (has_column cols) ["quantity"; "stock"]
      then [["stock"; "availability"]] else [])
  ++ (if has_column cols "category_name" then [["product"; "category"]] else [])
  ++ (if has_column cols "order_id" then [["order"; "details"]] else [])
  ++ (if has_column cols "store_name"
      then [["store"; "details"]; ["stores"]] else []).

(** [_initialize_patterns]: the patterns built from the catalog when a
    catalog is bound.  The columns of every table are indexed without a
    guard, and the exception is not caught by [_load_patterns]. *)
Definition _initialize_patterns (sd : schema_dict)
    : result (list (string * list (list string))) :=
  for_each (λ patterns '(schema, table_list),
    for_each (λ patterns table,
      by_table ← dict_index (sd_columns sd) schema;
      cols ← dict_index by_table table;
      Ok (dict_set patterns (full_table_name schema table)
            (table_patterns schema table cols)))
      patterns table_list)
    [] (sd_tables sd).

(** The body of the loop of [_keyword_fallback] over the tables of one
    schema. [schema_dict['columns'][schema][table]] is indexed without a
    guard. *)
Definition fallback_table (sd : schema_dict) (query_lower schema : string)
    (matches : gset string) (table : string) : result (gset string) :=
  let full_table := full_table_name schema table in
  let matches :=
    if str_in (lower table) query_lower || str_in (lower schema) query_lower
    then {[full_table]} ∪ matches else matches in
  by_table ← dict_index (sd_columns sd) schema;
  cols ← dict_index by_table table;
  Ok (foldl (λ (matches : gset string) '(col_name, _),
               if str_in (underscores_to_spaces (lower col_name)) query_lower
               then {[full_table]} ∪ matches else matches)
            matches cols).

(** [_keyword_fallback]: substring matching on the raw lowercased query. *)
Definition _keyword_fallback (self : PatternManager) (query : string)
    : result (list string) :=
  let query_lower := lower query in
  matches ← for_each (λ matches '(schema, table_list),
               for_each (fallback_table (pm_schema_dict self) query_lower schema)
                        matches table_list)
             (∅ : gset string) (sd_tables (pm_schema_dict self));
  Ok (set_iter matches).

(** Pattern-based matching: the phrase of a pattern occurs in the query,
    or all its tokens are query tokens. *)
Definition pattern_matches (self : PatternManager) (query_lower : string)
    (query_tokens : list string) : gset string :=
  foldl (λ matches '(table, table_patterns),
    foldl (λ (matches : gset string) pattern,
             if str_in (join_spaces pattern) query_lower
             then {[table]} ∪ matches
             else if forallb (λ tok, bool_decide (tok ∈ query_tokens)) pattern
             then {[table]} ∪ matches else matches)
          matches table_patterns)
    ∅ (patterns self).

(** Entity-based matching: DATE and GPE entities widen to tables with a
    date-typed or a geographic column. *)
Definition entity_matches (self : PatternManager) (labels : list string)
    : gset string :=
  foldl (λ (matches : gset string) ent_type,
    if bool_decide (ent_type ∈ ["DATE"; "GPE"])
    then matches ∪
         tables_with_column (pm_schema_dict self) (λ col_name col_info,
           (bool_decide (ent_type = "DATE") &&
            bool_decide (lower (col_type col_info)
                           ∈ ["date"; "datetime"; "timestamp"])) ||
           (bool_decide (ent_type = "GPE") &&
            existsb (λ term, str_in term (lower col_name))
                    ["city"; "state"; "country"]))
    else matches)
    ∅ labels.

(** Intent-based matching: a keyword of an intent occurs in the query and
    in a column name. *)
Definition intent_matches (self : PatternManager) (query_lower : string)
    : gset string :=
  foldl (λ (matches : gset string) '(_, keywords),
    let matched_tables :=
      foldl (λ (matched_tables : gset string) keyword,
               if str_in keyword query_lower
               then matched_tables ∪
                    tables_with_column (pm_schema_dict self)
                      (λ col_name _, str_in keyword (lower col_name))
               else matched_tables)
            ∅ keywords in
    matches ∪ matched_tables)
    ∅ (entity_mappings self).

(** The matches before the foreign-key step. *)
Definition direct_matches (self : PatternManager) (nlp : NLP) (query : string)
    : gset string :=
  let query_lower := lower query in
  pattern_matches self query_lower (tokens nlp query_lower)
  ∪ entity_matches self (ent_labels nlp query_lower)
  ∪ intent_matches self query_lower.

(** Foreign key relationships: the tables referenced by a table that is
    already in [matches]. *)
Definition fk_matches (self : PatternManager) (matches : gset string)
    : gset string :=
  foldl (λ fk_matches '(schema, by_table),
    foldl (λ (fk_matches : gset string) '(table, fks),
      let full_table := full_table_name schema table in
      if bool_decide (full_table ∈ matches)
      then foldl (λ (fk_matches : gset string) fk,
                    {[referenced_table fk]} ∪ fk_matches)
                 fk_matches fks
      else fk_matches)
      fk_matches by_table)
    ∅ (sd_foreign_keys (pm_schema_dict self)).

(** [match_pattern].  With the model loaded, the [try] block indexes only
    keys it iterates over and the collaborator is total, so the [except]
    branch (which also runs [_keyword_fallback]) is not reached. *)
Definition match_pattern (self : PatternManager) (query : string)
    : result (list string) :=
  match pm_nlp self with
  | None => _keyword_fallback self query
  | Some nlp =>
      let matches := direct_matches self nlp query in
      let matches := matches ∪ fk_matches self matches in
      Ok (set_iter matches)
  end.
End PatternIndex.

(** ** Synonym index ([NameMatchManager]) *)

Record NameMatchManager : Type := {
  nm_nlp : option NLP;
  (** table ↦ synonym terms *)
  synonyms : gmap string (list string);
  (** term ↦ table ↦ score (the match graph) *)
  matches : gmap string (gmap string Q)
}.

(** [matches.get(table, 0.0)] *)
Definition score_of (found : gmap string Q) (table : string) : Q :=
  default 0 (found !! table).

(** [get_matches].  The order in which the tables of [synonyms] are visited
    does not matter: each table accumulates its own score. *)
Definition get_matches (self : NameMatchManager) (query : string)
    : gmap string Q :=
  match nm_nlp self with
  | None => ∅
  | Some nlp =>
      let query_lower := lower query in
      let query_terms := lemmas nlp query_lower in
      let found :=
        foldl (λ found '(table, table_synonyms),
          foldl (λ (found : gmap string Q) synonym,
            if bool_decide (synonym ∈ query_terms)
            then <[table := score_of found table + 0.9]> found
            else match matches self !! synonym with
                 | Some by_table =>
                     foldl (λ (found : gmap string Q) '(matched_table, score),
                              if bool_decide (matched_table = table)
                              then <[table := score_of found table + score]> found
                              else found)
                           found (map_to_list by_table)
                 | None => found
                 end)
            found table_synonyms)
          ∅ (map_to_list (synonyms self)) in
      foldl (λ found term,
        foldl (λ found '(table, table_synonyms),
          foldl (λ (found : gmap string Q) synonym,
                   let sim := similarity nlp term synonym in
                   if Qlt_le_dec 0.8 sim
                   then <[table := py_max (score_of found table) sim]> found
                   else found)
                found table_synonyms)
          found (map_to_list (synonyms self)))
        found query_terms
  end.

(** The body of the inner loop of [update_matches], for one confirmed
    [table] and one query [term]. *)
Definition update_term (table : string) (self : NameMatchManager)
    (term : string) : NameMatchManager :=
  let table_synonyms := default [] (synonyms self !! table) in
  let table_synonyms :=
    if bool_decide (term ∈ table_synonyms) then table_synonyms
    else table_synonyms ++ [term] in
  let by_table := default ∅ (matches self !! term) in
  {| nm_nlp := nm_nlp self;
     synonyms := <[table := table_synonyms]> (synonyms self);
     matches :=
       <[term := <[table := default 0.9 (by_table !! table)]> by_table]>
         (matches self) |}.

(** The body of the outer loop of [update_matches], for one confirmed
    [table]. *)
Definition update_table (terms : list string) (self : NameMatchManager)
    (table : string) : NameMatchManager :=
  let self :=
    match synonyms self !! table with
    | Some _ => self
    | None => {| nm_nlp := nm_nlp self;
                 synonyms := <[table := []]> (synonyms self);
                 matches := matches self |}
    end in
  foldl (update_term table) self terms.

(** [update_matches] *)
Definition update_matches (query : string) (tables : list string)
    (self : NameMatchManager) : NameMatchManager :=
  match nm_nlp self with
  | None => self
  | Some nlp =>
      let terms := lemmas nlp (lower query) in
      foldl (update_table terms) self tables
  end.

(** ** Feedback store ([FeedbackManager]) *)

(** A feedback row, and a cache entry: query, tables, weight. *)
Record feedback_entry : Type := {
  fb_query : string;
  fb_tables : list string;
  fb_weight : Q
}.



(** The SQLite database and the Redis mirror.
    - [feedback] is the table [feedback (query TEXT, tables TEXT, weight REAL)]
      as its rows in insertion order; the table declares no key.
    - [query_counts] is the table [query_counts (query TEXT PRIMARY KEY,
      count INTEGER)].
    - [cache] is the value of the Redis key [{db_name}:feedback]. *)
Record FeedbackManager : Type := {
  fm_nlp : option NLP;
  export_path : string;
  feedback : list feedback_entry;
  query_counts : gmap string Z;
  cache : option (list feedback_entry)
}.

Definition set_store (self : FeedbackManager) (rows : list feedback_entry)
    (counts : gmap string Z) (mirror : option (list feedback_entry))
    : FeedbackManager :=
  {| fm_nlp := fm_nlp self; export_path := export_path self;
     feedback := rows; query_counts := counts; cache := mirror |}.

(** [_initialize_db] on a fresh database file, with nothing cached. *)
Definition empty_store (nlp : option NLP) (path : string) : FeedbackManager :=
  {| fm_nlp := nlp; export_path := path;
     feedback := []; query_counts := ∅; cache := None |}.

(** [get_query_count] *)
Definition get_query_count (self : FeedbackManager) (query : string) : Z :=
  default 0%Z (query_counts self !! query).

(** [store_feedback].  [INSERT OR REPLACE INTO feedback] finds no key to
    conflict on and inserts a row; on [query_counts] it replaces the row of
    the same [query]. *)
Definition store_feedback (query : string) (tables : list string) (weight : Q)
    (self : FeedbackManager) : FeedbackManager :=
  let entry := {| fb_query := query; fb_tables := tables; fb_weight := weight |} in
  set_store self
    (feedback self ++ [entry])
    (<[query := (get_query_count self query + 1)%Z]> (query_counts self))
    (Some (default [] (cache self) ++ [entry])).

(** The scan of [get_similar_feedback]: the entry most similar to the
    query, above 0.8. *)
Definition best_feedback (nlp : NLP) (query : string)
    (feedback_list : list feedback_entry) : option feedback_entry :=
  (foldl (λ '(max_similarity, best) entry,
            let sim := similarity nlp (lower query) (lower (fb_query entry)) in
            if Qlt_le_dec max_similarity sim
            then if Qlt_le_dec 0.8 sim then (sim, Some entry)
                 else (max_similarity, best)
            else (max_similarity, best))
         (0, None) feedback_list).2.

(** [get_similar_feedback]: the answer and the store afterwards. *)
Definition get_similar_feedback (self : FeedbackManager) (query : string)
    : option feedback_entry * FeedbackManager :=
  match fm_nlp self with
  | None => (None, self)
  | Some nlp =>
      match cache self ≫= best_feedback nlp query with
      | Some entry => (Some entry, self)
      | None =>
          match best_feedback nlp query (feedback self) with
          | Some entry =>
              (Some entry,
               set_store self (feedback self) (query_counts self) (Some [entry]))
          | None => (None, self)
          end
      end
  end.





(** [clear_feedback] *)
Definition clear_feedback (self : FeedbackManager) : FeedbackManager :=
  set_store self [] ∅ None.

(** ** Table ranker ([TableIdentifier]) *)

(** A record of [db_config_trainer.csv]. *)
Record training_record : Type := {
  tr_query : string;
  tr_tables : list string
}.

Record TableIdentifier : Type := {
  pattern_manager : PatternManager;
  name_match_manager : NameMatchManager;
  weights : gmap string Q;
  training_data : list training_record;
  ti_nlp : option NLP
}.


(** [sorted(tables, key=key, reverse=True)]: descending, tables with equal
    keys stay in their original order. *)
Fixpoint insert_desc (key : string → Q) (x : string) (l : list string)
    : list string :=
  match l with
  | [] => [x]
  | y :: ys => if Qlt_le_dec (key x) (key y) then y :: insert_desc key x ys
               else x :: y :: ys
  end.

Definition sorted_desc (key : string → Q) (l : list string) : list string :=
  foldr (insert_desc key) [] l.

(** [_calculate_weight_score] *)
Definition _calculate_weight_score (self : TableIdentifier) (tables : list string)
    : Q :=
  match tables with
  | [] => 0
  | _ =>
      let total_weight :=
        foldl Qplus 0 (weight_of (weights self) <$> tables) in
      py_min (total_weight / inject_Z (Z.of_nat (length tables))) 1
  end.

Section TableRanker.
Context `{SetOrder}.

(** [_get_feedback_tables] *)
Definition _get_feedback_tables (self : TableIdentifier) (query : string)
    : list string :=
  match training_data self, ti_nlp self with
  | [], _ | _, None => []
  | _, Some nlp =>
      let feedback_tables :=
        foldl (λ feedback_tables record,
                 if bool_decide (tr_query record ≠ EmptyString) &&
                    bool_decide (tr_tables record ≠ [])
                 then if Qlt_le_dec 0.85
                           (similarity nlp (lower query)
                              (lower (tr_query record)))
                      then feedback_tables ++ tr_tables record
                      else feedback_tables
                 else feedback_tables)
              [] (training_data self) in
      set_iter (list_to_set feedback_tables)
  end.

(** The three confidences of [identify_tables]. *)
Definition pattern_confidence (pattern_tables : list string) : Q :=
  match pattern_tables with [] => 0 | _ => 0.9 end.

Definition name_confidence (name_matches : gmap string Q) : Q :=
  match (map_to_list name_matches).*2 ++ [0] with
  | score :: scores => py_max_list score scores
  | [] => 0
  end.

Definition feedback_confidence (feedback_tables : list string) : Q :=
  match feedback_tables with [] => 0 | _ => 0.95 end.

(** The union [matched_tables] of [identify_tables]. *)
Definition working_set (pattern_tables : list string)
    (name_matches : gmap string Q) (feedback_tables : list string)
    : gset string :=
  let name_tables :=
    (filter (λ kv, 0.8 <= kv.2) (map_to_list name_matches)).*1 in
  list_to_set pattern_tables ∪ list_to_set name_tables
    ∪ list_to_set feedback_tables.

(** [identify_tables] *)
Definition identify_tables (self : TableIdentifier) (query : string)
    : result (list string * Q) :=
  pattern_tables ← match_pattern (pattern_manager self) query;
  let name_matches := get_matches (name_match_manager self) query in
  let feedback_tables := _get_feedback_tables self query in
  let tables :=
    set_iter (working_set pattern_tables name_matches feedback_tables) in
  match tables with
  | [] => Ok ([], 0)
  | _ =>
      let confidence :=
        py_max_list (pattern_confidence pattern_tables)
          [name_confidence name_matches; feedback_confidence feedback_tables]
        * _calculate_weight_score self tables in
      let tables := take 5 (sorted_desc (weight_of (weights self)) tables) in
      Ok (tables, confidence)
  end.
End TableRanker.

(** ** Notions used by the statements *)

(** [source] holds a foreign key that references [target]. *)
Definition references (sd : schema_dict) (source target : string) : Prop :=
  ∃ schema by_table table fks fk,
    (schema, by_table) ∈ sd_foreign_keys sd ∧ (table, fks) ∈ by_table ∧ fk ∈ fks
    ∧ source = full_table_name schema table ∧ referenced_table fk = target.

(** The catalog lists the columns of every table it names. *)
Definition columns_listed (sd : schema_dict) : Prop :=
  ∀ schema table_list table,
    (schema, table_list) ∈ sd_tables sd → table ∈ table_list →
    ∃ by_table cols,
      dict_index (sd_columns sd) schema = Ok by_table
      ∧ dict_index by_table table = Ok cols.

(** [e] is the [KeyError] of a table that the catalog names without listing
    its columns: [columns[schema]] or [columns[schema][table]] is missing. *)
Definition columns_missing (sd : schema_dict) (e : exn) : Prop :=
  ∃ schema table_list table,
    (schema, table_list) ∈ sd_tables sd ∧ table ∈ table_list
    ∧ (dict_index (sd_columns sd) schema = Raise e
       ∨ ∃ by_table, dict_index (sd_columns sd) schema = Ok by_table
                     ∧ dict_index by_table table = Raise e).

(** The name of [table], the name of [schema] or the name of a column of
    the table (underscores read as spaces) occurs in the query. *)
Definition table_hit (sd : schema_dict) (query_lower : string)
    (schema table : string) : Prop :=
  str_in (lower table) query_lower || str_in (lower schema) query_lower
  ∨ ∃ by_table cols col_name info,
      dict_index (sd_columns sd) schema = Ok by_table
      ∧ dict_index by_table table = Ok cols
      ∧ (col_name, info) ∈ cols
      ∧ str_in (underscores_to_spaces (lower col_name)) query_lower.

(** [t] is a table of the catalog hit by the query. *)
Definition keyword_hit (sd : schema_dict) (query_lower : string) (t : string)
    : Prop :=
  ∃ schema table_list table,
    (schema, table_list) ∈ sd_tables sd ∧ table ∈ table_list
    ∧ t = full_table_name schema table
    ∧ table_hit sd query_lower schema table.

(** [term] is a synonym of [table] and the match graph has an entry for
    the pair. *)
Definition learnt (self : NameMatchManager) (table term : string) : Prop :=
  (∃ table_synonyms, synonyms self !! table = Some table_synonyms
                     ∧ term ∈ table_synonyms)
  ∧ (∃ by_table, matches self !! term = Some by_table
                 ∧ is_Some (by_table !! table)).

(** What one round of [update_table] leaves behind for [table]. *)
Definition settled (terms : list string) (self : NameMatchManager)
    (table : string) : Prop :=
  is_Some (synonyms self !! table)
  ∧ ∀ term, term ∈ terms → learnt self table term.


(** ** A stub collaborator and a small catalog

    The deterministic provider and the catalog on which the statements
    below are exercised. *)

(** The words of a text, split at spaces. *)
Fixpoint words_from (word : string) (text : string) : list string :=
  match text with
  | EmptyString => if bool_decide (word = EmptyString) then [] else [word]
  | String c text' =>
      if Ascii.eqb c " "
      then (if bool_decide (word = EmptyString) then words_from EmptyString text'
            else word :: words_from EmptyString text')
      else words_from (word +:+ String c EmptyString) text'
  end.

(** Lemmas and tokens are the words; no entities; two texts are similar
    exactly when they are equal. *)
Definition stub_nlp : NLP :=
  {| lemmas := words_from EmptyString;
     tokens := words_from EmptyString;
     ent_labels := λ _, [];
     similarity := λ a b, if bool_decide (a = b) then 1 else 0 |}.

Definition plain_column (type : string) : column_info :=
  {| col_type := type; nullable := false;
     is_primary_key := false; is_foreign_key := false |}.

(** [sales.order_items] references [sales.orders], which references
    [sales.customers]. *)
Definition order_items_fk : foreign_key :=
  {| fk_column := "order_id"; referenced_table := "sales.orders";
     referenced_column := "order_id" |}.

Definition sales_foreign_keys : list (string * list foreign_key) :=
  [("orders", [{| fk_column := "customer_id";
                  referenced_table := "sales.customers";
                  referenced_column := "customer_id" |}]);
   ("order_items", [order_items_fk])].

Definition sales_catalog : schema_dict :=
  {| sd_tables := [("sales", ["customers"; "orders"; "order_items"])];
     sd_columns :=
       [("sales",
         [("customers", [("customer_id", plain_column "int");
                         ("first_name", plain_column "varchar");
                         ("last_name", plain_column "varchar")]);
          ("orders", [("order_id", plain_column "int");
                      ("customer_id", plain_column "int");
                      ("order_date", plain_column "date")]);
          ("order_items", [("order_id", plain_column "int");
                           ("item_id", plain_column "int");
                           ("quantity", plain_column "int")])])];
     sd_foreign_keys := [("sales", sales_foreign_keys)] |}.

(** The intent map of [_get_default_entity_mappings]. *)
Definition default_entity_mappings : list (string * list string) :=
  [("name", ["name"; "first_name"; "last_name"; "fname"; "lname"]);
   ("details", ["address"; "city"; "state"; "zip_code"; "store_name"]);
   ("stock", ["quantity"; "stock"; "inventory"]);
   ("category", ["category"; "category_name"]);
   ("order", ["order"; "order_id"; "sales"; "purchase"]);
   ("brand", ["brand"; "brand_name"])].

(** The pattern index of a cold start on the small catalog. *)
Definition sales_patterns (nlp : option NLP) : PatternManager :=
  {| pm_schema_dict := sales_catalog;
     pm_nlp := nlp;
     patterns := match _initialize_patterns sales_catalog with
                 | Ok generated => generated
                 | Raise _ => []
                 end;
     entity_mappings := default_entity_mappings |}.

(** A synonym index with nothing learnt yet. *)
Definition no_synonyms (nlp : option NLP) : NameMatchManager :=
  {| nm_nlp := nlp; synonyms := ∅; matches := ∅ |}.

(** The ranker over the small catalog, with given synonym index and
    ledger. *)
Definition sales_identifier (names : NameMatchManager)
    (ledger : gmap string Q) : TableIdentifier :=
  {| pattern_manager := sales_patterns (Some stub_nlp);
     name_match_manager := names;
     weights := ledger;
     training_data := [];
     ti_nlp := Some stub_nlp |}.

(** ** Further operations of the ranker *)

(** [update_name_matches]: the synonym index learns the confirmation (and
    is copied to Redis). *)
Definition update_name_matches (query : string) (selected_tables : list string)
    (self : TableIdentifier) : TableIdentifier :=
  {| pattern_manager := pattern_manager self;
     name_match_manager :=
       update_matches query selected_tables (name_match_manager self);
     weights := weights self;
     training_data := training_data self;
     ti_nlp := ti_nlp self |}.

(** ** Further notions of the feedback store *)

(** The similarity that [get_similar_feedback] computes between the query
    and an entry. *)
Definition entry_similarity (nlp : NLP) (query : string)
    (entry : feedback_entry) : Q :=
  similarity nlp (lower query) (lower (fb_query entry)).


(** A session of [store_feedback] calls. *)
Definition store_many (calls : list (string * list string * Q))
    (self : FeedbackManager) : FeedbackManager :=
  foldl (λ self '(query, tables, weight), store_feedback query tables weight self)
        self calls.

(** ** Learning patterns from confirmed tables ([update_patterns]) *)

(** [s.split('.')] *)
Fixpoint split_dot (s : string) : list string :=
  match s with
  | EmptyString => [EmptyString]
  | String c rest =>
      if Ascii.eqb c "."
      then EmptyString :: split_dot rest
      else match split_dot rest with
           | part :: parts => String c part :: parts
           | [] => [String c EmptyString]
           end
  end.

(** [d.get(key, {})] *)
Definition dict_get_or_empty {V : Type} (d : list (string * list V))
    (key : string) : list V :=
  match dict_index d key with
  | Ok value => value
  | Raise _ => []
  end.

(** The [if]/[elif] chain over the intents: every branch has the same
    body, the append of the keyword to the list of the intent. *)
Definition intent_applies (intent : string)
    (relevant_columns : list (string * column_info)) : bool :=
  if bool_decide (intent = "name")
     && existsb (has_column relevant_columns) ["first_name"; "last_name"; "name"]
  then true
  else if bool_decide (intent = "details")
          && existsb (has_column relevant_columns)
               ["address"; "city"; "state"; "zip_code"; "store_name"]
  then true
  else if bool_decide (intent = "stock")
          && existsb (has_column relevant_columns)
               ["quantity"; "stock"; "inventory"]
  then true
  else if bool_decide (intent = "category")
          && has_column relevant_columns "category_name"
  then true
  else if bool_decide (intent = "order")
          && existsb (has_column relevant_columns) ["order_id"; "sales"]
  then true
  else if bool_decide (intent = "brand")
          && has_column relevant_columns "brand_name"
  then true
  else false.

(** [keyword] occurs in the name of a column (lowercased, underscores read
    as spaces). *)
Definition is_relevant (relevant_columns : list (string * column_info))
    (keyword : string) : bool :=
  existsb (λ col : string * column_info,
             str_in keyword (underscores_to_spaces (lower col.1)))
          relevant_columns.

(** The patterns and the intent map, which [update_patterns] mutates. *)
Definition learnt_state : Type :=
  list (string * list (list string)) * list (string * list string).

(** The body of the loop over the keywords for one confirmed table.  The
    entry [patterns[table]] exists: the loop over the tables creates it. *)
Definition update_keyword (table : string)
    (relevant_columns : list (string * column_info))
    (state : learnt_state) (keyword : string) : learnt_state :=
  let '(patterns, entity_mappings) := state in
  let patterns :=
    match dict_index patterns table with
    | Ok table_patterns =>
        if is_relevant relevant_columns keyword
           && bool_decide ([keyword] ∉ table_patterns)
        then dict_set patterns table (table_patterns ++ [[keyword]])
        else patterns
    | Raise _ => patterns
    end in
  let entity_mappings :=
    (λ '(intent, keywords_list),
       (intent,
        if intent_applies intent relevant_columns
           && bool_decide (keyword ∉ keywords_list)
        then keywords_list ++ [keyword] else keywords_list))
    <$> entity_mappings in
  (patterns, entity_mappings).

(** The loop over the confirmed tables.  [schema, table_name =
    table.split('.')] raises [ValueError] unless the name has exactly one
    dot; the exception is caught around the whole loop, so the loop is left
    with what was changed so far. *)
Fixpoint update_tables (sd : schema_dict) (keywords : list string)
    (tables : list string) (state : learnt_state) : learnt_state :=
  match tables with
  | [] => state
  | table :: rest =>
      let '(patterns, entity_mappings) := state in
      let patterns :=
        match dict_index patterns table with
        | Ok _ => patterns
        | Raise _ => dict_set patterns table []
        end in
      match split_dot table with
      | [schema; table_name] =>
          let relevant_columns :=
            dict_get_or_empty (dict_get_or_empty (sd_columns sd) schema)
                              table_name in
          update_tables sd keywords rest
            (foldl (update_keyword table relevant_columns)
                   (patterns, entity_mappings) keywords)
      | _ => (patterns, entity_mappings)
      end
  end.

(** [update_patterns]: nothing is learnt without the NLP model. *)
Definition update_patterns (query : string) (tables : list string)
    (self : PatternManager) : PatternManager :=
  match pm_nlp self with
  | None => self
  | Some nlp =>
      let keywords := lemmas nlp (lower query) in
      let '(patterns, entity_mappings) :=
        update_tables (pm_schema_dict self) keywords tables
                      (patterns self, entity_mappings self) in
      {| pm_schema_dict := pm_schema_dict self;
         pm_nlp := pm_nlp self;
         patterns := patterns;
         entity_mappings := entity_mappings |}
  end.

(** A key/value listing of lists grows: every entry keeps its key and its
    items. *)
Definition extends {V : Type} (d d' : list (string * list V)) : Prop :=
  ∀ key items, (key, items) ∈ d →
    ∃ items', (key, items') ∈ d' ∧ items ⊆ items'.

(** [pattern] can be learnt for the table [t] from the lemmas [keywords]
    of a query whose confirmed tables are [tables]: it is one lemma, which
    occurs in the name of a column that the catalog lists for [t]. *)
Definition learnable (sd : schema_dict) (keywords tables : list string)
    (t : string) (pattern : list string) : Prop :=
  ∃ keyword schema table_name col_name info,
    pattern = [keyword] ∧ keyword ∈ keywords ∧ t ∈ tables
    ∧ split_dot t = [schema; table_name]
    ∧ (col_name, info)
        ∈ dict_get_or_empty (dict_get_or_empty (sd_columns sd) schema) table_name
    ∧ str_in keyword (underscores_to_spaces (lower col_name)).

(** ** Validation of table names ([validate_tables_exist]) *)

(** [{s.lower(): s for s in schema_dict['tables']}]: of two schemas with
    the same lowercased name the later one stays. *)
Definition schema_map (sd : schema_dict) : gmap string string :=
  foldl (λ (m : gmap string string) '(s, _), <[lower s := s]> m)
        ∅ (sd_tables sd).

(** The body of the loop of [validate_tables_exist], on the lists [valid]
    and [invalid]. *)
Definition validate_table (sd : schema_dict)
    (lists : list string * list string) (table : string)
    : result (list string * list string) :=
  let '(valid, invalid) := lists in
  match split_dot table with
  | [schema; table_name] =>
      let schema_lower := lower schema in
      match schema_map sd !! schema_lower with
      | Some canonical =>
          match dict_index (sd_tables sd) canonical with
          | Ok table_list =>
              if bool_decide (lower table_name ∈ lower <$> table_list)
              then Ok (valid ++ [full_table_name canonical table_name], invalid)
              else Ok (valid, invalid ++ [table])
          | Raise e => Raise e
          end
      | None => Ok (valid, invalid ++ [table])
      end
  | _ => Ok (valid, invalid ++ [table])
  end.

(** [validate_tables_exist]: the valid and the invalid names. *)
Definition validate_tables_exist (sd : schema_dict) (tables : list string)
    : result (list string * list string) :=
  for_each (validate_table sd) ([], []) tables.

(** The number of dots of a string. *)
Fixpoint dots (s : string) : nat :=
  match s with
  | EmptyString => 0
  | String c rest => (if Ascii.eqb c "." then 1 else 0) + dots rest
  end.

(** [v] is what [validate_tables_exist] accepts for one of [tables]: the
    name [schema.typed] of a table of the catalog up to the case of the
    letters, with the schema as the catalog writes it and the table as it
    was typed. *)
Definition accepted (sd : schema_dict) (tables : list string) (v : string)
    : Prop :=
  ∃ table schema typed canonical table_list t,
    table ∈ tables ∧ split_dot table = [schema; typed]
    ∧ (canonical, table_list) ∈ sd_tables sd ∧ lower canonical = lower schema
    ∧ t ∈ table_list ∧ lower t = lower typed
    ∧ v = full_table_name canonical typed.

(** The state has learnt [keyword] for [table]: the table has its entry,
    with the pattern of the keyword if the keyword is relevant, and the
    keyword is in the list of every intent that applies to the table. *)
Definition keyword_learnt (table : string)
    (relevant_columns : list (string * column_info)) (keyword : string)
    (state : learnt_state) : Prop :=
  (∃ table_patterns,
     dict_index state.1 table = Ok table_patterns
     ∧ (is_relevant relevant_columns keyword = true → [keyword] ∈ table_patterns))
  ∧ ∀ intent keywords_list,
      (intent, keywords_list) ∈ state.2 →
      intent_applies intent relevant_columns = true → keyword ∈ keywords_list.

(** Nothing is left to learn from [tables]: the state of the pattern index
    after [update_tables] has run over them. *)
Fixpoint stable (sd : schema_dict) (keywords tables : list string)
    (state : learnt_state) : Prop :=
  match tables with
  | [] => True
  | table :: rest =>
      (∃ table_patterns, dict_index state.1 table = Ok table_patterns)
      ∧ match split_dot table with
        | [schema; table_name] =>
            (∀ keyword, keyword ∈ keywords →
               keyword_learnt table
                 (dict_get_or_empty (dict_get_or_empty (sd_columns sd) schema)
                                    table_name) keyword state)
            ∧ stable sd keywords rest state
        | _ => True
        end
  end.

(** ** Further notions of the pattern index *)

(** [table] of [schema] is a table of the catalog, with columns [cols]. *)
Definition catalog_table (sd : schema_dict) (schema table : string)
    (cols : list (string * column_info)) : Prop :=
  ∃ table_list by_table,
    (schema, table_list) ∈ sd_tables sd ∧ table ∈ table_list
    ∧ dict_index (sd_columns sd) schema = Ok by_table
    ∧ dict_index by_table table = Ok cols.

(** A full name [schema.table] belongs to one table of the catalog only
    (as when no schema name contains a dot). *)
Definition names_unambiguous (sd : schema_dict) : Prop :=
  ∀ schema table cols schema' table' cols',
    catalog_table sd schema table cols →
    catalog_table sd schema' table' cols' →
    full_table_name schema table = full_table_name schema' table' →
    schema = schema' ∧ table = table'.

(** A pattern fires on a query: its phrase occurs in the lowercased query,
    or all its tokens are query tokens. *)
Definition pattern_fires (query_lower : string) (query_tokens : list string)
    (pattern : list string) : bool :=
  str_in (join_spaces pattern) query_lower
  || forallb (λ tok, bool_decide (tok ∈ query_tokens)) pattern.

(** ** Notions used by the further statements *)

(** [self.matches[term][table]], when both keys are present. *)
Definition score_at (self : NameMatchManager) (term table : string) : option Q :=
  matches self !! term ≫= (λ by_table, by_table !! table).

(** No score of the match graph is negative. *)
Definition graph_nonneg (self : NameMatchManager) : Prop :=
  ∀ term table score, score_at self term table = Some score → 0 <= score.

(** [new] is [old] followed by distinct elements of [terms] that [old]
    lacks. *)
Definition appended (terms old new : list string) : Prop :=
  ∃ added, new = old ++ added ∧ NoDup added
           ∧ ∀ x, x ∈ added → x ∈ terms ∧ x ∉ old.

(** The bodies of the two loops of [get_matches] over the synonyms of one
    table: the exact hit or the memoized score, and the similarity. *)
Definition exact_or_memo (self : NameMatchManager) (query_terms : list string)
    (table : string) (found : gmap string Q) (synonym : string)
    : gmap string Q :=
  if bool_decide (synonym ∈ query_terms)
  then <[table := score_of found table + 0.9]> found
  else match matches self !! synonym with
       | Some by_table =>
           foldl (λ (found : gmap string Q) '(matched_table, score),
                    if bool_decide (matched_table = table)
                    then <[table := score_of found table + score]> found
                    else found)
                 found (map_to_list by_table)
       | None => found
       end.

Definition similar_step (nlp : NLP) (term table : string)
    (found : gmap string Q) (synonym : string) : gmap string Q :=
  let sim := similarity nlp term synonym in
  if Qlt_le_dec 0.8 sim
  then <[table := py_max (score_of found table) sim]> found
  else found.

(** Every score of [found] is non-negative and belongs to a table that has
    synonyms. *)
Definition sane (self : NameMatchManager) (found : gmap string Q) : Prop :=
  ∀ table score, found !! table = Some score →
    0 <= score ∧ is_Some (synonyms self !! table).

(** [table] is scored at least 0.9. *)
Definition scored (table : string) (found : gmap string Q) : Prop :=
  ∃ score, found !! table = Some score ∧ 0.9 <= score.

(** * Properties *)

(** ** Facts about scalars *)

Lemma py_max_lower (a b : Q) : a <= py_max a b.
Proof. unfold py_max. destruct (Qlt_le_dec a b); lra. Qed.

Lemma py_max_upper (a b : Q) : b <= py_max a b.
Proof. unfold py_max. destruct (Qlt_le_dec a b); lra. Qed.

Lemma py_max_cases (a b : Q) : py_max a b = a ∨ py_max a b = b.
Proof. unfold py_max. destruct (Qlt_le_dec a b); auto. Qed.

Lemma py_min_upper (a b : Q) : py_min a b <= b.
Proof. unfold py_min. destruct (Qlt_le_dec b a); lra. Qed.

Lemma py_min_lower (a b c : Q) : c <= a → c <= b → c <= py_min a b.
Proof. unfold py_min. destruct (Qlt_le_dec b a); auto. Qed.

Lemma py_max_list_ge_first (x : Q) (xs : list Q) : x <= py_max_list x xs.
Proof.
  unfold py_max_list. revert x.
  induction xs as [|y ys IH]; intros x; simpl; [lra|].
  pose proof (IH (py_max x y)). pose proof (py_max_lower x y). lra.
Qed.

Lemma py_max_list_ge_elem (x : Q) (xs : list Q) (y : Q) :
  y ∈ xs → y <= py_max_list x xs.
Proof.
  unfold py_max_list. revert x.
  induction xs as [|z zs IH]; intros x Hy; [by apply elem_of_nil in Hy|].
  apply elem_of_cons in Hy as [->|Hy]; simpl.
  - pose proof (py_max_list_ge_first (py_max x z) zs) as Hge.
    unfold py_max_list in Hge. pose proof (py_max_upper x z). lra.
  - by apply IH.
Qed.

Lemma py_max_list_bound (c x : Q) (xs : list Q) :
  x <= c → (∀ y, y ∈ xs → y <= c) → py_max_list x xs <= c.
Proof.
  unfold py_max_list. revert x.
  induction xs as [|z zs IH]; intros x Hx Hxs; simpl; [done|].
  apply IH.
  - destruct (py_max_cases x z) as [-> | ->]; [done|].
    apply Hxs, elem_of_cons; auto.
  - intros y Hy. apply Hxs, elem_of_cons; auto.
Qed.

(** ** Facts about set iteration *)

Section SetOrderFacts.
Context `{SetOrder}.

Lemma elem_of_set_iter (X : gset string) (x : string) : x ∈ set_iter X ↔ x ∈ X.
Proof. rewrite (set_iter_perm X). apply elem_of_elements. Qed.

Lemma NoDup_set_iter (X : gset string) : NoDup (set_iter X).
Proof. rewrite (set_iter_perm X). apply NoDup_elements. Qed.

Lemma list_to_set_set_iter (X : gset string) : list_to_set (set_iter X) = X.
Proof.
  apply set_eq. intros x. rewrite elem_of_list_to_set. apply elem_of_set_iter.
Qed.

Lemma set_iter_nil (X : gset string) : set_iter X = [] ↔ X = ∅.
Proof.
  split.
  - intros Hnil. apply set_eq. intros x.
    rewrite <- elem_of_set_iter, Hnil. set_solver.
  - intros ->. apply Permutation_nil_r. rewrite (set_iter_perm ∅).
    by rewrite elements_empty.
Qed.
End SetOrderFacts.

(** ** Facts about the ledger loops *)

Lemma weight_of_floor (weights : gmap string Q) (table : string) :
  weights_floor weights → 0.5 <= weight_of weights table.
Proof.
  intros Hfl. unfold weight_of.
  destruct (weights !! table) as [w|] eqn:E; simpl; [by eapply Hfl | lra].
Qed.

Lemma weights_floor_insert (weights : gmap string Q) (table : string) (w : Q) :
  weights_floor weights → 0.5 <= w → weights_floor (<[table := w]> weights).
Proof.
  intros Hfl Hw t v. rewrite lookup_insert. case_decide; [|by apply Hfl].
  by intros [= <-].
Qed.

Lemma weights_floor_foldl (f : Q → Q) (tables : list string)
    (weights : gmap string Q) :
  (∀ w, 0.5 <= w → 0.5 <= f w) →
  weights_floor weights →
  weights_floor
    (foldl (λ weights table, <[table := f (weight_of weights table)]> weights)
           weights tables).
Proof.
  intros Hf. revert weights.
  induction tables as [|t ts IH]; intros weights Hfl; simpl; [done|].
  apply IH, weights_floor_insert; [done|]. by apply Hf, weight_of_floor.
Qed.

Lemma weights_floor_load (all_tables : list string) :
  weights_floor (_load_weights None all_tables).
Proof.
  simpl.
  assert (∀ ws : gmap string Q, weights_floor ws →
    weights_floor (foldl (λ weights table, <[table := 1]> weights) ws all_tables))
    as Hgen.
  { induction all_tables as [|t ts IH]; intros ws Hws; simpl; [done|].
    apply IH, weights_floor_insert; [done | lra]. }
  apply Hgen. intros t w. by rewrite lookup_empty.
Qed.

(** Reading a table after a loop that rewrites each listed table once. *)
Lemma lookup_foldl_update (f : Q → Q) (tables : list string)
    (weights : gmap string Q) (t : string) :
  NoDup tables →
  foldl (λ weights table, <[table := f (weight_of weights table)]> weights)
        weights tables !! t
  = if decide (t ∈ tables) then Some (f (weight_of weights t)) else weights !! t.
Proof.
  revert weights.
  induction tables as [|x xs IH]; intros weights Hnd; simpl.
  - destruct (decide (t ∈ [])) as [Hin|_]; [|done].
    by apply elem_of_nil in Hin.
  - apply NoDup_cons in Hnd as [Hx Hnd]. rewrite IH by done.
    destruct (decide (t = x)) as [->|Hne].
    + rewrite decide_False by done. rewrite lookup_insert_eq.
      rewrite decide_True by (apply elem_of_cons; auto). done.
    + unfold weight_of at 1. rewrite lookup_insert_ne by done.
      fold (weight_of weights t).
      destruct (decide (t ∈ xs)) as [Hin|Hin].
      * rewrite decide_True by (apply elem_of_cons; auto). done.
      * rewrite decide_False; [done|].
        intros [?|?]%elem_of_cons; done.
Qed.

Section WeightLedgerFacts.
Context `{SetOrder}.

Lemma adjust_weights_floor (selected_tables all_tables : list string)
    (weights : gmap string Q) :
  weights_floor weights →
  weights_floor (adjust_weights selected_tables all_tables weights).
Proof.
  intros Hfl. unfold adjust_weights.
  apply (weights_floor_foldl (λ w, py_max 0.5 (w * 0.95)));
    [intros; apply py_max_lower|].
  apply (weights_floor_foldl (λ w, py_max 0.5 (w * 0.85)));
    [intros; apply py_max_lower|].
  apply (weights_floor_foldl (λ w, w + 0.3)); [intros; lra | done].
Qed.

Lemma adjust_many_floor (calls : list (list string * list string))
    (weights : gmap string Q) :
  weights_floor weights → weights_floor (adjust_many calls weights).
Proof.
  unfold adjust_many. revert weights.
  induction calls as [|c cs IH]; intros weights Hfl; simpl; [done|].
  by apply IH, adjust_weights_floor.
Qed.
End WeightLedgerFacts.

(** Reading a table that a rewriting loop does not list. *)
Lemma lookup_foldl_update_ne (f : Q → Q) (tables : list string)
    (weights : gmap string Q) (t : string) :
  t ∉ tables →
  foldl (λ weights table, <[table := f (weight_of weights table)]> weights)
        weights tables !! t
  = weights !! t.
Proof.
  revert weights.
  induction tables as [|x xs IH]; intros weights Hnin; simpl; [done|].
  apply not_elem_of_cons in Hnin as [Hne Hnin].
  rewrite IH by done. by rewrite lookup_insert_ne.
Qed.

Section AdjustWeights.
Context `{SetOrder}.

Lemma adjust_weights_selected (selected_tables all_tables : list string)
    (weights : gmap string Q) (t : string) :
  NoDup selected_tables → t ∈ selected_tables → t ∈ all_tables →
  adjust_weights selected_tables all_tables weights !! t
  = Some (weight_of weights t + 0.3).
Proof.
  intros Hnd Hsel Hall. unfold adjust_weights.
  rewrite (lookup_foldl_update_ne (λ w, py_max 0.5 (w * 0.95))).
  2:{ rewrite elem_of_set_iter, elem_of_difference, elem_of_list_to_set. tauto. }
  rewrite (lookup_foldl_update_ne (λ w, py_max 0.5 (w * 0.85))).
  2:{ rewrite elem_of_set_iter, elem_of_difference, !elem_of_list_to_set. tauto. }
  rewrite (lookup_foldl_update (λ w, w + 0.3)) by done.
  by rewrite decide_True.
Qed.

Lemma adjust_weights_known (selected_tables all_tables : list string)
    (weights : gmap string Q) (t : string) :
  t ∈ all_tables → t ∉ selected_tables →
  adjust_weights selected_tables all_tables weights !! t
  = Some (py_max 0.5 (weight_of weights t * 0.85)).
Proof.
  intros Hall Hsel. unfold adjust_weights.
  rewrite (lookup_foldl_update_ne (λ w, py_max 0.5 (w * 0.95))).
  2:{ rewrite elem_of_set_iter, elem_of_difference, elem_of_list_to_set. tauto. }
  rewrite (lookup_foldl_update (λ w, py_max 0.5 (w * 0.85)))
    by apply NoDup_set_iter.
  rewrite decide_True
    by (rewrite elem_of_set_iter, elem_of_difference, !elem_of_list_to_set; tauto).
  unfold weight_of at 1.
  by rewrite (lookup_foldl_update_ne (λ w, w + 0.3)).
Qed.
End AdjustWeights.

(** ** The weight ledger: floor, adjustment, defaults *)

(** C2. Starting from the bind-time default of 1.0 for every catalog table,
    after any sequence of [adjust_weights] calls with arbitrary arguments,
    every weight the ledger tracks is at least 0.5. *)
Theorem weight_floor_always `{SetOrder} (catalog_tables : list string)
    (calls : list (list string * list string)) (table : string) (w : Q) :
  adjust_many calls (_load_weights None catalog_tables) !! table = Some w →
  0.5 <= w.
Proof.
  intros Hw.
  exact (adjust_many_floor calls _ (weights_floor_load catalog_tables) table w Hw).
Qed.

Lemma weight_floor_always_witness :
  let calls := [(["sales.orders"], ["sales.orders"; "sales.customers"]);
                ([], ["sales.orders"]); ([], []); ([], [])] in
  let ledger := @adjust_many elements_order calls
                  (_load_weights None ["sales.customers"; "sales.orders"]) in
  ledger !! "sales.customers" = Some 0.72876875 ∧ 0.5 <= 0.72876875.
Proof.
  intros calls ledger.
  assert (ledger !! "sales.customers" = Some 0.72876875)
    as Hw by (vm_compute; reflexivity).
  split; [exact Hw|].
  exact (@weight_floor_always elements_order
           ["sales.customers"; "sales.orders"] calls "sales.customers" _ Hw).
Defined.

(** C4, as the code has it. When the selected tables are listed once each
    and all belong to the known tables, [adjust_weights] adds exactly 0.3 to
    the weight of every selected table, and gives every known table that is
    not selected the weight [max(0.5, weight × 0.85)]. *)
Theorem adjust_weights_effect `{SetOrder} (selected_tables all_tables : list string)
    (weights : gmap string Q) :
  NoDup selected_tables →
  selected_tables ⊆ all_tables →
  (∀ t, t ∈ selected_tables →
     adjust_weights selected_tables all_tables weights !! t
     = Some (weight_of weights t + 0.3))
  ∧ (∀ t, t ∈ all_tables → t ∉ selected_tables →
       adjust_weights selected_tables all_tables weights !! t
       = Some (py_max 0.5 (weight_of weights t * 0.85))).
Proof.
  intros Hnd Hsub. split.
  - intros t Ht. apply adjust_weights_selected; [done | done | by apply Hsub].
  - intros t Hall Hsel. by apply adjust_weights_known.
Qed.

(** Scenario C of the specification, obtained from [adjust_weights_effect]. *)
Lemma adjust_weights_scenario_C :
  let selected := ["sales.customers"] in
  let known := ["sales.customers"; "sales.orders"] in
  let adjusted := @adjust_weights elements_order selected known
                    (_load_weights None known) in
  NoDup selected ∧ selected ⊆ known
  ∧ adjusted !! "sales.customers" = Some 1.3
  ∧ adjusted !! "sales.orders" = Some 0.85.
Proof.
  intros selected known adjusted.
  assert (NoDup selected) as Hnd.
  { apply NoDup_cons. split; [apply not_elem_of_nil | apply NoDup_nil_2]. }
  assert (selected ⊆ known) as Hsub.
  { intros t Ht. apply list_elem_of_singleton in Ht as ->. apply list_elem_of_here. }
  destruct (@adjust_weights_effect elements_order selected known
              (_load_weights None known) Hnd Hsub) as [Hsel Hknown].
  split; [exact Hnd|]. split; [exact Hsub|]. split.
  - exact (Hsel "sales.customers" (list_elem_of_here _ _)).
  - refine (Hknown "sales.orders" _ _).
    + apply list_elem_of_further, list_elem_of_here.
    + intros Hin. apply list_elem_of_singleton in Hin. discriminate Hin.
Defined.

(** A table selected twice receives 0.3 twice, and a selected table that is
    not among the known tables is decayed by the last loop: in neither case
    does the weight grow by exactly 0.3. *)
Lemma adjust_weights_not_plus_03 :
  let weights := _load_weights None ["sales.customers"; "sales.orders"] in
  let twice := @adjust_weights elements_order
                 ["sales.customers"; "sales.customers"]
                 ["sales.customers"; "sales.orders"] weights in
  let unknown := @adjust_weights elements_order
                   ["sales.customers"] ["sales.orders"] weights in
  weight_of weights "sales.customers" = 1
  ∧ twice !! "sales.customers" = Some 1.60
  ∧ unknown !! "sales.customers" = Some 1.235
  ∧ ¬ (1.60 == 1 + 0.3) ∧ ¬ (1.235 == 1 + 0.3).
Proof.
  split; [reflexivity|]. split; [vm_compute; reflexivity|].
  split; [vm_compute; reflexivity|].
  split; vm_compute; discriminate.
Qed.

(** ** Facts about the ranking sort *)

Lemma insert_desc_perm (key : string → Q) (x : string) (l : list string) :
  insert_desc key x l ≡ₚ x :: l.
Proof.
  induction l as [|y ys IH]; simpl; [done|].
  destruct (Qlt_le_dec (key x) (key y)); [|done].
  rewrite IH. apply Permutation_swap.
Qed.

Lemma sorted_desc_perm (key : string → Q) (l : list string) :
  sorted_desc key l ≡ₚ l.
Proof.
  induction l as [|x xs IH]; simpl; [done|].
  rewrite insert_desc_perm. by rewrite IH.
Qed.

Lemma insert_desc_sorted (key : string → Q) (x : string) (l : list string) :
  StronglySorted (λ a b, key b <= key a) l →
  StronglySorted (λ a b, key b <= key a) (insert_desc key x l).
Proof.
  induction l as [|y ys IH]; intros Hs; simpl.
  - apply SSorted_cons; [apply SSorted_nil | apply Forall_nil_2].
  - apply StronglySorted_cons in Hs as [Hall Hs].
    destruct (Qlt_le_dec (key x) (key y)) as [Hlt|Hle].
    + apply SSorted_cons; [by apply IH|].
      rewrite insert_desc_perm. apply Forall_cons. split; [lra | done].
    + apply SSorted_cons; [by apply SSorted_cons|].
      apply Forall_cons. split; [done|].
      eapply Forall_impl; [exact Hall|]. simpl. intros z Hz. lra.
Qed.

Lemma sorted_desc_sorted (key : string → Q) (l : list string) :
  StronglySorted (λ a b, key b <= key a) (sorted_desc key l).
Proof.
  induction l as [|x xs IH]; simpl; [apply SSorted_nil|].
  by apply insert_desc_sorted.
Qed.


(** ** The ranker: order of the result *)

(** C5. For a query with a non-empty working set, [identify_tables] returns
    the working set sorted by descending table weight, the weight being the
    only key, truncated to at most 5 entries. *)
Theorem identify_tables_ranking `{SetOrder} (self : TableIdentifier)
    (query : string) (pattern_tables : list string) :
  match_pattern (pattern_manager self) query = Ok pattern_tables →
  working_set pattern_tables (get_matches (name_match_manager self) query)
    (_get_feedback_tables self query) ≠ ∅ →
  ∃ ranked confidence,
    identify_tables self query = Ok (take 5 ranked, confidence)
    ∧ ranked
      = sorted_desc (weight_of (weights self))
          (set_iter (working_set pattern_tables
                       (get_matches (name_match_manager self) query)
                       (_get_feedback_tables self query)))
    ∧ ranked ≡ₚ elements (working_set pattern_tables
                            (get_matches (name_match_manager self) query)
                            (_get_feedback_tables self query))
    ∧ StronglySorted
        (λ a b, weight_of (weights self) b <= weight_of (weights self) a) ranked
    ∧ (length (take 5 ranked) ≤ 5)%nat.
Proof.
  intros Hpat Hne.
  set (ws := working_set _ _ _) in *.
  exists (sorted_desc (weight_of (weights self)) (set_iter ws)),
    (py_max_list (pattern_confidence pattern_tables)
       [name_confidence (get_matches (name_match_manager self) query);
        feedback_confidence (_get_feedback_tables self query)]
     * _calculate_weight_score self (set_iter ws)).
  split; [|split; [done|split; [|split]]].
  - unfold identify_tables. rewrite Hpat. simpl. fold ws.
    destruct (set_iter ws) as [|t ts] eqn:Hiter; [|reflexivity].
    by apply set_iter_nil in Hiter.
  - rewrite sorted_desc_perm. apply set_iter_perm.
  - apply sorted_desc_sorted.
  - rewrite length_take. apply Nat.le_min_l.
Qed.

Lemma identify_tables_ranking_witness :
  let ledger : gmap string Q :=
    @adjust_weights elements_order ["sales.customers"]
      (get_all_tables sales_catalog)
      (_load_weights None (get_all_tables sales_catalog)) in
  let self := sales_identifier (no_synonyms (Some stub_nlp)) ledger in
  ∃ ranked confidence,
    @identify_tables elements_order self "show orders"
    = Ok (take 5 ranked, confidence)
    ∧ ranked = ["sales.customers"; "sales.order_items"; "sales.orders"].
Proof.
  intros ledger self.
  destruct (@identify_tables_ranking elements_order self "show orders"
              ["sales.order_items"; "sales.orders"; "sales.customers"])
    as (ranked & confidence & Hrun & Hranked & _).
  - vm_compute. reflexivity.
  - vm_compute. discriminate.
  - exists ranked, confidence. split; [exact Hrun|].
    rewrite Hranked. vm_compute. reflexivity.
Defined.

(** ** Facts about the confidence *)

Lemma foldl_Qplus_lower (a : Q) (l : list Q) :
  (∀ x, x ∈ l → 0 <= x) → a <= foldl Qplus a l.
Proof.
  revert a. induction l as [|x xs IH]; intros a Hl; simpl; [lra|].
  assert (0 <= x) by (apply Hl, elem_of_cons; auto).
  assert (a + x <= foldl Qplus (a + x) xs).
  { apply IH. intros y Hy. apply Hl, elem_of_cons; auto. }
  lra.
Qed.

Lemma weight_score_upper (self : TableIdentifier) (tables : list string) :
  _calculate_weight_score self tables <= 1.
Proof.
  unfold _calculate_weight_score. destruct tables; [lra|]. apply py_min_upper.
Qed.

Lemma weight_score_lower (self : TableIdentifier) (tables : list string) :
  weights_floor (weights self) → 0 <= _calculate_weight_score self tables.
Proof.
  intros Hfl. unfold _calculate_weight_score.
  destruct tables as [|t ts]; [lra|].
  apply py_min_lower; [|lra].
  apply Qle_shift_div_l.
  - change 0 with (inject_Z 0). rewrite <- Zlt_Qlt. simpl. lia.
  - rewrite Qmult_0_l. apply foldl_Qplus_lower.
    intros x (t' & -> & _)%list_elem_of_fmap.
    pose proof (weight_of_floor (weights self) t' Hfl). lra.
Qed.

Lemma name_confidence_lower (name_matches : gmap string Q) :
  0 <= name_confidence name_matches.
Proof.
  unfold name_confidence.
  destruct ((map_to_list name_matches).*2) as [|score scores]; simpl.
  - unfold py_max_list. simpl. lra.
  - apply py_max_list_ge_elem, elem_of_app. right. apply list_elem_of_here.
Qed.

Lemma name_confidence_upper (name_matches : gmap string Q) (c : Q) :
  0 <= c →
  (∀ t s, name_matches !! t = Some s → s <= c) →
  name_confidence name_matches <= c.
Proof.
  intros Hc Hs. unfold name_confidence.
  assert (∀ s, s ∈ (map_to_list name_matches).*2 ++ [0] → s <= c) as Hall.
  { intros s [Hin | ->%list_elem_of_singleton]%elem_of_app; [|done].
    apply list_elem_of_fmap in Hin as ([t s'] & -> & Hin).
    apply elem_of_map_to_list in Hin. by eapply Hs. }
  destruct ((map_to_list name_matches).*2 ++ [0]) as [|score scores]; [done|].
  apply py_max_list_bound.
  - apply Hall, list_elem_of_here.
  - intros y Hy. by apply Hall, list_elem_of_further.
Qed.

Lemma pattern_confidence_range (pattern_tables : list string) :
  0 <= pattern_confidence pattern_tables <= 1.
Proof. unfold pattern_confidence. destruct pattern_tables; lra. Qed.

Lemma feedback_confidence_range (feedback_tables : list string) :
  0 <= feedback_confidence feedback_tables <= 1.
Proof. unfold feedback_confidence. destruct feedback_tables; lra. Qed.

Lemma identify_tables_ok `{SetOrder} (self : TableIdentifier) (query : string)
    (pattern_tables : list string) :
  match_pattern (pattern_manager self) query = Ok pattern_tables →
  identify_tables self query
  = let name_matches := get_matches (name_match_manager self) query in
    let feedback_tables := _get_feedback_tables self query in
    let tables :=
      set_iter (working_set pattern_tables name_matches feedback_tables) in
    match tables with
    | [] => Ok ([], 0)
    | _ =>
        Ok (take 5 (sorted_desc (weight_of (weights self)) tables),
            py_max_list (pattern_confidence pattern_tables)
              [name_confidence name_matches;
               feedback_confidence feedback_tables]
            * _calculate_weight_score self tables)
    end.
Proof. intros Hpat. unfold identify_tables. by rewrite Hpat. Qed.

Lemma identify_tables_raise `{SetOrder} (self : TableIdentifier) (query : string)
    (e : exn) :
  match_pattern (pattern_manager self) query = Raise e →
  identify_tables self query = Raise e.
Proof. intros Hpat. unfold identify_tables. by rewrite Hpat. Qed.

(** ** The ranker: range of the confidence *)

(** C1, as the code has it. Over a ledger that respects the 0.5 floor the
    confidence returned by [identify_tables] is never negative, and it is at
    most 1.0 whenever no score returned by [get_matches] exceeds 1.0. *)
Theorem identify_tables_confidence `{SetOrder} (self : TableIdentifier)
    (query : string) (tables : list string) (confidence : Q) :
  weights_floor (weights self) →
  identify_tables self query = Ok (tables, confidence) →
  0 <= confidence
  ∧ ((∀ t s, get_matches (name_match_manager self) query !! t = Some s → s <= 1) →
     confidence <= 1).
Proof.
  intros Hfl.
  destruct (match_pattern (pattern_manager self) query) as [pattern_tables|e]
    eqn:Hpat.
  2:{ by rewrite (identify_tables_raise _ _ e). }
  rewrite (identify_tables_ok _ _ pattern_tables) by done.
  set (name_matches := get_matches (name_match_manager self) query).
  set (feedback_tables := _get_feedback_tables self query).
  cbv zeta.
  destruct (set_iter _) as [|t ts].
  { intros [= <- <-]. split; [lra | intros _; lra]. }
  set (score := _calculate_weight_score self (t :: ts)).
  set (m := py_max_list _ _).
  intros Heq. assert (confidence = m * score) as -> by congruence.
  assert (0 <= score <= 1) as Hscore.
  { split; [by apply weight_score_lower | apply weight_score_upper]. }
  assert (0 <= m) as Hm.
  { pose proof (py_max_list_ge_first (pattern_confidence pattern_tables)
      [name_confidence name_matches; feedback_confidence feedback_tables]).
    pose proof (pattern_confidence_range pattern_tables). unfold m. lra. }
  split; [nra|].
  intros Hscores.
  assert (m <= 1) as Hm1.
  { apply py_max_list_bound; [apply pattern_confidence_range|].
    intros y Hy.
    apply elem_of_cons in Hy as [->|Hy]; [|apply list_elem_of_singleton in Hy as ->].
    - apply name_confidence_upper; [lra | done].
    - apply feedback_confidence_range. }
  nra.
Qed.

Lemma identify_tables_confidence_witness :
  let self := sales_identifier (no_synonyms (Some stub_nlp))
                (_load_weights None (get_all_tables sales_catalog)) in
  @identify_tables elements_order self "show customer name list"
  = Ok (["sales.customers"], 0.9)
  ∧ 0 <= 0.9 ∧ 0.9 <= 1.
Proof.
  intros self.
  assert (@identify_tables elements_order self "show customer name list"
          = Ok (["sales.customers"], 0.9)) as Hrun
    by (vm_compute; reflexivity).
  destruct (@identify_tables_confidence elements_order self
              "show customer name list" _ _
              (weights_floor_load _) Hrun) as [Hlow Hup].
  split; [exact Hrun|]. split; [exact Hlow|].
  apply Hup. intros t s Hs. vm_compute in Hs. discriminate Hs.
Defined.

(** Two learnt synonyms of one table, both in the query: the scores add up
    to 1.8 and the confidence exceeds 1.0. *)
Lemma identify_tables_confidence_above_one :
  let names := update_matches "customer client" ["sales.customers"]
                 (no_synonyms (Some stub_nlp)) in
  let self := sales_identifier names
                (_load_weights None (get_all_tables sales_catalog)) in
  ∃ confidence,
    @identify_tables elements_order self "customer client"
    = Ok (["sales.customers"], confidence)
    ∧ ¬ (0 <= confidence <= 1).
Proof.
  exists 1.80. split; [vm_compute; reflexivity|].
  intros [_ Hle]. vm_compute in Hle. by apply Hle.
Qed.

(** ** The ledger default of 1.0 *)






(** ** Facts about loops that add to a set *)

Lemma elem_of_foldl_grow {A : Type} (body : gset string → A → gset string)
    (P : A → Prop) (l : list A) (init : gset string) (x : string) :
  (∀ acc a, x ∈ body acc a ↔ x ∈ acc ∨ P a) →
  x ∈ foldl body init l ↔ x ∈ init ∨ ∃ a, a ∈ l ∧ P a.
Proof.
  intros Hbody. revert init.
  induction l as [|a l IH]; intros init; simpl.
  - split; [auto|]. intros [?|(a & Ha & _)]; [done|]. by apply elem_of_nil in Ha.
  - rewrite IH, Hbody. split.
    + intros [[?|?]|(a' & Ha' & ?)]; [by left| |].
      * right. exists a. split; [apply list_elem_of_here | done].
      * right. exists a'. split; [by apply list_elem_of_further | done].
    + intros [?|(a' & Ha' & ?)]; [by left; left|].
      apply elem_of_cons in Ha' as [->|Ha']; [by left; right|].
      right. by exists a'.
Qed.

Lemma for_each_grow {A : Type} (body : gset string → A → result (gset string))
    (P : A → string → Prop) (l : list A) (init : gset string) :
  (∀ acc a, a ∈ l →
     ∃ acc', body acc a = Ok acc' ∧ ∀ x, x ∈ acc' ↔ x ∈ acc ∨ P a x) →
  ∃ out, for_each body init l = Ok out
         ∧ ∀ x, x ∈ out ↔ x ∈ init ∨ ∃ a, a ∈ l ∧ P a x.
Proof.
  revert init. induction l as [|a l IH]; intros init Hbody; simpl.
  - exists init. split; [done|]. intros x. split; [auto|].
    intros [?|(a & Ha & _)]; [done|]. by apply elem_of_nil in Ha.
  - destruct (Hbody init a (list_elem_of_here _ _)) as (acc' & -> & Hacc').
    destruct (IH acc') as (out & Hout & Hmem).
    { intros acc b Hb. apply Hbody. by apply list_elem_of_further. }
    exists out. split; [exact Hout|].
    intros x. rewrite Hmem, Hacc'. split.
    + intros [[?|?]|(a' & Ha' & ?)]; [by left| |].
      * right. exists a. split; [apply list_elem_of_here | done].
      * right. exists a'. split; [by apply list_elem_of_further | done].
    + intros [?|(a' & Ha' & ?)]; [by left; left|].
      apply elem_of_cons in Ha' as [->|Ha']; [by left; right|].
      right. by exists a'.
Qed.

(** ** Facts about the foreign-key step *)

Lemma elem_of_fk_matches (self : PatternManager) (found : gset string)
    (x : string) :
  x ∈ fk_matches self found
  ↔ ∃ source, source ∈ found ∧ references (pm_schema_dict self) source x.
Proof.
  unfold fk_matches.
  rewrite (elem_of_foldl_grow _
    (λ entry : string * list (string * list foreign_key),
       ∃ table fks fk, (table, fks) ∈ entry.2 ∧ fk ∈ fks
         ∧ full_table_name entry.1 table ∈ found ∧ referenced_table fk = x)).
  - split.
    + intros [Hx|([schema by_table] & Hin & table & fks & fk & ? & ? & ? & ?)];
        [by apply not_elem_of_empty in Hx|]. simpl in *.
      exists (full_table_name schema table). split; [done|].
      by exists schema, by_table, table, fks, fk.
    + intros (source & Hsrc
              & schema & by_table & table & fks & fk & ? & ? & ? & -> & ?).
      right. exists (schema, by_table). split; [done|].
      by exists table, fks, fk.
  - intros acc [schema by_table]. simpl.
    rewrite (elem_of_foldl_grow _
      (λ entry : string * list foreign_key,
         ∃ fk, fk ∈ entry.2 ∧ full_table_name schema entry.1 ∈ found
               ∧ referenced_table fk = x)).
    + split.
      * intros [?|([table fks] & ? & fk & ? & ? & ?)]; [by left|].
        right. by exists table, fks, fk.
      * intros [?|(table & fks & fk & ? & ? & ? & ?)]; [by left|].
        right. exists (table, fks). split; [done|]. by exists fk.
    + intros acc' [table fks]. simpl.
      case_bool_decide as Hfound.
      * rewrite (elem_of_foldl_grow _ (λ fk, referenced_table fk = x)).
        -- split.
           ++ intros [?|(fk & ? & ?)]; [by left|]. right. by exists fk.
           ++ intros [?|(fk & ? & ? & ?)]; [by left|]. right. by exists fk.
        -- intros acc'' fk. rewrite elem_of_union, elem_of_singleton.
           split; intros [?|?]; auto.
      * split; [by left|]. intros [?|(fk & ? & ? & ?)]; done.
Qed.

(** ** The pattern index: foreign keys widen by one hop *)

(** C6. With the NLP model loaded, the tables returned by [match_pattern]
    are exactly the directly matched tables together with the tables that a
    directly matched table references; a table that is neither is not
    returned, however it may be reachable through further foreign keys. *)
Theorem match_pattern_single_hop `{SetOrder} (self : PatternManager) (nlp : NLP)
    (query : string) :
  pm_nlp self = Some nlp →
  ∃ found,
    match_pattern self query = Ok found
    ∧ (∀ t, t ∈ found
            ↔ t ∈ direct_matches self nlp query
              ∨ ∃ source, source ∈ direct_matches self nlp query
                          ∧ references (pm_schema_dict self) source t)
    ∧ (∀ t, t ∉ direct_matches self nlp query →
            (∀ source, source ∈ direct_matches self nlp query →
                       ¬ references (pm_schema_dict self) source t) →
            t ∉ found).
Proof.
  intros Hnlp. unfold match_pattern. rewrite Hnlp.
  eexists. split; [reflexivity|].
  assert (∀ t, t ∈ set_iter (direct_matches self nlp query
                             ∪ fk_matches self (direct_matches self nlp query))
               ↔ t ∈ direct_matches self nlp query
                 ∨ ∃ source, source ∈ direct_matches self nlp query
                             ∧ references (pm_schema_dict self) source t) as Hiff.
  { intros t. by rewrite elem_of_set_iter, elem_of_union, elem_of_fk_matches. }
  split; [exact Hiff|].
  intros t Hdirect Hrefs [?|(source & Hsrc & Href)]%Hiff; [done|].
  by apply (Hrefs source).
Qed.

Lemma match_pattern_single_hop_witness :
  pm_nlp (sales_patterns (Some stub_nlp)) = Some stub_nlp
  ∧ ∃ found,
      @match_pattern elements_order (sales_patterns (Some stub_nlp))
        "item quantity" = Ok found
      ∧ "sales.orders" ∈ found.
Proof.
  split; [reflexivity|].
  destruct (@match_pattern_single_hop elements_order
              (sales_patterns (Some stub_nlp)) stub_nlp "item quantity"
              eq_refl) as (found & Hrun & Hiff & _).
  exists found. split; [exact Hrun|].
  apply Hiff. right. exists "sales.order_items". split.
  - apply (bool_decide_unpack _). vm_compute. exact I.
  - exists "sales", sales_foreign_keys, "order_items", [order_items_fk],
      order_items_fk.
    split; [apply list_elem_of_here|].
    split; [apply list_elem_of_further, list_elem_of_here|].
    split; [apply list_elem_of_here|]. split; reflexivity.
Defined.

(** On the chain order_items → orders → customers a query that matches
    [sales.order_items] alone returns [sales.orders] and not
    [sales.customers]. *)
Example match_pattern_chain :
  @match_pattern elements_order (sales_patterns (Some stub_nlp)) "item quantity"
  = Ok ["sales.order_items"; "sales.orders"].
Proof. vm_compute. reflexivity. Qed.

(** Scenario A of the specification: the composite pattern
    ["customer name"] of a table with [first_name] and [last_name] fires on
    ["show customer name list"], with pattern confidence 0.9. *)
Example match_pattern_scenario_A :
  ["customer"; "name"]
    ∈ table_patterns "sales" "customers"
        [("first_name", plain_column "varchar");
         ("last_name", plain_column "varchar")]
  ∧ @match_pattern elements_order (sales_patterns (Some stub_nlp))
      "show customer name list"
    = Ok ["sales.customers"]
  ∧ pattern_confidence ["sales.customers"] = 0.9.
Proof.
  split; [|split; [vm_compute; reflexivity | reflexivity]].
  apply (bool_decide_unpack _). vm_compute. exact I.
Qed.

(** ** Facts about the keyword fallback *)

Lemma fallback_table_spec (sd : schema_dict) (q schema : string)
    (table_list : list string) (acc : gset string) (table : string) :
  columns_listed sd →
  (schema, table_list) ∈ sd_tables sd → table ∈ table_list →
  ∃ acc', fallback_table sd q schema acc table = Ok acc'
          ∧ ∀ x, x ∈ acc'
                 ↔ x ∈ acc ∨ (x = full_table_name schema table
                              ∧ table_hit sd q schema table).
Proof.
  intros Hcols Hin Htable.
  destruct (Hcols schema table_list table Hin Htable) as (by_table & cols & Hs & Ht).
  unfold fallback_table. cbv zeta. rewrite Hs. simpl. rewrite Ht. simpl.
  eexists. split; [reflexivity|]. intros x.
  rewrite (elem_of_foldl_grow _
    (λ col : string * column_info,
       str_in (underscores_to_spaces (lower col.1)) q
       ∧ x = full_table_name schema table)).
  - unfold table_hit. split.
    + intros [Hx|([col_name info] & Hcol & Hstr & ->)].
      * destruct (str_in (lower table) q || str_in (lower schema) q) eqn:Hname;
          [|by left].
        apply elem_of_union in Hx as [->%elem_of_singleton|?]; [|by left].
        right. split; [done|]. by left.
      * right. split; [done|]. right. by exists by_table, cols, col_name, info.
    + intros [Hx|[-> [Hname|(by_table' & cols' & col_name & info
                              & Hs' & Ht' & Hcol & Hstr)]]].
      * left. destruct (_ || _); [apply elem_of_union; by right | done].
      * left. apply Is_true_true in Hname. rewrite Hname.
        apply elem_of_union. left. by apply elem_of_singleton.
      * right. rewrite Hs in Hs'. injection Hs' as <-.
        rewrite Ht in Ht'. injection Ht' as <-.
        by exists (col_name, info).
  - intros acc'' [col_name info]. simpl.
    destruct (str_in (underscores_to_spaces (lower col_name)) q) eqn:Hstr.
    + rewrite elem_of_union, elem_of_singleton. split.
      * intros [->|?]; [by right | by left].
      * intros [?|[_ ->]]; [by right | by left].
    + split; [by left|]. intros [?|[[] _]]; done.
Qed.

Lemma keyword_fallback_spec `{SetOrder} (self : PatternManager) (query : string) :
  columns_listed (pm_schema_dict self) →
  ∃ found,
    _keyword_fallback self query = Ok found
    ∧ ∀ t, t ∈ found ↔ keyword_hit (pm_schema_dict self) (lower query) t.
Proof.
  intros Hcols. unfold _keyword_fallback.
  set (sd := pm_schema_dict self) in *. set (q := lower query).
  destruct (for_each_grow
    (λ (matches : gset string) '(schema, table_list),
       for_each (fallback_table sd q schema) matches table_list)
    (λ (entry : string * list string) x,
       ∃ table, table ∈ entry.2 ∧ x = full_table_name entry.1 table
                ∧ table_hit sd q entry.1 table)
    (sd_tables sd) ∅) as (out & Hout & Hmem).
  - intros acc [schema table_list] Hin.
    destruct (for_each_grow (fallback_table sd q schema)
      (λ table x, x = full_table_name schema table ∧ table_hit sd q schema table)
      table_list acc) as (out & Hout & Hmem).
    + intros acc' table Htable. by eapply fallback_table_spec.
    + exists out. split; [exact Hout|]. intros x. rewrite Hmem. simpl.
      split; (intros [?|(table & ? & ? & ?)]; [by left|right; by exists table]).
  - cbv zeta. rewrite Hout. simpl. eexists. split; [reflexivity|].
    intros t. rewrite elem_of_set_iter, Hmem. unfold keyword_hit. split.
    + intros [Ht|([schema table_list] & Hin & table & ? & ? & ?)];
        [by apply not_elem_of_empty in Ht|].
      by exists schema, table_list, table.
    + intros (schema & table_list & table & ? & ? & ? & ?).
      right. exists (schema, table_list). split; [done|]. by exists table.
Qed.

(** A catalog from which the pattern index can be built lists the columns
    of every table: the precondition of the fallback is the one of the
    cold start. *)
Lemma for_each_ok_inv {A S : Type} (body : S → A → result S) (s : S)
    (l : list A) (out : S) :
  for_each body s l = Ok out → ∀ a, a ∈ l → ∃ s1 s2, body s1 a = Ok s2.
Proof.
  revert s. induction l as [|x l IH]; intros s Hrun a Ha.
  - by apply elem_of_nil in Ha.
  - simpl in Hrun. destruct (body s x) as [s'|e] eqn:Hbody; [|discriminate].
    apply elem_of_cons in Ha as [->|Ha]; [by exists s, s'|].
    by apply (IH s').
Qed.

Lemma initialize_patterns_columns_listed (sd : schema_dict)
    (generated : list (string * list (list string))) :
  _initialize_patterns sd = Ok generated → columns_listed sd.
Proof.
  intros Hrun schema table_list table Hin Htable.
  destruct (for_each_ok_inv _ _ _ _ Hrun _ Hin) as (p1 & p2 & Hschema).
  destruct (for_each_ok_inv _ _ _ _ Hschema _ Htable) as (q1 & q2 & Hbody).
  destruct (dict_index (sd_columns sd) schema) as [by_table|] eqn:Hs;
    [|discriminate].
  simpl in Hbody.
  destruct (dict_index by_table table) as [cols|] eqn:Ht; [|discriminate].
  by exists by_table, cols.
Qed.

(** [str_in] is the substring test. *)
Lemma prefix_spec (s1 s2 : string) :
  String.prefix s1 s2 = true ↔ ∃ rest, s2 = s1 +:+ rest.
Proof.
  revert s2. induction s1 as [|c s1 IH]; intros s2.
  - destruct s2; simpl; (split; [intros _; by eexists | done]).
  - destruct s2 as [|d s2]; simpl.
    + split; [done | intros [rest Hrest]; discriminate Hrest].
    + destruct (ascii_dec c d) as [->|Hne].
      * rewrite IH. split; intros [rest Hrest]; exists rest.
        -- by rewrite Hrest.
        -- by injection Hrest.
      * split; [done|]. intros [rest Hrest]. by injection Hrest as -> _.
Qed.

Lemma str_in_spec (needle hay : string) :
  str_in needle hay = true ↔ ∃ before rest, hay = before +:+ needle +:+ rest.
Proof.
  induction hay as [|c hay IH]; cbn [str_in].
  - rewrite orb_false_r, prefix_spec. split.
    + intros [rest Hrest]. by exists EmptyString, rest.
    + intros (before & rest & Heq). destruct before; [by exists rest|].
      discriminate Heq.
  - rewrite orb_true_iff, prefix_spec, IH. split.
    + intros [[rest Hrest]|(before & rest & ->)].
      * by exists EmptyString, rest.
      * by exists (String c before), rest.
    + intros (before & rest & Heq). destruct before as [|d before].
      * left. by exists rest.
      * right. injection Heq as -> ->. by exists before, rest.
Qed.

(** ** Degradation without the NLP model *)

Lemma for_each_raise_inv {A S : Type} (body : S → A → result S) (s : S)
    (l : list A) (e : exn) :
  for_each body s l = Raise e → ∃ s1 a, a ∈ l ∧ body s1 a = Raise e.
Proof.
  revert s. induction l as [|x l IH]; intros s Hrun; [discriminate|].
  simpl in Hrun. destruct (body s x) as [s'|e'] eqn:Hbody.
  - destruct (IH s' Hrun) as (s1 & a & Ha & Hraise).
    exists s1, a. split; [by apply list_elem_of_further | done].
  - injection Hrun as ->. exists s, x. split; [apply list_elem_of_here | done].
Qed.

Lemma keyword_fallback_ok_listed `{SetOrder} (self : PatternManager)
    (query : string) (found : list string) :
  _keyword_fallback self query = Ok found → columns_listed (pm_schema_dict self).
Proof.
  unfold _keyword_fallback. intros Hrun schema table_list table Hin Htable.
  destruct (for_each _ ∅ (sd_tables (pm_schema_dict self)))
    as [matched|e] eqn:Hloop; [|discriminate].
  destruct (for_each_ok_inv _ _ _ _ Hloop _ Hin) as (p1 & p2 & Hschema).
  destruct (for_each_ok_inv _ _ _ _ Hschema _ Htable) as (q1 & q2 & Hbody).
  unfold fallback_table in Hbody.
  destruct (dict_index (sd_columns (pm_schema_dict self)) schema)
    as [by_table|] eqn:Hs; [|discriminate].
  simpl in Hbody.
  destruct (dict_index by_table table) as [cols|] eqn:Ht; [|discriminate].
  by exists by_table, cols.
Qed.

Lemma keyword_fallback_raise `{SetOrder} (self : PatternManager)
    (query : string) (e : exn) :
  _keyword_fallback self query = Raise e → columns_missing (pm_schema_dict self) e.
Proof.
  unfold _keyword_fallback. intros Hrun.
  destruct (for_each _ ∅ (sd_tables (pm_schema_dict self)))
    as [matched|e'] eqn:Hloop; [discriminate|].
  simpl in Hrun. injection Hrun as ->.
  destruct (for_each_raise_inv _ _ _ _ Hloop)
    as (p1 & [schema table_list] & Hin & Hschema).
  destruct (for_each_raise_inv _ _ _ _ Hschema) as (q1 & table & Htable & Hbody).
  exists schema, table_list, table. split; [done|]. split; [done|].
  unfold fallback_table in Hbody.
  destruct (dict_index (sd_columns (pm_schema_dict self)) schema)
    as [by_table|e1] eqn:Hs.
  - right. exists by_table. split; [done|]. simpl in Hbody.
    destruct (dict_index by_table table) as [cols|e2] eqn:Ht; [discriminate|].
    simpl in Hbody. by injection Hbody as ->.
  - left. simpl in Hbody. by injection Hbody as ->.
Qed.

(** C9, as the code has it.  When the NLP model is not loaded the synonym
    and feedback lookups return nothing and cannot raise, but
    [match_pattern] does not always degrade.  It is [_keyword_fallback],
    which indexes [columns[schema][table]] for every table of the catalog
    without a guard: it returns, and then exactly the tables whose name,
    schema name or underscore-normalized column name occurs in the
    lowercased query, only on the catalogs that list the columns of every
    table they name.  On any other catalog it raises the [KeyError] of a
    table whose columns are missing, whatever the query is, and
    [identify_tables] passes the exception on to its caller. *)
Theorem nlp_unavailable_keyword_path `{SetOrder} (index : PatternManager)
    (names : NameMatchManager) (store : FeedbackManager)
    (ranker : TableIdentifier) (query : string) :
  pm_nlp index = None → nm_nlp names = None → fm_nlp store = None →
  ti_nlp ranker = None →
  match match_pattern index query with
  | Ok found =>
      columns_listed (pm_schema_dict index)
      ∧ ∀ t, t ∈ found ↔ keyword_hit (pm_schema_dict index) (lower query) t
  | Raise e =>
      columns_missing (pm_schema_dict index) e
      ∧ ∀ self, pattern_manager self = index →
                identify_tables self query = Raise e
  end
  ∧ ((∃ found, match_pattern index query = Ok found)
     ↔ columns_listed (pm_schema_dict index))
  ∧ get_matches names query = ∅
  ∧ get_similar_feedback store query = (None, store)
  ∧ _get_feedback_tables ranker query = [].
Proof.
  intros Hindex Hnames Hstore Hranker.
  split; [|split; [|split; [|split]]].
  - destruct (match_pattern index query) as [found|e] eqn:Hrun.
    + unfold match_pattern in Hrun. rewrite Hindex in Hrun.
      pose proof (keyword_fallback_ok_listed _ _ _ Hrun) as Hcols.
      split; [done|].
      destruct (keyword_fallback_spec index query Hcols) as (found' & Hrun' & Hhit).
      rewrite Hrun in Hrun'. by injection Hrun' as <-.
    + split.
      * unfold match_pattern in Hrun. rewrite Hindex in Hrun.
        by apply (keyword_fallback_raise index query).
      * intros self Hself. apply identify_tables_raise. by rewrite Hself.
  - unfold match_pattern. rewrite Hindex. split.
    + intros [found Hrun]. by apply (keyword_fallback_ok_listed index query found).
    + intros Hcols.
      destruct (keyword_fallback_spec index query Hcols) as (found & Hrun & _).
      by exists found.
  - unfold get_matches. by rewrite Hnames.
  - unfold get_similar_feedback. by rewrite Hstore.
  - unfold _get_feedback_tables. rewrite Hranker. by destruct (training_data ranker).
Qed.

Lemma sales_catalog_columns_listed : columns_listed sales_catalog.
Proof.
  intros schema table_list table Hin Htable.
  apply list_elem_of_singleton in Hin. injection Hin as -> ->.
  repeat (apply elem_of_cons in Htable as [->|Htable];
          [eexists _, _; split; reflexivity|]).
  by apply elem_of_nil in Htable.
Qed.

Lemma nlp_unavailable_keyword_path_witness :
  let index :=
    {| pm_schema_dict :=
         {| sd_tables := [("sales", ["customers"])];
            sd_columns := [("sales", [])];
            sd_foreign_keys := [("sales", [("customers", [])])] |};
       pm_nlp := None;
       patterns := [("sales.customers", [["customers"]; ["sales"]])];
       entity_mappings := default_entity_mappings |} in
  let ranker :=
    {| pattern_manager := index;
       name_match_manager := no_synonyms None;
       weights := ∅; training_data := []; ti_nlp := None |} in
  @match_pattern elements_order index "customers" = Raise (KeyError "customers")
  ∧ @identify_tables elements_order ranker "customers"
    = Raise (KeyError "customers")
  ∧ get_matches (no_synonyms None) "customers" = ∅
  ∧ @_get_feedback_tables elements_order ranker "customers" = [].
Proof.
  intros index ranker.
  assert (@match_pattern elements_order index "customers"
          = Raise (KeyError "customers")) as Hrun by reflexivity.
  destruct (@nlp_unavailable_keyword_path elements_order index
              (no_synonyms None) (empty_store None "feedback_export.json")
              ranker "customers" eq_refl eq_refl eq_refl eq_refl)
    as (Hmatch & _ & Hnames & _ & Hranker).
  rewrite Hrun in Hmatch. destruct Hmatch as [_ Hcaller].
  split; [exact Hrun|]. split; [exact (Hcaller ranker eq_refl)|].
  split; [exact Hnames | exact Hranker].
Defined.

(** The fallback indexes the columns of every catalog table: on a catalog
    that names a table without listing its columns it raises [KeyError]. *)
Example keyword_fallback_unlisted_columns :
  @match_pattern elements_order
    {| pm_schema_dict := {| sd_tables := [("sales", ["customers"])];
                            sd_columns := [("sales", [])];
                            sd_foreign_keys := [] |};
       pm_nlp := None; patterns := []; entity_mappings := [] |}
    "customers"
  = Raise (KeyError "customers").
Proof. reflexivity. Qed.

(** ** Facts about [update_matches] *)

Lemma update_term_nlp (table : string) (self : NameMatchManager) (term : string) :
  nm_nlp (update_term table self term) = nm_nlp self.
Proof. done. Qed.

Lemma update_term_learnt_id (table : string) (self : NameMatchManager)
    (term : string) :
  learnt self table term → update_term table self term = self.
Proof.
  intros [(table_synonyms & Hsyn & Hterm) (by_table & Hby & [score Hscore])].
  destruct self as [nlp syn mat]. unfold update_term. simpl in *.
  rewrite Hsyn, Hby. simpl. rewrite bool_decide_true by done.
  rewrite Hscore. simpl. f_equal.
  - by apply insert_id.
  - rewrite (insert_id by_table) by done. by apply insert_id.
Qed.

Lemma update_term_learns (table : string) (self : NameMatchManager)
    (term : string) :
  is_Some (synonyms self !! table) →
  learnt (update_term table self term) table term.
Proof.
  intros [table_synonyms Hsyn]. unfold learnt, update_term. simpl.
  rewrite Hsyn. simpl. split.
  - eexists. rewrite lookup_insert_eq. split; [done|].
    case_bool_decide; [done|]. apply elem_of_app. right. apply list_elem_of_here.
  - eexists. rewrite lookup_insert_eq. split; [done|].
    rewrite lookup_insert_eq. by eexists.
Qed.

Lemma update_term_keeps_synonyms (table : string) (self : NameMatchManager)
    (term : string) (table' : string) :
  is_Some (synonyms self !! table') →
  is_Some (synonyms (update_term table self term) !! table').
Proof.
  intros Hsome. unfold update_term. simpl. rewrite lookup_insert.
  case_decide; [by eexists | done].
Qed.

Lemma update_term_keeps_learnt (table : string) (self : NameMatchManager)
    (term : string) (table' term' : string) :
  learnt self table' term' → learnt (update_term table self term) table' term'.
Proof.
  intros [(table_synonyms & Hsyn & Hterm) (by_table & Hby & Hscore)].
  unfold learnt, update_term. simpl. split.
  - rewrite lookup_insert. case_decide as Htable; [|by eexists].
    subst table'. rewrite Hsyn. simpl. eexists. split; [done|].
    case_bool_decide; [done|]. apply elem_of_app. by left.
  - rewrite lookup_insert. case_decide as Hterm'; [|by eexists].
    subst term'. rewrite Hby. simpl. eexists. split; [done|].
    rewrite lookup_insert. case_decide; [by eexists | done].
Qed.

Lemma foldl_update_term_keeps (table : string) (terms : list string)
    (self : NameMatchManager) :
  (∀ table', is_Some (synonyms self !! table') →
     is_Some (synonyms (foldl (update_term table) self terms) !! table'))
  ∧ (∀ table' term', learnt self table' term' →
       learnt (foldl (update_term table) self terms) table' term')
  ∧ nm_nlp (foldl (update_term table) self terms) = nm_nlp self.
Proof.
  revert self. induction terms as [|term terms IH]; intros self; simpl; [done|].
  destruct (IH (update_term table self term)) as (Hsyn & Hlearnt & Hnlp).
  split; [|split].
  - intros table' Hsome. by apply Hsyn, update_term_keeps_synonyms.
  - intros table' term' Hl. by apply Hlearnt, update_term_keeps_learnt.
  - by rewrite Hnlp.
Qed.

Lemma foldl_update_term_learns (table : string) (terms : list string)
    (self : NameMatchManager) (term : string) :
  is_Some (synonyms self !! table) → term ∈ terms →
  learnt (foldl (update_term table) self terms) table term.
Proof.
  revert self. induction terms as [|x terms IH]; intros self Hsome Hterm; simpl.
  - by apply elem_of_nil in Hterm.
  - apply elem_of_cons in Hterm as [->|Hterm].
    + apply foldl_update_term_keeps. by apply update_term_learns.
    + apply IH; [|done]. by apply update_term_keeps_synonyms.
Qed.

Lemma foldl_update_term_id (table : string) (terms : list string)
    (self : NameMatchManager) :
  (∀ term, term ∈ terms → learnt self table term) →
  foldl (update_term table) self terms = self.
Proof.
  induction terms as [|term terms IH]; intros Hlearnt; simpl; [done|].
  rewrite update_term_learnt_id by (apply Hlearnt, list_elem_of_here).
  apply IH. intros term' Hterm'. by apply Hlearnt, list_elem_of_further.
Qed.

Lemma update_table_keeps (terms : list string) (self : NameMatchManager)
    (table : string) :
  (∀ table', settled terms self table' →
     settled terms (update_table terms self table) table')
  ∧ nm_nlp (update_table terms self table) = nm_nlp self.
Proof.
  unfold update_table.
  destruct (synonyms self !! table) as [table_synonyms|] eqn:Hsyn.
  - destruct (foldl_update_term_keeps table terms self) as (Hs & Hl & Hnlp).
    split; [|done]. intros table' [Hsome Hlearnt]. split; [by apply Hs|].
    intros term Hterm. by apply Hl, Hlearnt.
  - set (self' := {| nm_nlp := nm_nlp self;
                     synonyms := <[table := []]> (synonyms self);
                     matches := matches self |}).
    destruct (foldl_update_term_keeps table terms self') as (Hs & Hl & Hnlp).
    split; [|done]. intros table' [Hsome Hlearnt].
    assert (table' ≠ table) as Hne.
    { intros ->. rewrite Hsyn in Hsome. by destruct Hsome. }
    split.
    + apply Hs. unfold self'. simpl. by rewrite lookup_insert_ne.
    + intros term Hterm. apply Hl.
      destruct (Hlearnt term Hterm) as [(ts & Hts & Hin) Hmat].
      split; [|done]. exists ts. unfold self'. simpl.
      by rewrite lookup_insert_ne.
Qed.

Lemma update_table_settles (terms : list string) (self : NameMatchManager)
    (table : string) :
  settled terms (update_table terms self table) table.
Proof.
  unfold update_table.
  set (self' := match synonyms self !! table with
                | Some _ => self
                | None => _
                end).
  assert (is_Some (synonyms self' !! table)) as Hsome.
  { unfold self'. destruct (synonyms self !! table) eqn:Hsyn; [by eexists|].
    simpl. rewrite lookup_insert_eq. by eexists. }
  split.
  - by apply foldl_update_term_keeps.
  - intros term Hterm. by apply foldl_update_term_learns.
Qed.

Lemma update_table_settled_id (terms : list string) (self : NameMatchManager)
    (table : string) :
  settled terms self table → update_table terms self table = self.
Proof.
  intros [[table_synonyms Hsyn] Hlearnt]. unfold update_table. rewrite Hsyn.
  by apply foldl_update_term_id.
Qed.

Lemma foldl_update_table_keeps (terms tables : list string)
    (self : NameMatchManager) :
  (∀ table', settled terms self table' →
     settled terms (foldl (update_table terms) self tables) table')
  ∧ nm_nlp (foldl (update_table terms) self tables) = nm_nlp self.
Proof.
  revert self. induction tables as [|table tables IH]; intros self; simpl; [done|].
  destruct (IH (update_table terms self table)) as [Hkeep Hnlp].
  destruct (update_table_keeps terms self table) as [Hkeep1 Hnlp1].
  split; [|by rewrite Hnlp].
  intros table' Hs. by apply Hkeep, Hkeep1.
Qed.

Lemma foldl_update_table_settles (terms tables : list string)
    (self : NameMatchManager) (table : string) :
  table ∈ tables → settled terms (foldl (update_table terms) self tables) table.
Proof.
  revert self. induction tables as [|x tables IH]; intros self Htable; simpl.
  - by apply elem_of_nil in Htable.
  - apply elem_of_cons in Htable as [->|Htable]; [|by apply IH].
    apply foldl_update_table_keeps, update_table_settles.
Qed.

Lemma foldl_update_table_id (terms tables : list string)
    (self : NameMatchManager) :
  (∀ table, table ∈ tables → settled terms self table) →
  foldl (update_table terms) self tables = self.
Proof.
  induction tables as [|table tables IH]; intros Hs; simpl; [done|].
  rewrite update_table_settled_id by (apply Hs, list_elem_of_here).
  apply IH. intros table' Htable'. by apply Hs, list_elem_of_further.
Qed.

(** ** The synonym index: confirming twice changes nothing more *)

(** C7. [update_matches] is idempotent: applying it twice with the same
    query and tables leaves the same synonym sets and the same match graph
    as applying it once. *)
Theorem update_matches_idempotent (query : string) (tables : list string)
    (self : NameMatchManager) :
  update_matches query tables (update_matches query tables self)
  = update_matches query tables self.
Proof.
  unfold update_matches at 2 3.
  destruct (nm_nlp self) as [nlp|] eqn:Hnlp.
  - unfold update_matches.
    rewrite (proj2 (foldl_update_table_keeps _ tables self)), Hnlp.
    apply foldl_update_table_id. intros table Htable.
    by apply foldl_update_table_settles.
  - unfold update_matches. by rewrite Hnlp.
Qed.

(** Scenario B of the specification: after confirming
    ["find customer info"] for [sales.customers], the query
    ["customer info"] scores the table at least 0.9. *)
Example update_then_get_matches :
  let names := update_matches "find customer info" ["sales.customers"]
                 (no_synonyms (Some stub_nlp)) in
  synonyms names !! "sales.customers" = Some ["find"; "customer"; "info"]
  ∧ ∃ score, get_matches names "customer info" !! "sales.customers" = Some score
             ∧ 0.9 <= score.
Proof.
  split; [vm_compute; reflexivity|].
  exists 2.700. split; [vm_compute; reflexivity | lra].
Qed.

(** ** The feedback store: repeated stores *)

Lemma get_query_count_store (query : string) (tables : list string) (weight : Q)
    (self : FeedbackManager) :
  get_query_count (store_feedback query tables weight self) query
  = (get_query_count self query + 1)%Z.
Proof.
  unfold get_query_count at 1. unfold store_feedback, set_store. simpl.
  by rewrite lookup_insert_eq.
Qed.

(** C3, evaluated on the code. Storing the same query twice raises its
    usage count by 2, and leaves two rows for it in the [feedback] table,
    one per call: the table declares no key on [query], so
    [INSERT OR REPLACE] replaces nothing. *)
Theorem store_feedback_twice_rows (query : string) (tables1 tables2 : list string)
    (weight1 weight2 : Q) (self : FeedbackManager) :
  let stored := store_feedback query tables2 weight2
                  (store_feedback query tables1 weight1 self) in
  get_query_count stored query = (get_query_count self query + 2)%Z
  ∧ feedback stored
    = feedback self
      ++ [{| fb_query := query; fb_tables := tables1; fb_weight := weight1 |};
          {| fb_query := query; fb_tables := tables2; fb_weight := weight2 |}].
Proof.
  intros stored. unfold stored. split.
  - rewrite !get_query_count_store. lia.
  - simpl. by rewrite <- app_assoc.
Qed.

(** Scenario D of the specification on a fresh store: the count is 2, and
    the table holds two rows for ["q1"]. *)
Example store_feedback_scenario_D :
  let stored := store_feedback "q1" ["a.b"] 1
                  (store_feedback "q1" ["a.b"] 1 (empty_store None "export.json")) in
  get_query_count stored "q1" = 2%Z
  ∧ length (filter (λ row, fb_query row = "q1") (feedback stored)) = 2%nat.
Proof. split; reflexivity. Qed.

(** ** The feedback store: export and import *)






(** * Further properties of the code *)

(** ** The weight ledger: the decay loop, the tracked tables *)

Lemma dom_foldl_update (f : Q → Q) (tables : list string)
    (weights : gmap string Q) :
  dom (foldl (λ weights table, <[table := f (weight_of weights table)]> weights)
             weights tables)
  = dom weights ∪ list_to_set tables.
Proof.
  revert weights. induction tables as [|x xs IH]; intros weights; simpl.
  - by rewrite union_empty_r_L.
  - rewrite IH, dom_insert_L. apply set_eq. intros t.
    rewrite !elem_of_union, elem_of_singleton. tauto.
Qed.

Lemma lookup_adjust_weights_unknown `{SetOrder} (selected_tables all_tables : list string)
    (weights : gmap string Q) (t : string) :
  t ∉ selected_tables → t ∉ all_tables →
  adjust_weights selected_tables all_tables weights !! t
  = (λ w, py_max 0.5 (w * 0.95)) <$> weights !! t.
Proof.
  intros Hsel Hall. unfold adjust_weights.
  set (weights1 := foldl _ weights selected_tables).
  set (weights2 := foldl _ weights1 _).
  assert (weights2 !! t = weights !! t) as Hsame.
  { unfold weights2.
    rewrite (lookup_foldl_update_ne (λ w, py_max 0.5 (w * 0.85))).
    2:{ rewrite elem_of_set_iter, elem_of_difference, !elem_of_list_to_set.
        tauto. }
    unfold weights1. by rewrite (lookup_foldl_update_ne (λ w, w + 0.3)). }
  rewrite (lookup_foldl_update (λ w, py_max 0.5 (w * 0.95)))
    by apply NoDup_set_iter.
  destruct (weights !! t) as [w|] eqn:Hw; simpl.
  - rewrite decide_True.
    + unfold weight_of. by rewrite Hsame.
    + rewrite elem_of_set_iter, elem_of_difference, elem_of_list_to_set.
      split; [|done]. apply elem_of_dom. rewrite Hsame. by eexists.
  - rewrite decide_False; [done|].
    rewrite elem_of_set_iter, elem_of_difference. intros [Hdom _].
    apply elem_of_dom in Hdom as [w Hw']. by rewrite Hsame in Hw'.
Qed.

(** X1. A table that is neither selected nor known is decayed when the
    ledger tracks it, to [max(0.5, weight × 0.95)], and stays untracked
    otherwise. *)
Theorem adjust_weights_unknown `{SetOrder} (selected_tables all_tables : list string)
    (weights : gmap string Q) (t : string) :
  t ∉ selected_tables → t ∉ all_tables →
  adjust_weights selected_tables all_tables weights !! t
  = (λ w, py_max 0.5 (w * 0.95)) <$> weights !! t.
Proof. exact (lookup_adjust_weights_unknown selected_tables all_tables weights t). Qed.

Lemma adjust_weights_unknown_witness :
  let weights := _load_weights None ["sales.customers"; "sales.orders"] in
  ("sales.orders" ∉ ["sales.customers"])
  ∧ @adjust_weights elements_order ["sales.customers"] ["sales.customers"]
      weights !! "sales.orders" = Some 0.95
  ∧ @adjust_weights elements_order ["sales.customers"] ["sales.customers"]
      weights !! "sales.staff" = None.
Proof.
  intros weights.
  assert ("sales.orders" ∉ ["sales.customers"]) as Hne.
  { intros Hin. apply list_elem_of_singleton in Hin. discriminate Hin. }
  assert ("sales.staff" ∉ ["sales.customers"]) as Hne'.
  { intros Hin. apply list_elem_of_singleton in Hin. discriminate Hin. }
  split; [exact Hne|]. split.
  - exact (@adjust_weights_unknown elements_order _ _ weights _ Hne Hne).
  - exact (@adjust_weights_unknown elements_order _ _ weights _ Hne' Hne').
Defined.

(** X2. [adjust_weights] never drops a table: afterwards the ledger tracks
    exactly the tables it tracked before, the selected ones and the known
    ones. *)
Theorem adjust_weights_dom `{SetOrder} (selected_tables all_tables : list string)
    (weights : gmap string Q) :
  dom (adjust_weights selected_tables all_tables weights)
  = dom weights ∪ list_to_set selected_tables ∪ list_to_set all_tables.
Proof.
  unfold adjust_weights. cbv zeta.
  rewrite (dom_foldl_update (λ w, py_max 0.5 (w * 0.95))).
  rewrite (dom_foldl_update (λ w, py_max 0.5 (w * 0.85))).
  rewrite (dom_foldl_update (λ w, w + 0.3)).
  rewrite !list_to_set_set_iter.
  apply set_eq. intros t.
  rewrite !elem_of_union, !elem_of_difference, !elem_of_union,
    !elem_of_difference, !elem_of_list_to_set.
  destruct (decide (t ∈ selected_tables)); tauto.
Qed.

(** X3. Only selection raises a weight: over a ledger that respects the
    floor, a table that is not selected never ends with a larger weight
    than it had (1.0 when untracked), and the floor 0.5 is kept. *)
Theorem adjust_weights_not_selected `{SetOrder}
    (selected_tables all_tables : list string) (weights : gmap string Q)
    (t : string) :
  weights_floor weights → t ∉ selected_tables →
  0.5 <= weight_of (adjust_weights selected_tables all_tables weights) t
  ∧ weight_of (adjust_weights selected_tables all_tables weights) t
    <= weight_of weights t.
Proof.
  intros Hfl Hsel.
  pose proof (weight_of_floor weights t Hfl) as Hw.
  destruct (decide (t ∈ all_tables)) as [Hall|Hall].
  - unfold weight_of at 1 2. rewrite adjust_weights_known by done. simpl.
    unfold py_max. destruct (Qlt_le_dec _ _); lra.
  - unfold weight_of at 1 2. rewrite lookup_adjust_weights_unknown by done.
    unfold weight_of in *.
    destruct (weights !! t) as [w|]; simpl in *; [|lra].
    unfold py_max. destruct (Qlt_le_dec _ _); lra.
Qed.

Lemma adjust_weights_not_selected_witness :
  let weights := _load_weights None ["sales.customers"; "sales.orders"] in
  let adjusted := @adjust_weights elements_order ["sales.customers"]
                    ["sales.customers"; "sales.orders"] weights in
  weights_floor weights ∧ ("sales.orders" ∉ ["sales.customers"])
  ∧ 0.5 <= weight_of adjusted "sales.orders"
  ∧ weight_of adjusted "sales.orders" <= weight_of weights "sales.orders".
Proof.
  intros weights adjusted.
  assert ("sales.orders" ∉ ["sales.customers"]) as Hne.
  { intros Hin. apply list_elem_of_singleton in Hin. discriminate Hin. }
  split; [apply weights_floor_load|]. split; [exact Hne|].
  exact (@adjust_weights_not_selected elements_order _ _ weights _
           (weights_floor_load _) Hne).
Defined.

(** ** The ranker: empty answers, truncation, damping *)

Lemma sorted_desc_length (key : string → Q) (l : list string) :
  length (sorted_desc key l) = length l.
Proof. by rewrite sorted_desc_perm. Qed.

Lemma identify_tables_nil_iff `{SetOrder} (self : TableIdentifier)
    (query : string) (pattern_tables tables : list string) (confidence : Q) :
  match_pattern (pattern_manager self) query = Ok pattern_tables →
  identify_tables self query = Ok (tables, confidence) →
  (tables = []
   ↔ working_set pattern_tables (get_matches (name_match_manager self) query)
       (_get_feedback_tables self query) = ∅)
  ∧ (tables = [] → confidence = 0).
Proof.
  intros Hpat. rewrite (identify_tables_ok _ _ pattern_tables) by done.
  cbv zeta. set (ws := working_set _ _ _).
  destruct (set_iter ws) as [|x xs] eqn:Hiter.
  - intros [= <- <-]. split; [|done]. split; [|done].
    intros _. by apply set_iter_nil.
  - intros Heq.
    assert (tables = take 5 (sorted_desc (weight_of (weights self)) (x :: xs)))
      as -> by congruence.
    assert (take 5 (sorted_desc (weight_of (weights self)) (x :: xs)) ≠ [])
      as Hne.
    { intros Hnil. apply (f_equal length) in Hnil.
      rewrite length_take, sorted_desc_length in Hnil. simpl in Hnil. lia. }
    split; [|done]. split; [done|].
    intros Hempty. apply set_iter_nil in Hempty. congruence.
Qed.

(** X4. [identify_tables] answers with an empty list exactly when the
    working set is empty, and the confidence is then 0.0: the signal for
    the caller to fall back to manual selection. *)
Theorem identify_tables_empty_iff `{SetOrder} (self : TableIdentifier)
    (query : string) (pattern_tables tables : list string) (confidence : Q) :
  match_pattern (pattern_manager self) query = Ok pattern_tables →
  identify_tables self query = Ok (tables, confidence) →
  (tables = []
   ↔ working_set pattern_tables (get_matches (name_match_manager self) query)
       (_get_feedback_tables self query) = ∅)
  ∧ (tables = [] → confidence = 0).
Proof. exact (identify_tables_nil_iff self query pattern_tables tables confidence). Qed.

Lemma identify_tables_empty_iff_witness :
  let self := sales_identifier (no_synonyms (Some stub_nlp))
                (_load_weights None (get_all_tables sales_catalog)) in
  @match_pattern elements_order (pattern_manager self) "tell me a joke" = Ok []
  ∧ @identify_tables elements_order self "tell me a joke" = Ok ([], 0)
  ∧ working_set [] (get_matches (name_match_manager self) "tell me a joke")
      (@_get_feedback_tables elements_order self "tell me a joke") = ∅.
Proof.
  intros self.
  assert (@match_pattern elements_order (pattern_manager self) "tell me a joke"
          = Ok []) as Hpat by (vm_compute; reflexivity).
  assert (@identify_tables elements_order self "tell me a joke" = Ok ([], 0))
    as Hrun by (vm_compute; reflexivity).
  split; [exact Hpat|]. split; [exact Hrun|].
  by apply (@identify_tables_empty_iff elements_order self "tell me a joke"
              [] [] 0 Hpat Hrun).
Defined.

Lemma identify_tables_top `{SetOrder} (self : TableIdentifier)
    (query : string) (pattern_tables tables : list string) (confidence : Q) :
  match_pattern (pattern_manager self) query = Ok pattern_tables →
  identify_tables self query = Ok (tables, confidence) →
  let ws := working_set pattern_tables
              (get_matches (name_match_manager self) query)
              (_get_feedback_tables self query) in
  NoDup tables
  ∧ (∀ t, t ∈ tables → t ∈ ws)
  ∧ (∀ t r, t ∈ ws → t ∉ tables → r ∈ tables →
       weight_of (weights self) t <= weight_of (weights self) r).
Proof.
  intros Hpat. rewrite (identify_tables_ok _ _ pattern_tables) by done.
  cbv zeta. set (ws := working_set _ _ _).
  destruct (set_iter ws) as [|x xs] eqn:Hiter.
  { intros [= <- <-]. split; [apply NoDup_nil_2|].
    split; intros t; [|intros r _ _]; by intros ?%elem_of_nil. }
  rewrite <- Hiter. intros Heq.
  set (ranked := sorted_desc (weight_of (weights self)) (set_iter ws)) in *.
  assert (tables = take 5 ranked) as -> by congruence.
  assert (ranked ≡ₚ set_iter ws) as Hperm by apply sorted_desc_perm.
  assert (NoDup ranked) as Hnd by (rewrite Hperm; apply NoDup_set_iter).
  assert (StronglySorted
            (λ a b, weight_of (weights self) b <= weight_of (weights self) a)
            (take 5 ranked ++ drop 5 ranked)) as Hsorted.
  { rewrite take_drop. apply sorted_desc_sorted. }
  split; [|split].
  - rewrite <- (take_drop 5 ranked) in Hnd. by apply NoDup_app in Hnd as [? _].
  - intros t Ht. apply elem_of_set_iter. rewrite <- Hperm.
    rewrite <- (take_drop 5 ranked). apply elem_of_app. by left.
  - intros t r Ht Hout Hr.
    assert (t ∈ drop 5 ranked) as Hdrop.
    { apply elem_of_set_iter in Ht. rewrite <- Hperm in Ht.
      rewrite <- (take_drop 5 ranked) in Ht.
      apply elem_of_app in Ht as [?|?]; done. }
    exact (StronglySorted_app_1_elem_of _ _ _ r t Hsorted Hr Hdrop).
Qed.

(** X5. The answer of [identify_tables] has no repetition, lies within the
    working set, and the truncation to five keeps the heaviest: a table of
    the working set that is left out weighs no more than any table that is
    returned. *)
Theorem identify_tables_keeps_heaviest `{SetOrder} (self : TableIdentifier)
    (query : string) (pattern_tables tables : list string) (confidence : Q) :
  match_pattern (pattern_manager self) query = Ok pattern_tables →
  identify_tables self query = Ok (tables, confidence) →
  let ws := working_set pattern_tables
              (get_matches (name_match_manager self) query)
              (_get_feedback_tables self query) in
  NoDup tables
  ∧ (∀ t, t ∈ tables → t ∈ ws)
  ∧ (∀ t r, t ∈ ws → t ∉ tables → r ∈ tables →
       weight_of (weights self) t <= weight_of (weights self) r).
Proof. exact (identify_tables_top self query pattern_tables tables confidence). Qed.

Lemma identify_tables_keeps_heaviest_witness :
  let ledger : gmap string Q :=
    @adjust_weights elements_order ["sales.customers"]
      (get_all_tables sales_catalog)
      (_load_weights None (get_all_tables sales_catalog)) in
  let self := sales_identifier (no_synonyms (Some stub_nlp)) ledger in
  @identify_tables elements_order self "show orders"
  = Ok (["sales.customers"; "sales.order_items"; "sales.orders"],
        2700000 # 3000000)
  ∧ NoDup ["sales.customers"; "sales.order_items"; "sales.orders"].
Proof.
  intros ledger self.
  assert (@identify_tables elements_order self "show orders"
          = Ok (["sales.customers"; "sales.order_items"; "sales.orders"],
                2700000 # 3000000)) as Hrun by (vm_compute; reflexivity).
  split; [exact Hrun|].
  refine (proj1 (@identify_tables_keeps_heaviest elements_order self
                   "show orders"
                   ["sales.order_items"; "sales.orders"; "sales.customers"]
                   _ _ _ Hrun)).
  vm_compute. reflexivity.
Defined.

Lemma foldl_Qplus_floor (c a : Q) (l : list Q) :
  (∀ x, x ∈ l → c <= x) →
  a + c * inject_Z (Z.of_nat (length l)) <= foldl Qplus a l.
Proof.
  revert a. induction l as [|x xs IH]; intros a Hl.
  - simpl foldl. simpl length. change (inject_Z (Z.of_nat 0)) with 0.
    rewrite Qmult_0_r, Qplus_0_r. apply Qle_refl.
  - assert (c <= x) by (apply Hl, elem_of_cons; auto).
    assert (a + x + c * inject_Z (Z.of_nat (length xs))
            <= foldl Qplus (a + x) xs) as Hrest.
    { apply IH. intros y Hy. apply Hl, elem_of_cons; auto. }
    simpl foldl. simpl length. rewrite Nat2Z.inj_succ. unfold Z.succ.
    rewrite inject_Z_plus. change (inject_Z 1) with 1. lra.
Qed.

Lemma weight_score_floor (self : TableIdentifier) (tables : list string) :
  weights_floor (weights self) → tables ≠ [] →
  0.5 <= _calculate_weight_score self tables.
Proof.
  intros Hfl Hne. unfold _calculate_weight_score.
  destruct tables as [|t ts]; [done|].
  apply py_min_lower; [|lra].
  apply Qle_shift_div_l.
  - change 0 with (inject_Z 0). rewrite <- Zlt_Qlt. simpl. lia.
  - pose proof (foldl_Qplus_floor 0.5 0 (weight_of (weights self) <$> t :: ts))
      as Hsum.
    rewrite length_fmap in Hsum.
    assert (∀ x, x ∈ weight_of (weights self) <$> t :: ts → 0.5 <= x) as Hall.
    { intros x (t' & -> & _)%list_elem_of_fmap. by apply weight_of_floor. }
    specialize (Hsum Hall). lra.
Qed.

Lemma identify_tables_damped `{SetOrder} (self : TableIdentifier)
    (query : string) (pattern_tables tables : list string) (confidence : Q) :
  weights_floor (weights self) →
  match_pattern (pattern_manager self) query = Ok pattern_tables →
  identify_tables self query = Ok (tables, confidence) →
  tables ≠ [] →
  let strongest :=
    py_max_list (pattern_confidence pattern_tables)
      [name_confidence (get_matches (name_match_manager self) query);
       feedback_confidence (_get_feedback_tables self query)] in
  0.5 * strongest <= confidence ∧ confidence <= strongest.
Proof.
  intros Hfl Hpat. rewrite (identify_tables_ok _ _ pattern_tables) by done.
  cbv zeta. set (ws := working_set _ _ _).
  destruct (set_iter ws) as [|x xs] eqn:Hiter; [by intros [= <- <-]|].
  set (score := _calculate_weight_score self (x :: xs)).
  set (m := py_max_list _ _).
  intros Heq _. assert (confidence = m * score) as -> by congruence.
  assert (0.5 <= score) by (by apply weight_score_floor).
  assert (score <= 1) by apply weight_score_upper.
  assert (0 <= m).
  { pose proof (py_max_list_ge_first (pattern_confidence pattern_tables)
      [name_confidence (get_matches (name_match_manager self) query);
       feedback_confidence (_get_feedback_tables self query)]).
    pose proof (pattern_confidence_range pattern_tables). unfold m. lra. }
  split; nra.
Qed.

(** X6. The ledger only damps, and by at most one half: over a ledger that
    respects the floor, the confidence of a non-empty answer lies between
    half the strongest of the three signals and that signal. *)
Theorem identify_tables_damping `{SetOrder} (self : TableIdentifier)
    (query : string) (pattern_tables tables : list string) (confidence : Q) :
  weights_floor (weights self) →
  match_pattern (pattern_manager self) query = Ok pattern_tables →
  identify_tables self query = Ok (tables, confidence) →
  tables ≠ [] →
  let strongest :=
    py_max_list (pattern_confidence pattern_tables)
      [name_confidence (get_matches (name_match_manager self) query);
       feedback_confidence (_get_feedback_tables self query)] in
  0.5 * strongest <= confidence ∧ confidence <= strongest.
Proof. exact (identify_tables_damped self query pattern_tables tables confidence). Qed.

Lemma identify_tables_damping_witness :
  let ledger : gmap string Q :=
    @adjust_many elements_order
      [([], ["sales.customers"]); ([], ["sales.customers"])]
      (_load_weights None (get_all_tables sales_catalog)) in
  let self := sales_identifier (no_synonyms (Some stub_nlp)) ledger in
  @identify_tables elements_order self "show customer name list"
  = Ok (["sales.customers"], 0.9 * 0.7225)
  ∧ 0.5 * 0.9 <= 0.9 * 0.7225 ∧ 0.9 * 0.7225 <= 0.9.
Proof.
  intros ledger self.
  assert (@identify_tables elements_order self "show customer name list"
          = Ok (["sales.customers"], 0.9 * 0.7225)) as Hrun
    by (vm_compute; reflexivity).
  split; [exact Hrun|].
  refine (@identify_tables_damping elements_order self
            "show customer name list" ["sales.customers"] _ _ _ _ Hrun _).
  - apply adjust_many_floor, weights_floor_load.
  - vm_compute. reflexivity.
  - discriminate.
Defined.

(** ** The ranker: the feedback signal *)





(** ** The synonym index: what confirming records *)

Lemma score_at_update_term (table : string) (self : NameMatchManager)
    (term term' table' : string) :
  score_at (update_term table self term) term' table'
  = if bool_decide (term' = term ∧ table' = table)
    then Some (default 0.9 (score_at self term table))
    else score_at self term' table'.
Proof.
  unfold score_at, update_term. simpl.
  destruct (decide (term' = term)) as [->|Hterm].
  - rewrite lookup_insert_eq. simpl.
    destruct (decide (table' = table)) as [->|Htable].
    + rewrite bool_decide_true by done. rewrite lookup_insert_eq.
      by destruct (matches self !! term).
    + rewrite bool_decide_false by tauto. rewrite lookup_insert_ne by done.
      by destruct (matches self !! term).
  - rewrite bool_decide_false by tauto. by rewrite lookup_insert_ne.
Qed.

Lemma score_at_foldl_update_term (table : string) (terms : list string)
    (self : NameMatchManager) (term' table' : string) :
  score_at (foldl (update_term table) self terms) term' table'
  = match score_at self term' table' with
    | Some score => Some score
    | None => if bool_decide (term' ∈ terms ∧ table' = table)
              then Some 0.9 else None
    end.
Proof.
  revert self. induction terms as [|term terms IH]; intros self; simpl.
  - by destruct (score_at self term' table').
  - rewrite IH, score_at_update_term.
    destruct (decide (term' = term ∧ table' = table)) as [[Hterm Htable]|Hhere].
    + subst term' table'.
      rewrite (bool_decide_true (term = term ∧ table = table)) by done.
      rewrite (bool_decide_true (term ∈ term :: terms ∧ table = table))
        by (split; [apply list_elem_of_here | done]).
      by destruct (score_at self term table).
    + rewrite (bool_decide_false (term' = term ∧ table' = table)) by done.
      destruct (score_at self term' table') as [score|]; [done|].
      rewrite (bool_decide_ext (term' ∈ term :: terms ∧ table' = table)
                 (term' ∈ terms ∧ table' = table)); [done|].
      rewrite elem_of_cons. split; [|tauto].
      intros [[->|?] ->]; tauto.
Qed.

Lemma score_at_update_table (terms : list string) (self : NameMatchManager)
    (table term' table' : string) :
  score_at (update_table terms self table) term' table'
  = match score_at self term' table' with
    | Some score => Some score
    | None => if bool_decide (term' ∈ terms ∧ table' = table)
              then Some 0.9 else None
    end.
Proof.
  unfold update_table. rewrite score_at_foldl_update_term.
  by destruct (synonyms self !! table).
Qed.

Lemma score_at_foldl_update_table (terms tables : list string)
    (self : NameMatchManager) (term' table' : string) :
  score_at (foldl (update_table terms) self tables) term' table'
  = match score_at self term' table' with
    | Some score => Some score
    | None => if bool_decide (term' ∈ terms ∧ table' ∈ tables)
              then Some 0.9 else None
    end.
Proof.
  revert self. induction tables as [|table tables IH]; intros self; simpl.
  - destruct (score_at self term' table'); [done|]. try done.
    case_bool_decide as Hd; [|done]. destruct Hd as [_ Hin].
    by apply elem_of_nil in Hin.
  - rewrite IH, score_at_update_table.
    destruct (score_at self term' table') as [score|]; [done|].
    destruct (decide (term' ∈ terms ∧ table' = table)) as [[Hterm Htable]|Hhere].
    + subst table'.
      rewrite (bool_decide_true (term' ∈ terms ∧ table = table)) by done.
      rewrite (bool_decide_true (term' ∈ terms ∧ table ∈ table :: tables))
        by (split; [done | apply list_elem_of_here]).
      done.
    + rewrite (bool_decide_false (term' ∈ terms ∧ table' = table)) by done.
      rewrite (bool_decide_ext (term' ∈ terms ∧ table' ∈ table :: tables)
                 (term' ∈ terms ∧ table' ∈ tables)); [done|].
      rewrite elem_of_cons. split; [|tauto].
      intros [? [->|?]]; tauto.
Qed.

Lemma score_at_update_matches (query : string) (tables : list string)
    (self : NameMatchManager) (nlp : NLP) (term table : string) :
  nm_nlp self = Some nlp →
  score_at (update_matches query tables self) term table
  = match score_at self term table with
    | Some score => Some score
    | None => if bool_decide (term ∈ lemmas nlp (lower query) ∧ table ∈ tables)
              then Some 0.9 else None
    end.
Proof.
  intros Hnlp. unfold update_matches. rewrite Hnlp.
  apply score_at_foldl_update_table.
Qed.

(** X8. [update_matches] never overwrites a score of the match graph: a
    pair (lemma, table) that already has a score keeps it, whatever its
    value; a pair of a query lemma and a confirmed table that has none gets
    0.9; every other pair stays absent. *)
Theorem update_matches_graph (query : string) (tables : list string)
    (self : NameMatchManager) (nlp : NLP) (term table : string) :
  nm_nlp self = Some nlp →
  score_at (update_matches query tables self) term table
  = match score_at self term table with
    | Some score => Some score
    | None => if bool_decide (term ∈ lemmas nlp (lower query) ∧ table ∈ tables)
              then Some 0.9 else None
    end.
Proof. exact (score_at_update_matches query tables self nlp term table). Qed.

Lemma update_matches_graph_witness :
  let learnt_low :=
    {| nm_nlp := Some stub_nlp; synonyms := ∅;
       matches := {["customer" := {["sales.customers" := 0.2]}]} |} in
  nm_nlp learnt_low = Some stub_nlp
  ∧ score_at (update_matches "customer info" ["sales.customers"] learnt_low)
      "customer" "sales.customers" = Some 0.2
  ∧ score_at (update_matches "customer info" ["sales.customers"] learnt_low)
      "info" "sales.customers" = Some 0.9.
Proof.
  intros learnt_low. split; [reflexivity|]. split.
  - exact (update_matches_graph "customer info" ["sales.customers"] learnt_low
             stub_nlp "customer" "sales.customers" eq_refl).
  - exact (update_matches_graph "customer info" ["sales.customers"] learnt_low
             stub_nlp "info" "sales.customers" eq_refl).
Defined.

Lemma appended_refl (terms old : list string) : appended terms old old.
Proof.
  exists []. split; [by rewrite app_nil_r|]. split; [apply NoDup_nil_2|].
  by intros x ?%elem_of_nil.
Qed.

Lemma appended_trans (terms a b c : list string) :
  appended terms a b → appended terms b c → appended terms a c.
Proof.
  intros (added1 & -> & Hnd1 & H1) (added2 & -> & Hnd2 & H2).
  exists (added1 ++ added2). split; [by rewrite app_assoc|]. split.
  - apply NoDup_app. split; [done|]. split; [|done].
    intros x Hx1 Hx2. apply (H2 x Hx2). apply elem_of_app. by right.
  - intros x [Hx|Hx]%elem_of_app; [by apply H1|].
    destruct (H2 x Hx) as [? Hnot]. split; [done|].
    intros Ha. apply Hnot, elem_of_app. by left.
Qed.

Lemma appended_term (terms old : list string) (term : string) :
  term ∈ terms →
  appended terms old (if bool_decide (term ∈ old) then old else old ++ [term]).
Proof.
  intros Hterm. case_bool_decide as Hold; [apply appended_refl|].
  exists [term]. split; [done|]. split.
  - apply NoDup_singleton.
  - by intros x ->%list_elem_of_singleton.
Qed.

Lemma synonyms_update_term (table : string) (self : NameMatchManager)
    (term table' : string) :
  synonyms (update_term table self term) !! table'
  = if decide (table' = table)
    then Some (if bool_decide (term ∈ default [] (synonyms self !! table))
               then default [] (synonyms self !! table)
               else default [] (synonyms self !! table) ++ [term])
    else synonyms self !! table'.
Proof.
  unfold update_term. simpl. rewrite lookup_insert.
  destruct (decide (table' = table)) as [->|Hne].
  - by rewrite decide_True.
  - by rewrite decide_False by congruence.
Qed.

Lemma synonyms_foldl_update_term (all_terms : list string) (table : string)
    (terms : list string) (self : NameMatchManager) :
  (∀ x, x ∈ terms → x ∈ all_terms) →
  is_Some (synonyms self !! table) →
  (∃ new, synonyms (foldl (update_term table) self terms) !! table = Some new
          ∧ appended all_terms (default [] (synonyms self !! table)) new)
  ∧ ∀ table', table' ≠ table →
      synonyms (foldl (update_term table) self terms) !! table'
      = synonyms self !! table'.
Proof.
  revert self. induction terms as [|term terms IH]; intros self Hsub [old Hold].
  - simpl. split; [|done]. exists old. rewrite Hold. split; [done|].
    apply appended_refl.
  - simpl.
    assert (term ∈ all_terms) as Hterm by apply Hsub, list_elem_of_here.
    destruct (IH (update_term table self term)) as [(new & Hnew & Happ) Hother].
    { intros x Hx. by apply Hsub, list_elem_of_further. }
    { rewrite synonyms_update_term, decide_True by done. by eexists. }
    split.
    + exists new. split; [done|].
      rewrite synonyms_update_term, decide_True in Happ by done.
      simpl in Happ. eapply appended_trans; [|exact Happ].
      by apply appended_term.
    + intros table' Hne. rewrite Hother by done.
      by rewrite synonyms_update_term, decide_False.
Qed.

Lemma synonyms_update_table (terms : list string) (self : NameMatchManager)
    (table : string) :
  (∃ new, synonyms (update_table terms self table) !! table = Some new
          ∧ appended terms (default [] (synonyms self !! table)) new)
  ∧ ∀ table', table' ≠ table →
      synonyms (update_table terms self table) !! table'
      = synonyms self !! table'.
Proof.
  unfold update_table.
  destruct (synonyms self !! table) as [old|] eqn:Hold.
  - destruct (synonyms_foldl_update_term terms table terms self)
      as [(new & Hnew & Happ) Hother]; [done | by eexists |].
    rewrite Hold in Happ. split; [by exists new | done].
  - set (self' := {| nm_nlp := nm_nlp self;
                     synonyms := <[table := []]> (synonyms self);
                     matches := matches self |}).
    destruct (synonyms_foldl_update_term terms table terms self')
      as [(new & Hnew & Happ) Hother]; [done | |].
    { unfold self'. simpl. rewrite lookup_insert_eq. by eexists. }
    unfold self' in Happ. simpl in Happ. rewrite lookup_insert_eq in Happ.
    split; [by exists new|].
    intros table' Hne. rewrite Hother by done. unfold self'. simpl.
    by rewrite lookup_insert_ne.
Qed.

Lemma synonyms_foldl_update_table (terms tables : list string)
    (self : NameMatchManager) (table : string) :
  (table ∉ tables →
     synonyms (foldl (update_table terms) self tables) !! table
     = synonyms self !! table)
  ∧ (table ∈ tables →
       ∃ new, synonyms (foldl (update_table terms) self tables) !! table
              = Some new
              ∧ appended terms (default [] (synonyms self !! table)) new).
Proof.
  revert self. induction tables as [|t tables IH]; intros self; simpl.
  - split; [done|]. by intros ?%elem_of_nil.
  - destruct (IH (update_table terms self t)) as [IHout IHin].
    destruct (synonyms_update_table terms self t) as [(new1 & Hnew1 & Happ1) Hother].
    split.
    + intros [Hne Hout]%not_elem_of_cons. rewrite IHout by done.
      by apply Hother.
    + intros Hin. destruct (decide (table = t)) as [->|Hne].
      * destruct (decide (t ∈ tables)) as [Hrest|Hrest].
        -- destruct (IHin Hrest) as (new2 & Hnew2 & Happ2).
           exists new2. split; [done|]. rewrite Hnew1 in Happ2.
           by eapply appended_trans.
        -- exists new1. split; [|done]. by rewrite IHout.
      * apply elem_of_cons in Hin as [?|Hin]; [done|].
        destruct (IHin Hin) as (new2 & Hnew2 & Happ2).
        exists new2. split; [done|]. by rewrite Hother in Happ2.
Qed.

Lemma synonyms_update_matches (query : string) (tables : list string)
    (self : NameMatchManager) (nlp : NLP) :
  nm_nlp self = Some nlp →
  let after := update_matches query tables self in
  let terms := lemmas nlp (lower query) in
  (∀ table, table ∉ tables →
     synonyms after !! table = synonyms self !! table)
  ∧ (∀ table, table ∈ tables →
       let old := default [] (synonyms self !! table) in
       ∃ added,
         synonyms after !! table = Some (old ++ added)
         ∧ NoDup added
         ∧ (∀ x, x ∈ added → x ∈ terms ∧ x ∉ old)
         ∧ (∀ x, x ∈ terms → x ∈ old ++ added)
         ∧ (NoDup old → NoDup (old ++ added))).
Proof.
  intros Hnlp after terms. unfold after, update_matches. rewrite Hnlp.
  fold terms. split.
  - intros table Hout.
    by apply (synonyms_foldl_update_table terms tables self table).
  - intros table Hin.
    destruct (proj2 (synonyms_foldl_update_table terms tables self table) Hin)
      as (new & Hnew & added & -> & Hnd & Hadded).
    exists added. split; [done|]. split; [done|]. split; [done|]. split.
    + intros x Hx.
      destruct (foldl_update_table_settles terms tables self table Hin)
        as [_ Hlearnt].
      destruct (Hlearnt x Hx) as [(syns & Hsyns & Hmem) _].
      rewrite Hnew in Hsyns. by injection Hsyns as <-.
    + intros Hold. apply NoDup_app. split; [done|]. split; [|done].
      intros x Hx Hx'. by apply (Hadded x Hx').
Qed.

(** X9. [update_matches] only appends to synonym lists: the list of a
    table that is not confirmed is untouched; the list of a confirmed table
    keeps its entries in place and gains, once each, the query lemmas it
    lacked, so that afterwards it holds every query lemma and is free of
    repetitions if it was before. *)
Theorem update_matches_synonyms (query : string) (tables : list string)
    (self : NameMatchManager) (nlp : NLP) :
  nm_nlp self = Some nlp →
  let after := update_matches query tables self in
  let terms := lemmas nlp (lower query) in
  (∀ table, table ∉ tables →
     synonyms after !! table = synonyms self !! table)
  ∧ (∀ table, table ∈ tables →
       let old := default [] (synonyms self !! table) in
       ∃ added,
         synonyms after !! table = Some (old ++ added)
         ∧ NoDup added
         ∧ (∀ x, x ∈ added → x ∈ terms ∧ x ∉ old)
         ∧ (∀ x, x ∈ terms → x ∈ old ++ added)
         ∧ (NoDup old → NoDup (old ++ added))).
Proof. exact (synonyms_update_matches query tables self nlp). Qed.

Lemma update_matches_synonyms_witness :
  let self := update_matches "customer info" ["sales.customers"]
                (no_synonyms (Some stub_nlp)) in
  nm_nlp self = Some stub_nlp
  ∧ synonyms self !! "sales.customers" = Some ["customer"; "info"]
  ∧ synonyms (update_matches "find customer" ["sales.customers"] self)
      !! "sales.customers" = Some ["customer"; "info"; "find"]
  ∧ synonyms (update_matches "find customer" ["sales.customers"] self)
      !! "sales.orders" = None.
Proof.
  intros self.
  destruct (update_matches_synonyms "find customer" ["sales.customers"] self
              stub_nlp eq_refl) as [Hout Hin].
  split; [reflexivity|]. split; [vm_compute; reflexivity|]. split.
  - destruct (Hin "sales.customers" (list_elem_of_here _ _))
      as (added & Hafter & _).
    rewrite Hafter. vm_compute in Hafter. vm_compute.
    by injection Hafter as <-.
  - rewrite Hout; [vm_compute; reflexivity|].
    intros Hin'. apply list_elem_of_singleton in Hin'. discriminate Hin'.
Defined.

(** ** The synonym index: what [get_matches] returns *)

Lemma get_matches_loops (self : NameMatchManager) (nlp : NLP) (query : string) :
  nm_nlp self = Some nlp →
  get_matches self query
  = let query_terms := lemmas nlp (lower query) in
    foldl (λ found term,
             foldl (λ found '(table, table_synonyms),
                      foldl (similar_step nlp term table) found table_synonyms)
                   found (map_to_list (synonyms self)))
          (foldl (λ found '(table, table_synonyms),
                    foldl (exact_or_memo self query_terms table) found
                          table_synonyms)
                 ∅ (map_to_list (synonyms self)))
          query_terms.
Proof. intros Hnlp. unfold get_matches. by rewrite Hnlp. Qed.

Lemma foldl_preserve {A S : Type} (P : S → Prop) (f : S → A → S)
    (l : list A) (init : S) :
  (∀ s x, x ∈ l → P s → P (f s x)) → P init → P (foldl f init l).
Proof.
  revert init. induction l as [|a l IH]; intros init Hstep Hinit; simpl; [done|].
  apply IH.
  - intros s x Hx. apply Hstep. by apply list_elem_of_further.
  - apply Hstep; [apply list_elem_of_here | done].
Qed.

Lemma foldl_reach {A S : Type} (P Q : S → Prop) (f : S → A → S)
    (l : list A) (init : S) (a : A) :
  (∀ s x, x ∈ l → P s → P (f s x)) →
  (∀ s x, x ∈ l → P s → Q s → Q (f s x)) →
  (∀ s, P s → Q (f s a)) →
  a ∈ l → P init → Q (foldl f init l).
Proof.
  revert init. induction l as [|b l IH]; intros init HP HQ Ha Hin Hinit.
  - by apply elem_of_nil in Hin.
  - simpl. apply elem_of_cons in Hin as [->|Hin].
    + apply (foldl_preserve (λ s, P s ∧ Q s)).
      * intros s x Hx [? ?]. split.
        -- apply HP; [by apply list_elem_of_further | done].
        -- apply HQ; [by apply list_elem_of_further | done | done].
      * split; [apply HP; [apply list_elem_of_here | done] | by apply Ha].
    + apply IH; [| |done|done|].
      * intros s x Hx. apply HP. by apply list_elem_of_further.
      * intros s x Hx. apply HQ. by apply list_elem_of_further.
      * apply HP; [apply list_elem_of_here | done].
Qed.

Lemma score_of_sane (self : NameMatchManager) (found : gmap string Q)
    (table : string) :
  sane self found → 0 <= score_of found table.
Proof.
  intros Hsane. unfold score_of.
  destruct (found !! table) as [score|] eqn:Hscore; simpl; [|lra].
  by destruct (Hsane table score Hscore).
Qed.

Lemma sane_raise (self : NameMatchManager) (found : gmap string Q)
    (table : string) (v : Q) :
  sane self found → is_Some (synonyms self !! table) →
  score_of found table <= v → sane self (<[table := v]> found).
Proof.
  intros Hsane Hsyn Hv tb score. rewrite lookup_insert.
  case_decide as Heq; [|by apply Hsane].
  intros [= <-]. subst tb. split; [|done].
  pose proof (score_of_sane self found table Hsane). lra.
Qed.

Lemma scored_raise (t : string) (found : gmap string Q) (table : string) (v : Q) :
  scored t found → score_of found table <= v → scored t (<[table := v]> found).
Proof.
  intros (score & Hscore & Hge) Hv. unfold scored. rewrite lookup_insert.
  case_decide as Heq; [|by exists score].
  subst t. exists v. split; [done|].
  unfold score_of in Hv. rewrite Hscore in Hv. simpl in Hv. lra.
Qed.

Lemma exact_or_memo_keeps (self : NameMatchManager) (query_terms : list string)
    (table : string) (found : gmap string Q) (synonym : string) (t : string) :
  graph_nonneg self → is_Some (synonyms self !! table) → sane self found →
  sane self (exact_or_memo self query_terms table found synonym)
  ∧ (scored t found →
     scored t (exact_or_memo self query_terms table found synonym))
  ∧ (synonym ∈ query_terms →
     scored table (exact_or_memo self query_terms table found synonym)).
Proof.
  intros Hgraph Hsyn Hsane. unfold exact_or_memo.
  case_bool_decide as Hhit.
  - pose proof (score_of_sane self found table Hsane).
    split; [|split].
    + apply sane_raise; [done | done | lra].
    + intros Hs. apply scored_raise; [done | lra].
    + intros _. exists (score_of found table + 0.9).
      rewrite lookup_insert_eq. split; [done | lra].
  - split; [|split; [|done]].
    + destruct (matches self !! synonym) as [by_table|] eqn:Hby; [|done].
      apply (foldl_preserve (sane self)); [|done].
      intros s [mt score] Hin Hs. apply elem_of_map_to_list in Hin.
      case_bool_decide; [|done].
      assert (0 <= score).
      { apply (Hgraph synonym mt score). unfold score_at. by rewrite Hby. }
      apply sane_raise; [done | done | lra].
    + destruct (matches self !! synonym) as [by_table|] eqn:Hby; [|done].
      intros Hscored.
      apply (foldl_preserve (λ s, sane self s ∧ scored t s)); [|done].
      intros s [mt score] Hin [Hs Hsc]. apply elem_of_map_to_list in Hin.
      case_bool_decide; [|done].
      assert (0 <= score).
      { apply (Hgraph synonym mt score). unfold score_at. by rewrite Hby. }
      split; [apply sane_raise | apply scored_raise]; try done; lra.
Qed.

Lemma similar_step_keeps (self : NameMatchManager) (nlp : NLP)
    (term table : string) (found : gmap string Q) (synonym : string)
    (t : string) :
  is_Some (synonyms self !! table) → sane self found →
  sane self (similar_step nlp term table found synonym)
  ∧ (scored t found → scored t (similar_step nlp term table found synonym)).
Proof.
  intros Hsyn Hsane. unfold similar_step.
  destruct (Qlt_le_dec _ _); [|done]. split.
  - apply sane_raise; [done | done | apply py_max_lower].
  - intros Hs. apply scored_raise; [done | apply py_max_lower].
Qed.

Lemma elem_of_synonyms_list (self : NameMatchManager) (table : string)
    (table_synonyms : list string) :
  (table, table_synonyms) ∈ map_to_list (synonyms self) →
  is_Some (synonyms self !! table).
Proof. intros Hin. apply elem_of_map_to_list in Hin. by eexists. Qed.

Lemma get_matches_sane (self : NameMatchManager) (query : string) :
  graph_nonneg self → sane self (get_matches self query).
Proof.
  intros Hgraph. destruct (nm_nlp self) as [nlp|] eqn:Hnlp.
  2:{ unfold get_matches. rewrite Hnlp. intros tb score.
      by rewrite lookup_empty. }
  rewrite (get_matches_loops self nlp) by done. cbv zeta.
  apply (foldl_preserve (sane self)).
  - intros found term _ Hfound. apply (foldl_preserve (sane self)); [|done].
    intros s [table syns] Hin Hs. apply elem_of_synonyms_list in Hin.
    apply (foldl_preserve (sane self)); [|done].
    intros s' synonym _ Hs'.
    by apply (similar_step_keeps self nlp term table s' synonym table).
  - apply (foldl_preserve (sane self)).
    + intros s [table syns] Hin Hs. apply elem_of_synonyms_list in Hin.
      apply (foldl_preserve (sane self)); [|done].
      intros s' synonym _ Hs'.
      by apply (exact_or_memo_keeps self _ table s' synonym table).
    + intros tb score. by rewrite lookup_empty.
Qed.

(** X10. Over a match graph without negative scores, [get_matches] scores
    only tables that have synonyms, and never negatively. *)
Theorem get_matches_scores (self : NameMatchManager) (query : string)
    (table : string) (score : Q) :
  graph_nonneg self →
  get_matches self query !! table = Some score →
  0 <= score ∧ is_Some (synonyms self !! table).
Proof. intros Hgraph. apply get_matches_sane. exact Hgraph. Qed.

Lemma graph_nonneg_update_matches (query : string) (tables : list string)
    (self : NameMatchManager) :
  graph_nonneg self → graph_nonneg (update_matches query tables self).
Proof.
  intros Hgraph. destruct (nm_nlp self) as [nlp|] eqn:Hnlp.
  2:{ unfold update_matches. by rewrite Hnlp. }
  intros term table score.
  rewrite (score_at_update_matches query tables self nlp) by done.
  destruct (score_at self term table) as [old|] eqn:Hold.
  - intros [= <-]. by apply (Hgraph term table).
  - case_bool_decide; [|done]. intros [= <-]. lra.
Qed.

Lemma get_matches_scores_witness :
  let names := update_matches "customer info" ["sales.customers"]
                 (no_synonyms (Some stub_nlp)) in
  graph_nonneg names
  ∧ get_matches names "info please" !! "sales.customers" = Some 1.80
  ∧ 0 <= 1.80 ∧ is_Some (synonyms names !! "sales.customers").
Proof.
  intros names.
  assert (graph_nonneg names) as Hgraph.
  { apply graph_nonneg_update_matches. intros term table score Hs.
    vm_compute in Hs. discriminate Hs. }
  assert (get_matches names "info please" !! "sales.customers" = Some 1.80)
    as Hrun by (vm_compute; reflexivity).
  split; [exact Hgraph|]. split; [exact Hrun|].
  exact (get_matches_scores names "info please" "sales.customers" 1.80
           Hgraph Hrun).
Defined.

Lemma get_matches_after_update (query : string) (tables : list string)
    (self : NameMatchManager) (nlp : NLP) (table : string) :
  nm_nlp self = Some nlp →
  graph_nonneg self →
  lemmas nlp (lower query) ≠ [] →
  table ∈ tables →
  ∃ score,
    get_matches (update_matches query tables self) query !! table = Some score
    ∧ 0.9 <= score.
Proof.
  intros Hnlp Hgraph Hterms Htable.
  set (after := update_matches query tables self).
  assert (nm_nlp after = Some nlp) as Hnlp'.
  { unfold after, update_matches. rewrite Hnlp.
    by rewrite (proj2 (foldl_update_table_keeps _ tables self)). }
  assert (graph_nonneg after) as Hgraph'
    by (by apply graph_nonneg_update_matches).
  destruct (lemmas nlp (lower query)) as [|term terms] eqn:Hlem; [done|].
  destruct (synonyms_update_matches query tables self nlp Hnlp) as [_ Hin].
  destruct (Hin table Htable) as (added & Hsyn & _ & _ & Hall & _).
  fold after in Hsyn. rewrite Hlem in Hall.
  set (syns := default [] (synonyms self !! table) ++ added) in *.
  assert (term ∈ syns) as Hterm by apply Hall, list_elem_of_here.
  assert ((table, syns) ∈ map_to_list (synonyms after)) as Hentry
    by (by apply elem_of_map_to_list).
  rewrite (get_matches_loops after nlp) by done. cbv zeta. rewrite Hlem.
  change (scored table
    (foldl (λ found term0,
              foldl (λ found0 '(table0, table_synonyms),
                       foldl (similar_step nlp term0 table0) found0
                             table_synonyms)
                    found (map_to_list (synonyms after)))
           (foldl (λ found '(table0, table_synonyms),
                     foldl (exact_or_memo after (term :: terms) table0) found
                           table_synonyms)
                  ∅ (map_to_list (synonyms after)))
           (term :: terms))).
  apply (foldl_preserve (λ s, sane after s ∧ scored table s)).
  - intros found term0 _ Hfound.
    apply (foldl_preserve (λ s, sane after s ∧ scored table s)); [|done].
    intros s [table0 syns0] Hin0 Hs. apply elem_of_synonyms_list in Hin0.
    apply (foldl_preserve (λ s, sane after s ∧ scored table s)); [|done].
    intros s' synonym _ [Hs' Hsc'].
    destruct (similar_step_keeps after nlp term0 table0 s' synonym table)
      as [? Hkeep]; [done | done |]. split; [done | by apply Hkeep].
  - split.
    + apply (foldl_preserve (sane after)).
      * intros s [table0 syns0] Hin0 Hs. apply elem_of_synonyms_list in Hin0.
        apply (foldl_preserve (sane after)); [|done].
        intros s' synonym _ Hs'.
        by apply (exact_or_memo_keeps after _ table0 s' synonym table).
      * intros tb score. by rewrite lookup_empty.
    + apply (foldl_reach (sane after) (scored table) _ _ _ (table, syns)).
      * intros s [table0 syns0] Hin0 Hs. apply elem_of_synonyms_list in Hin0.
        apply (foldl_preserve (sane after)); [|done].
        intros s' synonym _ Hs'.
        by apply (exact_or_memo_keeps after _ table0 s' synonym table).
      * intros s [table0 syns0] Hin0 Hs Hsc.
        apply elem_of_synonyms_list in Hin0.
        apply (foldl_preserve (λ s, sane after s ∧ scored table s)); [|done].
        intros s' synonym _ [Hs' Hsc'].
        destruct (exact_or_memo_keeps after (term :: terms) table0 s' synonym
                    table) as (? & Hkeep & _); [done | done | done |].
        split; [done | by apply Hkeep].
      * intros s Hs.
        assert (is_Some (synonyms after !! table)) as Hsome by (by eexists).
        apply (foldl_reach (sane after) (scored table) _ _ _ term).
        -- intros s' synonym _ Hs'.
           by apply (exact_or_memo_keeps after _ table s' synonym table).
        -- intros s' synonym _ Hs' Hsc'.
           destruct (exact_or_memo_keeps after (term :: terms) table s' synonym
                       table) as (_ & Hkeep & _); [done | done | done |].
           by apply Hkeep.
        -- intros s' Hs'.
           destruct (exact_or_memo_keeps after (term :: terms) table s' term
                       table) as (_ & _ & Hhit); [done | done | done |].
           apply Hhit, list_elem_of_here.
        -- done.
        -- done.
      * done.
      * intros tb score. by rewrite lookup_empty.
Qed.

(** X11. What was confirmed is found again: after [update_matches] with a
    query that has at least one lemma, [get_matches] on the same query
    scores every confirmed table at least 0.9, provided the match graph
    held no negative score. *)
Theorem update_then_get_matches_general (query : string) (tables : list string)
    (self : NameMatchManager) (nlp : NLP) (table : string) :
  nm_nlp self = Some nlp →
  graph_nonneg self →
  lemmas nlp (lower query) ≠ [] →
  table ∈ tables →
  ∃ score,
    get_matches (update_matches query tables self) query !! table = Some score
    ∧ 0.9 <= score.
Proof. exact (get_matches_after_update query tables self nlp table). Qed.

Lemma update_then_get_matches_general_witness :
  nm_nlp (no_synonyms (Some stub_nlp)) = Some stub_nlp
  ∧ graph_nonneg (no_synonyms (Some stub_nlp))
  ∧ lemmas stub_nlp (lower "find customer info") ≠ []
  ∧ ∃ score,
      get_matches (update_matches "find customer info" ["sales.customers"]
                     (no_synonyms (Some stub_nlp)))
        "find customer info" !! "sales.customers" = Some score
      ∧ 0.9 <= score.
Proof.
  assert (graph_nonneg (no_synonyms (Some stub_nlp))) as Hgraph.
  { intros term table score Hs. vm_compute in Hs. discriminate Hs. }
  assert (lemmas stub_nlp (lower "find customer info") ≠ []) as Hterms
    by (vm_compute; discriminate).
  split; [reflexivity|]. split; [exact Hgraph|]. split; [exact Hterms|].
  exact (update_then_get_matches_general "find customer info"
           ["sales.customers"] (no_synonyms (Some stub_nlp)) stub_nlp
           "sales.customers" eq_refl Hgraph Hterms (list_elem_of_here _ _)).
Defined.

(** ** The ranker after a confirmation *)

Lemma name_confidence_ge (name_matches : gmap string Q) (table : string)
    (score : Q) :
  name_matches !! table = Some score → score <= name_confidence name_matches.
Proof.
  intros Hscore. unfold name_confidence.
  assert (score ∈ (map_to_list name_matches).*2 ++ [0]) as Hin.
  { apply elem_of_app. left. apply list_elem_of_fmap.
    exists (table, score). split; [done|]. by apply elem_of_map_to_list. }
  destruct ((map_to_list name_matches).*2 ++ [0]) as [|first rest];
    [by apply elem_of_nil in Hin|].
  apply elem_of_cons in Hin as [->|Hin].
  - apply py_max_list_ge_first.
  - by apply py_max_list_ge_elem.
Qed.

Lemma elem_of_working_set_name `{SetOrder} (pattern_tables : list string)
    (name_matches : gmap string Q) (feedback_tables : list string)
    (table : string) (score : Q) :
  name_matches !! table = Some score → 0.8 <= score →
  table ∈ working_set pattern_tables name_matches feedback_tables.
Proof.
  intros Hscore Hge. unfold working_set.
  apply elem_of_union. left. apply elem_of_union. right.
  apply elem_of_list_to_set, list_elem_of_fmap.
  exists (table, score). split; [done|].
  apply list_elem_of_filter. split; [done|]. by apply elem_of_map_to_list.
Qed.

(** X12. Learning shows in the next answer: after [update_name_matches]
    with a query that has a lemma, [identify_tables] on the same query gives
    a non-empty answer of confidence at least 0.45, and a confirmed table
    is in it unless five tables at least as heavy fill it. The ledger is
    assumed to respect the floor and the match graph to hold no negative
    score. *)
Theorem identify_after_confirmation `{SetOrder} (self : TableIdentifier)
    (nlp : NLP) (query : string) (selected_tables pattern_tables : list string)
    (table : string) :
  nm_nlp (name_match_manager self) = Some nlp →
  graph_nonneg (name_match_manager self) →
  weights_floor (weights self) →
  lemmas nlp (lower query) ≠ [] →
  table ∈ selected_tables →
  match_pattern (pattern_manager self) query = Ok pattern_tables →
  ∃ tables confidence,
    identify_tables (update_name_matches query selected_tables self) query
    = Ok (tables, confidence)
    ∧ tables ≠ []
    ∧ 0.45 <= confidence
    ∧ (table ∈ tables
       ∨ (length tables = 5%nat
          ∧ ∀ r, r ∈ tables →
              weight_of (weights self) table <= weight_of (weights self) r)).
Proof.
  intros Hnlp Hgraph Hfl Hterms Htable Hpat.
  set (after := update_name_matches query selected_tables self).
  destruct (get_matches_after_update query selected_tables
              (name_match_manager self) nlp table Hnlp Hgraph Hterms Htable)
    as (score & Hscore & Hge).
  assert (match_pattern (pattern_manager after) query = Ok pattern_tables)
    as Hpat' by exact Hpat.
  set (ws := working_set pattern_tables
               (get_matches (name_match_manager after) query)
               (_get_feedback_tables after query)).
  assert (table ∈ ws) as Hws.
  { apply (elem_of_working_set_name _ _ _ table score); [exact Hscore | lra]. }
  destruct (identify_tables after query) as [[tables confidence]|e] eqn:Hrun.
  2:{ rewrite (identify_tables_ok after query pattern_tables Hpat') in Hrun.
      cbv zeta in Hrun. by destruct (set_iter _). }
  exists tables, confidence. split; [done|].
  assert (tables ≠ []) as Hne.
  { intros ->.
    destruct (identify_tables_nil_iff after query pattern_tables []
                confidence Hpat' Hrun) as [Hiff _].
    fold ws in Hiff. rewrite (proj1 Hiff eq_refl) in Hws.
    by apply not_elem_of_empty in Hws. }
  split; [done|]. split.
  - destruct (identify_tables_damped after query pattern_tables tables
                confidence Hfl Hpat' Hrun Hne) as [Hlow _].
    pose proof (name_confidence_ge _ _ _ Hscore) as Hname.
    pose proof (py_max_list_ge_elem (pattern_confidence pattern_tables)
      [name_confidence (get_matches (name_match_manager after) query);
       feedback_confidence (_get_feedback_tables after query)]
      (name_confidence (get_matches (name_match_manager after) query))
      (list_elem_of_here _ _)) as Hmax.
    change (name_match_manager after)
      with (update_matches query selected_tables (name_match_manager self))
      in *.
    lra.
  - destruct (decide (table ∈ tables)) as [Hin|Hout]; [by left|]. right.
    destruct (identify_tables_top after query pattern_tables tables
                confidence Hpat' Hrun) as (_ & _ & Hheavy).
    split; [|intros r Hr; by apply (Hheavy table r)].
    rewrite (identify_tables_ok after query pattern_tables Hpat') in Hrun.
    cbv zeta in Hrun. fold ws in Hrun.
    destruct (set_iter ws) as [|x xs] eqn:Hiter.
    { apply set_iter_nil in Hiter. rewrite Hiter in Hws.
      by apply not_elem_of_empty in Hws. }
    rewrite <- Hiter in Hrun.
    set (ranked := sorted_desc (weight_of (weights after)) (set_iter ws)) in *.
    assert (tables = take 5 ranked) as -> by congruence.
    assert (table ∈ ranked) as Hranked.
    { unfold ranked. rewrite sorted_desc_perm. by apply elem_of_set_iter. }
    rewrite length_take. apply Nat.min_l.
    destruct (decide (5 ≤ length ranked)%nat) as [|Hshort]; [done|].
    rewrite take_ge in Hout by lia. done.
Qed.

Lemma identify_after_confirmation_witness :
  let self := sales_identifier (no_synonyms (Some stub_nlp))
                (_load_weights None (get_all_tables sales_catalog)) in
  @identify_tables elements_order
    (update_name_matches "big spenders" ["sales.customers"] self) "big spenders"
  = Ok (["sales.customers"], 1.80)
  ∧ @identify_tables elements_order self "big spenders" = Ok ([], 0).
Proof.
  intros self.
  assert (graph_nonneg (no_synonyms (Some stub_nlp))) as Hgraph.
  { intros term table score Hs. vm_compute in Hs. discriminate Hs. }
  destruct (@identify_after_confirmation elements_order self stub_nlp
              "big spenders" ["sales.customers"] [] "sales.customers")
    as (tables & confidence & Hrun & _).
  - reflexivity.
  - exact Hgraph.
  - apply weights_floor_load.
  - vm_compute. discriminate.
  - apply list_elem_of_here.
  - vm_compute. reflexivity.
  - split; vm_compute; reflexivity.
Defined.

(** ** The feedback store: lookups *)

Lemma best_feedback_scan (nlp : NLP) (query : string)
    (l : list feedback_entry) (m : Q) (best : option feedback_entry)
    (out : Q * option feedback_entry) :
  foldl (λ '(max_similarity, best) entry,
           let sim := similarity nlp (lower query) (lower (fb_query entry)) in
           if Qlt_le_dec max_similarity sim
           then if Qlt_le_dec 0.8 sim then (sim, Some entry)
                else (max_similarity, best)
           else (max_similarity, best))
        (m, best) l = out →
  m <= out.1
  ∧ (∀ e, e ∈ l → entry_similarity nlp query e <= 0.8
                   ∨ entry_similarity nlp query e <= out.1)
  ∧ (out = (m, best)
     ∨ ∃ e, out = (entry_similarity nlp query e, Some e) ∧ e ∈ l
            ∧ 0.8 < entry_similarity nlp query e).
Proof.
  revert m best. induction l as [|x l IH]; intros m best Hrun; simpl in Hrun.
  - subst out. simpl. split; [lra|].
    split; [by intros e ?%elem_of_nil | by left].
  - fold (entry_similarity nlp query x) in Hrun.
    destruct (Qlt_le_dec m (entry_similarity nlp query x)) as [Hlt|Hle].
    + destruct (Qlt_le_dec 0.8 (entry_similarity nlp query x)) as [Hhi|Hlo].
      * destruct (IH _ _ Hrun) as (Hm & Hall & Hout).
        split; [lra|]. split.
        -- intros e [->|He]%elem_of_cons; [by right | by apply Hall].
        -- right. destruct Hout as [Hout|(e & Hout & He & Hsim)].
           ++ exists x. split; [done|]. split; [apply list_elem_of_here|done].
           ++ exists e. split; [done|].
              split; [by apply list_elem_of_further|done].
      * destruct (IH _ _ Hrun) as (Hm & Hall & Hout).
        split; [done|]. split.
        -- intros e [->|He]%elem_of_cons; [by left | by apply Hall].
        -- destruct Hout as [Hout|(e & Hout & He & Hsim)]; [by left|].
           right. exists e. split; [done|].
           split; [by apply list_elem_of_further|done].
    + destruct (IH _ _ Hrun) as (Hm & Hall & Hout).
      split; [done|]. split.
      * intros e [->|He]%elem_of_cons; [right; lra | by apply Hall].
      * destruct Hout as [Hout|(e & Hout & He & Hsim)]; [by left|].
        right. exists e. split; [done|].
        split; [by apply list_elem_of_further|done].
Qed.

Lemma best_feedback_spec (nlp : NLP) (query : string)
    (l : list feedback_entry) :
  match best_feedback nlp query l with
  | Some e => e ∈ l ∧ 0.8 < entry_similarity nlp query e
              ∧ ∀ e', e' ∈ l →
                  entry_similarity nlp query e' <= entry_similarity nlp query e
  | None => ∀ e', e' ∈ l → entry_similarity nlp query e' <= 0.8
  end.
Proof.
  unfold best_feedback. set (out := foldl _ _ l).
  destruct (best_feedback_scan nlp query l 0 None out eq_refl)
    as (Hm & Hall & Hout).
  destruct Hout as [Hout|(e & Hout & He & Hsim)]; rewrite Hout in *; simpl in *.
  - intros e' He'. destruct (Hall e' He'); lra.
  - split; [done|]. split; [done|].
    intros e' He'. destruct (Hall e' He'); lra.
Qed.

(** X13. A hit of [get_similar_feedback] is an entry of the list it
    scanned (the cache if it answers, otherwise the database rows), is more
    than 0.8 similar to the query, and no scanned entry is more similar;
    a hit from the database replaces the cache by that one entry. The rows
    and the usage counts are never changed by a lookup. *)
Theorem get_similar_feedback_hit (self : FeedbackManager) (nlp : NLP)
    (query : string) (entry : feedback_entry) (after : FeedbackManager) :
  fm_nlp self = Some nlp →
  get_similar_feedback self query = (Some entry, after) →
  feedback after = feedback self
  ∧ query_counts after = query_counts self
  ∧ 0.8 < entry_similarity nlp query entry
  ∧ ∃ scanned,
      entry ∈ scanned
      ∧ (∀ e, e ∈ scanned →
           entry_similarity nlp query e <= entry_similarity nlp query entry)
      ∧ ((cache self = Some scanned ∧ after = self)
         ∨ (scanned = feedback self ∧ cache after = Some [entry])).
Proof.
  intros Hnlp. unfold get_similar_feedback. rewrite Hnlp.
  destruct (cache self ≫= best_feedback nlp query) as [hit|] eqn:Hcache.
  - intros [= <- <-]. split; [done|]. split; [done|].
    destruct (cache self) as [cached|] eqn:Hc; [|done]. simpl in Hcache.
    pose proof (best_feedback_spec nlp query cached) as Hspec.
    rewrite Hcache in Hspec. destruct Hspec as (Hin & Hsim & Hmax).
    split; [done|]. exists cached. split; [done|]. split; [done|]. by left.
  - pose proof (best_feedback_spec nlp query (feedback self)) as Hspec.
    destruct (best_feedback nlp query (feedback self)) as [hit|];
      [|by intros [= ]].
    intros [= <- <-]. destruct Hspec as (Hin & Hsim & Hmax).
    split; [done|]. split; [done|]. split; [done|].
    exists (feedback self). split; [done|]. split; [done|]. by right.
Qed.

Lemma get_similar_feedback_hit_witness :
  let self := store_feedback "show orders" ["sales.orders"] 1
                (empty_store (Some stub_nlp) "feedback_export.json") in
  let entry := {| fb_query := "show orders"; fb_tables := ["sales.orders"];
                  fb_weight := 1 |} in
  fm_nlp self = Some stub_nlp
  ∧ get_similar_feedback self "Show Orders" = (Some entry, self)
  ∧ 0.8 < entry_similarity stub_nlp "Show Orders" entry.
Proof.
  intros self entry.
  assert (get_similar_feedback self "Show Orders" = (Some entry, self)) as Hrun
    by (vm_compute; reflexivity).
  split; [reflexivity|]. split; [exact Hrun|].
  by destruct (get_similar_feedback_hit self stub_nlp "Show Orders" entry self
                 eq_refl Hrun) as (_ & _ & Hsim & _).
Defined.

(** X14. A correction is not seen by the lookup: when the same query is
    stored twice into a store whose cache was empty, and the query is more
    than 0.8 similar to itself, [get_similar_feedback] answers with the
    entry of the first call, not with the tables of the second. *)
Theorem get_similar_feedback_stale (self : FeedbackManager) (nlp : NLP)
    (query : string) (tables1 tables2 : list string) (weight1 weight2 : Q) :
  fm_nlp self = Some nlp →
  cache self = None →
  0.8 < similarity nlp (lower query) (lower query) →
  (get_similar_feedback
     (store_feedback query tables2 weight2
        (store_feedback query tables1 weight1 self)) query).1
  = Some {| fb_query := query; fb_tables := tables1; fb_weight := weight1 |}.
Proof.
  intros Hnlp Hcache Hsim. unfold get_similar_feedback. simpl.
  rewrite Hnlp, Hcache. simpl. unfold best_feedback. simpl.
  destruct (Qlt_le_dec 0 (similarity nlp (lower query) (lower query)))
    as [Hpos|Hneg]; [|lra].
  destruct (Qlt_le_dec 0.8 (similarity nlp (lower query) (lower query)))
    as [Hhi|Hlo]; [|lra].
  simpl.
  destruct (Qlt_le_dec (similarity nlp (lower query) (lower query))
              (similarity nlp (lower query) (lower query))) as [Hlt|Hle];
    [lra | reflexivity].
Qed.

Lemma get_similar_feedback_stale_witness :
  let fresh := empty_store (Some stub_nlp) "feedback_export.json" in
  fm_nlp fresh = Some stub_nlp ∧ cache fresh = None
  ∧ 0.8 < similarity stub_nlp (lower "top customers") (lower "top customers")
  ∧ (get_similar_feedback
       (store_feedback "top customers" ["sales.customers"] 1
          (store_feedback "top customers" ["sales.orders"] 1 fresh))
       "top customers").1
    = Some {| fb_query := "top customers"; fb_tables := ["sales.orders"];
              fb_weight := 1 |}.
Proof.
  intros fresh.
  assert (0.8 < similarity stub_nlp (lower "top customers")
                  (lower "top customers")) as Hsim by (vm_compute; reflexivity).
  split; [reflexivity|]. split; [reflexivity|]. split; [exact Hsim|].
  exact (get_similar_feedback_stale fresh stub_nlp "top customers"
           ["sales.orders"] ["sales.customers"] 1 1 eq_refl eq_refl Hsim).
Defined.

(** ** The feedback store: import merges, counts follow stores *)



Lemma store_many_snoc (calls : list (string * list string * Q))
    (query : string) (tables : list string) (weight : Q)
    (self : FeedbackManager) :
  store_many (calls ++ [(query, tables, weight)]) self
  = store_feedback query tables weight (store_many calls self).
Proof. unfold store_many. by rewrite foldl_app. Qed.

Lemma get_query_count_store_ne (query query' : string) (tables : list string)
    (weight : Q) (self : FeedbackManager) :
  query' ≠ query →
  get_query_count (store_feedback query tables weight self) query'
  = get_query_count self query'.
Proof.
  intros Hne. unfold get_query_count at 1. unfold store_feedback, set_store.
  simpl. by rewrite lookup_insert_ne.
Qed.

(** X16. Started from an empty database, the usage count of a query is the
    number of [store_feedback] calls made with that query text, and this is
    also the number of rows that the [feedback] table holds for it. *)
Theorem store_many_counts (calls : list (string * list string * Q))
    (nlp : option NLP) (path : string) (query : string) :
  let stored := store_many calls (empty_store nlp path) in
  get_query_count stored query
  = Z.of_nat (length (filter (λ call, call.1.1 = query) calls))
  ∧ length (filter (λ row, fb_query row = query) (feedback stored))
    = length (filter (λ call, call.1.1 = query) calls).
Proof.
  induction calls as [|[[q tables] weight] calls IH] using rev_ind.
  - by split.
  - destruct IH as [IHcount IHrows]. cbv zeta.
    rewrite store_many_snoc. rewrite filter_app, length_app.
    change (feedback (store_feedback q tables weight
                        (store_many calls (empty_store nlp path))))
      with (feedback (store_many calls (empty_store nlp path))
            ++ [{| fb_query := q; fb_tables := tables; fb_weight := weight |}]).
    rewrite filter_app, length_app, IHrows.
    destruct (decide (q = query)) as [->|Hne].
    + rewrite get_query_count_store, IHcount.
      rewrite !filter_cons_True by done. simpl. split; [lia | done].
    + rewrite get_query_count_store_ne by done. rewrite IHcount.
      rewrite !filter_cons_False by done. simpl.
      split; [f_equal; lia | done].
Qed.

(** ** The pattern index: the cold start *)

Lemma for_each_total {A S : Type} (body : S → A → result S) (l : list A)
    (init : S) :
  (∀ s a, a ∈ l → ∃ s', body s a = Ok s') → ∃ out, for_each body init l = Ok out.
Proof.
  revert init. induction l as [|a l IH]; intros init Hbody; simpl.
  - by eexists.
  - destruct (Hbody init a (list_elem_of_here _ _)) as [s' ->]. simpl.
    apply IH. intros s b Hb. apply Hbody. by apply list_elem_of_further.
Qed.

Lemma for_each_preserve {A S : Type} (P : S → Prop) (body : S → A → result S)
    (l : list A) (init out : S) :
  (∀ s a s', a ∈ l → body s a = Ok s' → P s → P s') →
  for_each body init l = Ok out → P init → P out.
Proof.
  revert init. induction l as [|a l IH]; intros init Hbody Hrun Hinit.
  - simpl in Hrun. by injection Hrun as <-.
  - simpl in Hrun. destruct (body init a) as [s'|e] eqn:Hstep; [|discriminate].
    apply (IH s'); [|done|].
    + intros s b s'' Hb. apply Hbody. by apply list_elem_of_further.
    + by apply (Hbody init a s' (list_elem_of_here _ _)).
Qed.

Lemma for_each_all {A S : Type} (Q : A → S → Prop) (body : S → A → result S)
    (l : list A) (init out : S) :
  (∀ s a s', a ∈ l → body s a = Ok s' → Q a s') →
  (∀ s a s' b, a ∈ l → body s a = Ok s' → Q b s → Q b s') →
  for_each body init l = Ok out →
  ∀ a, a ∈ l → Q a out.
Proof.
  revert init. induction l as [|x l IH]; intros init Hhit Hkeep Hrun a Ha.
  - by apply elem_of_nil in Ha.
  - simpl in Hrun. destruct (body init x) as [s'|e] eqn:Hstep; [|discriminate].
    simpl in Hrun. apply elem_of_cons in Ha as [->|Ha].
    + apply (for_each_preserve (Q x) body l s' out); [|done|].
      * intros s b s'' Hb Hbody. apply (Hkeep s b s'' x); [|done].
        by apply list_elem_of_further.
      * apply (Hhit init x s'); [apply list_elem_of_here | done].
    + apply (IH s'); [| |done|done].
      * intros s b s'' Hb. apply Hhit. by apply list_elem_of_further.
      * intros s b s'' c Hb. apply Hkeep. by apply list_elem_of_further.
Qed.

Lemma dict_index_set_eq {V : Type} (d : list (string * V)) (key : string)
    (value : V) :
  dict_index (dict_set d key value) key = Ok value.
Proof.
  induction d as [|[k v] d IH]; simpl.
  - by rewrite bool_decide_true.
  - case_bool_decide as Hk; simpl.
    + by rewrite bool_decide_true.
    + by rewrite bool_decide_false.
Qed.

Lemma dict_index_set_ne {V : Type} (d : list (string * V)) (key key' : string)
    (value : V) :
  key' ≠ key → dict_index (dict_set d key value) key' = dict_index d key'.
Proof.
  intros Hne. induction d as [|[k v] d IH]; simpl.
  - by rewrite bool_decide_false.
  - case_bool_decide as Hk; simpl.
    + subst k. by rewrite !bool_decide_false by congruence.
    + case_bool_decide; [done | exact IH].
Qed.

Lemma dict_index_elem_of {V : Type} (d : list (string * V)) (key : string)
    (value : V) :
  dict_index d key = Ok value → (key, value) ∈ d.
Proof.
  induction d as [|[k v] d IH]; simpl; [discriminate|].
  case_bool_decide as Hk.
  - intros [= <-]. subst k. apply list_elem_of_here.
  - intros Hrest. by apply list_elem_of_further, IH.
Qed.

(** X17. The cold start of the pattern index succeeds exactly on the
    catalogs that list the columns of every table they name; on any other
    catalog [_initialize_patterns] raises [KeyError]. *)
Theorem initialize_patterns_succeeds_iff (sd : schema_dict) :
  columns_listed sd ↔ ∃ generated, _initialize_patterns sd = Ok generated.
Proof.
  split.
  - intros Hcols. unfold _initialize_patterns.
    apply for_each_total. intros acc [schema table_list] Hin.
    apply for_each_total. intros acc' table Htable.
    destruct (Hcols schema table_list table Hin Htable)
      as (by_table & cols & -> & Ht).
    simpl. rewrite Ht. simpl. by eexists.
  - intros [generated Hrun]. by eapply initialize_patterns_columns_listed.
Qed.

(** An entry of the generated patterns for every table of the catalog. *)
Lemma initialize_patterns_entries (sd : schema_dict)
    (generated : list (string * list (list string)))
    (schema table : string) (cols : list (string * column_info)) :
  _initialize_patterns sd = Ok generated →
  catalog_table sd schema table cols →
  ∃ schema' table' cols',
    catalog_table sd schema' table' cols'
    ∧ full_table_name schema' table' = full_table_name schema table
    ∧ dict_index generated (full_table_name schema table)
      = Ok (table_patterns schema' table' cols').
Proof.
  intros Hrun (table_list & by_table & Hin & Htable & Hs & Ht).
  set (good := λ (key : string) (acc : list (string * list (list string))),
         ∃ schema' table' cols',
           catalog_table sd schema' table' cols'
           ∧ full_table_name schema' table' = key
           ∧ dict_index acc key = Ok (table_patterns schema' table' cols')).
  assert (∀ sch tl acc tb acc',
    (sch, tl) ∈ sd_tables sd → tb ∈ tl →
    (by_table ← dict_index (sd_columns sd) sch;
     cols ← dict_index by_table tb;
     Ok (dict_set acc (full_table_name sch tb) (table_patterns sch tb cols)))
    = Ok acc' →
    good (full_table_name sch tb) acc'
    ∧ ∀ key, good key acc → good key acc') as Hstep.
  { intros sch tl acc tb acc' Hsch Htb Hbody.
    destruct (dict_index (sd_columns sd) sch) as [bt|] eqn:Hbt; [|discriminate].
    simpl in Hbody.
    destruct (dict_index bt tb) as [cs|] eqn:Hcs; [|discriminate].
    simpl in Hbody. injection Hbody as <-.
    assert (good (full_table_name sch tb)
              (dict_set acc (full_table_name sch tb) (table_patterns sch tb cs)))
      as Hnew.
    { exists sch, tb, cs. split; [by exists tl, bt|]. split; [done|].
      apply dict_index_set_eq. }
    split; [done|].
    intros key (schema' & table' & cols' & Hcat & Hkey & Hidx).
    destruct (decide (key = full_table_name sch tb)) as [->|Hne]; [done|].
    exists schema', table', cols'. split; [done|]. split; [done|].
    by rewrite dict_index_set_ne. }
  unfold _initialize_patterns in Hrun.
  assert (∀ tb, tb ∈ table_list → good (full_table_name schema tb) generated)
    as Hall.
  { refine (for_each_all
      (λ (entry : string * list string) acc,
         ∀ tb, tb ∈ entry.2 → good (full_table_name entry.1 tb) acc)
      _ _ _ _ _ _ Hrun (schema, table_list) Hin).
    - intros acc [sch tl] acc' Hsch Hinner tb Htb. simpl in *.
      refine (for_each_all (λ tb acc, good (full_table_name sch tb) acc)
                _ _ _ _ _ _ Hinner tb Htb).
      + intros s a s' Ha Hbody.
        exact (proj1 (Hstep sch tl s a s' Hsch Ha Hbody)).
      + intros s a s' b Ha Hbody.
        exact (proj2 (Hstep sch tl s a s' Hsch Ha Hbody) _).
    - intros acc [sch tl] acc' [sch0 tl0] Hsch Hinner Hgood tb Htb. simpl in *.
      refine (for_each_preserve (good (full_table_name sch0 tb))
                _ _ _ _ _ Hinner (Hgood tb Htb)).
      intros s a s' Ha Hbody.
      exact (proj2 (Hstep sch tl s a s' Hsch Ha Hbody) _). }
  destruct (Hall table Htable) as (schema' & table' & cols' & ? & ? & ?).
  by exists schema', table', cols'.
Qed.

(** ** The pattern index: the NLP path covers the keyword path *)

Lemma elem_of_pattern_matches (self : PatternManager) (query_lower : string)
    (query_tokens : list string) (t : string) :
  t ∈ pattern_matches self query_lower query_tokens
  ↔ ∃ pats pattern, (t, pats) ∈ patterns self ∧ pattern ∈ pats
                    ∧ pattern_fires query_lower query_tokens pattern = true.
Proof.
  unfold pattern_matches.
  rewrite (elem_of_foldl_grow _
    (λ entry : string * list (list string),
       ∃ pattern, pattern ∈ entry.2 ∧ t = entry.1
                  ∧ pattern_fires query_lower query_tokens pattern = true)).
  - rewrite elem_of_empty. split.
    + intros [[]|([table pats] & Hin & pattern & Hp & -> & Hfire)].
      by exists pats, pattern.
    + intros (pats & pattern & Hin & Hp & Hfire). right.
      exists (t, pats). split; [done|]. by exists pattern.
  - intros acc [table pats]. simpl.
    rewrite (elem_of_foldl_grow _
      (λ pattern, t = table
                  ∧ pattern_fires query_lower query_tokens pattern = true)).
    + split.
      * intros [?|(pattern & Hp & -> & Hfire)]; [by left|].
        right. by exists pattern.
      * intros [?|(pattern & Hp & -> & Hfire)]; [by left|].
        right. by exists pattern.
    + intros acc' pattern. unfold pattern_fires.
      destruct (str_in (join_spaces pattern) query_lower); simpl.
      * rewrite elem_of_union, elem_of_singleton. intuition auto.
      * destruct (forallb _ pattern).
        -- rewrite elem_of_union, elem_of_singleton. intuition auto.
        -- intuition discriminate.
Qed.

Lemma table_patterns_fire (sd : schema_dict) (query_lower : string)
    (query_tokens : list string) (schema table : string)
    (cols : list (string * column_info)) :
  catalog_table sd schema table cols →
  table_hit sd query_lower schema table →
  ∃ pattern, pattern ∈ table_patterns schema table cols
             ∧ pattern_fires query_lower query_tokens pattern = true.
Proof.
  intros (table_list & by_table & _ & _ & Hs & Ht) [Hname|Hcol].
  - apply orb_prop_elim in Hname as [Hname|Hname]; apply Is_true_eq_true in Hname.
    + exists [lower table]. split.
      * unfold table_patterns. apply elem_of_app. left. apply list_elem_of_here.
      * unfold pattern_fires. simpl. by rewrite Hname.
    + exists [lower schema]. split.
      * unfold table_patterns. apply elem_of_app. left.
        apply list_elem_of_further, list_elem_of_here.
      * unfold pattern_fires. simpl. by rewrite Hname.
  - destruct Hcol as (by_table' & cols' & col_name & info & Hs' & Ht' & Hcol & Hin).
    rewrite Hs in Hs'. injection Hs' as <-.
    rewrite Ht in Ht'. injection Ht' as <-.
    exists [underscores_to_spaces (lower col_name)]. split.
    + unfold table_patterns. apply elem_of_app. right. apply elem_of_app. left.
      apply list_elem_of_fmap. by exists (col_name, info).
    + unfold pattern_fires. simpl.
      apply Is_true_eq_true in Hin. by rewrite Hin.
Qed.

(** X18. With the NLP model loaded and the patterns of the cold start, every
    table that the keyword path would return for a query (a table whose
    name, schema name or column name occurs in the lowercased query) is also
    returned by [match_pattern], provided a full name [schema.table] belongs
    to one table of the catalog only. *)
Theorem match_pattern_covers_keyword_path `{SetOrder} (self : PatternManager)
    (nlp : NLP) (query : string) :
  pm_nlp self = Some nlp →
  _initialize_patterns (pm_schema_dict self) = Ok (patterns self) →
  names_unambiguous (pm_schema_dict self) →
  ∃ found,
    match_pattern self query = Ok found
    ∧ ∀ t, keyword_hit (pm_schema_dict self) (lower query) t → t ∈ found.
Proof.
  intros Hnlp Hinit Hnames. unfold match_pattern. rewrite Hnlp.
  eexists. split; [reflexivity|].
  intros t (schema & table_list & table & Hin & Htable & -> & Hhit).
  rewrite elem_of_set_iter. apply elem_of_union_l.
  unfold direct_matches. apply elem_of_union_l, elem_of_union_l.
  apply elem_of_pattern_matches.
  destruct (initialize_patterns_columns_listed _ _ Hinit
              schema table_list table Hin Htable) as (by_table & cols & Hs & Ht).
  assert (catalog_table (pm_schema_dict self) schema table cols) as Hcat.
  { by exists table_list, by_table. }
  destruct (initialize_patterns_entries _ _ schema table cols Hinit Hcat)
    as (schema' & table' & cols' & Hcat' & Hfull & Hidx).
  destruct (Hnames schema' table' cols' schema table cols Hcat' Hcat Hfull)
    as [-> ->].
  destruct (table_patterns_fire (pm_schema_dict self) (lower query)
              (tokens nlp (lower query)) schema table cols' Hcat' Hhit)
    as (pattern & Hp & Hfire).
  exists (table_patterns schema table cols'), pattern.
  split; [by apply dict_index_elem_of | done].
Qed.

Lemma sales_catalog_names_unambiguous : names_unambiguous sales_catalog.
Proof.
  intros schema table cols schema' table' cols'
    (tl & bt & Hin & Htable & _) (tl' & bt' & Hin' & Htable' & _) Hfull.
  apply list_elem_of_singleton in Hin. injection Hin as -> ->.
  apply list_elem_of_singleton in Hin'. injection Hin' as -> ->.
  split; [done|].
  repeat (apply elem_of_cons in Htable as [->|Htable]);
    try (by apply elem_of_nil in Htable);
    repeat (apply elem_of_cons in Htable' as [->|Htable']);
    try (by apply elem_of_nil in Htable');
    first [reflexivity | discriminate Hfull].
Qed.

Lemma match_pattern_covers_keyword_path_witness :
  pm_nlp (sales_patterns (Some stub_nlp)) = Some stub_nlp
  ∧ _initialize_patterns (pm_schema_dict (sales_patterns (Some stub_nlp)))
    = Ok (patterns (sales_patterns (Some stub_nlp)))
  ∧ names_unambiguous (pm_schema_dict (sales_patterns (Some stub_nlp)))
  ∧ ∃ found,
      @match_pattern elements_order (sales_patterns (Some stub_nlp))
        "Last Name of the buyer" = Ok found
      ∧ ∀ t, keyword_hit sales_catalog (lower "Last Name of the buyer") t →
             t ∈ found.
Proof.
  split; [reflexivity|]. split; [vm_compute; reflexivity|].
  split; [exact sales_catalog_names_unambiguous|].
  exact (@match_pattern_covers_keyword_path elements_order
           (sales_patterns (Some stub_nlp)) stub_nlp "Last Name of the buyer"
           eq_refl eq_refl sales_catalog_names_unambiguous).
Defined.

(** ** The pattern index: what confirmed tables teach *)

Lemma update_tables_preserve (P : learnt_state → Prop) (sd : schema_dict)
    (keywords tables : list string) (state : learnt_state) :
  (∀ pats ents table e,
     table ∈ tables → dict_index pats table = Raise e →
     P (pats, ents) → P (dict_set pats table [], ents)) →
  (∀ st table schema table_name keyword,
     table ∈ tables → split_dot table = [schema; table_name] →
     keyword ∈ keywords → P st →
     P (update_keyword table
          (dict_get_or_empty (dict_get_or_empty (sd_columns sd) schema)
                             table_name) st keyword)) →
  P state → P (update_tables sd keywords tables state).
Proof.
  revert state. induction tables as [|table rest IH];
    intros [pats ents] Hensure Hkeyword Hinit; simpl; [done|].
  set (pats0 := match dict_index pats table with
                | Ok _ => pats
                | Raise _ => dict_set pats table []
                end).
  assert (P (pats0, ents)) as H0.
  { unfold pats0. destruct (dict_index pats table) as [v|e] eqn:Hidx; [done|].
    apply (Hensure pats ents table e); [apply list_elem_of_here|done|done]. }
  destruct (split_dot table) as [|schema [|table_name [|extra parts]]] eqn:Hsplit;
    try done.
  apply IH.
  - intros ps es tb e Htb. apply Hensure. by apply list_elem_of_further.
  - intros st tb sch tn kw Htb. apply Hkeyword. by apply list_elem_of_further.
  - apply foldl_preserve; [|done].
    intros st keyword Hkw Hst.
    apply Hkeyword; [apply list_elem_of_here|done|done|done].
Qed.

Lemma extends_refl {V : Type} (d : list (string * list V)) : extends d d.
Proof. intros key items Hin. by exists items. Qed.

Lemma extends_trans {V : Type} (d1 d2 d3 : list (string * list V)) :
  extends d1 d2 → extends d2 d3 → extends d1 d3.
Proof.
  intros H12 H23 key items Hin.
  destruct (H12 key items Hin) as (items2 & Hin2 & Hsub2).
  destruct (H23 key items2 Hin2) as (items3 & Hin3 & Hsub3).
  exists items3. split; [done|]. by transitivity items2.
Qed.

Lemma dict_set_extends {V : Type} (d : list (string * list V)) (key : string)
    (items' : list V) :
  (∀ items, dict_index d key = Ok items → items ⊆ items') →
  extends d (dict_set d key items').
Proof.
  induction d as [|[k v] d IH]; intros Hold key0 items0 Hin.
  - by apply elem_of_nil in Hin.
  - simpl in Hold |- *. case_bool_decide as Hk.
    + apply elem_of_cons in Hin as [[= -> ->]|Hin].
      * exists items'. split; [apply list_elem_of_here | by apply Hold].
      * exists items0. split; [by apply list_elem_of_further | done].
    + apply elem_of_cons in Hin as [[= -> ->]|Hin].
      * exists v. split; [apply list_elem_of_here | done].
      * destruct (IH Hold key0 items0 Hin) as (items1 & Hin1 & Hsub).
        exists items1. split; [by apply list_elem_of_further | done].
Qed.

Lemma update_keyword_extends (table : string)
    (relevant_columns : list (string * column_info)) (state : learnt_state)
    (keyword : string) :
  extends state.1 (update_keyword table relevant_columns state keyword).1
  ∧ extends state.2 (update_keyword table relevant_columns state keyword).2.
Proof.
  destruct state as [pats ents]. unfold update_keyword. simpl. split.
  - destruct (dict_index pats table) as [tp|e] eqn:Hidx; [|apply extends_refl].
    destruct (is_relevant relevant_columns keyword && bool_decide ([keyword] ∉ tp));
      [|apply extends_refl].
    apply dict_set_extends. intros items. rewrite Hidx. intros [= <-].
    intros x Hx. apply elem_of_app. by left.
  - intros intent kl Hin.
    eexists. split.
    + apply list_elem_of_fmap. exists (intent, kl). split; [reflexivity|done].
    + destruct (intent_applies intent relevant_columns
                && bool_decide (keyword ∉ kl)); [|done].
      intros x Hx. apply elem_of_app. by left.
Qed.

Lemma update_tables_extends (sd : schema_dict) (keywords tables : list string)
    (state : learnt_state) :
  extends state.1 (update_tables sd keywords tables state).1
  ∧ extends state.2 (update_tables sd keywords tables state).2.
Proof.
  apply (update_tables_preserve
           (λ st, extends state.1 st.1 ∧ extends state.2 st.2)).
  - intros pats ents table e _ Hidx [H1 H2]. split; [|done]. simpl in *.
    apply (extends_trans _ pats); [done|].
    apply dict_set_extends. intros items. by rewrite Hidx.
  - intros st table schema table_name keyword _ _ _ [H1 H2].
    destruct (update_keyword_extends table
                (dict_get_or_empty (dict_get_or_empty (sd_columns sd) schema)
                                   table_name) st keyword) as [H1' H2'].
    split; [by apply (extends_trans _ st.1) | by apply (extends_trans _ st.2)].
  - split; apply extends_refl.
Qed.

Lemma update_patterns_extends (query : string) (tables : list string)
    (self : PatternManager) :
  pm_schema_dict (update_patterns query tables self) = pm_schema_dict self
  ∧ pm_nlp (update_patterns query tables self) = pm_nlp self
  ∧ extends (patterns self) (patterns (update_patterns query tables self))
  ∧ extends (entity_mappings self)
            (entity_mappings (update_patterns query tables self)).
Proof.
  unfold update_patterns. destruct (pm_nlp self) as [nlp|] eqn:Hnlp.
  - destruct (update_tables_extends (pm_schema_dict self)
                (lemmas nlp (lower query)) tables
                (patterns self, entity_mappings self)) as [H1 H2].
    destruct (update_tables _ _ _ _) as [pats ents]. simpl in *. by repeat split.
  - repeat split; [done | apply extends_refl | apply extends_refl].
Qed.

Lemma elem_of_intent_matches (self : PatternManager) (query_lower : string)
    (t : string) :
  t ∈ intent_matches self query_lower
  ↔ ∃ intent keywords keyword,
      (intent, keywords) ∈ entity_mappings self ∧ keyword ∈ keywords
      ∧ str_in keyword query_lower = true
      ∧ t ∈ tables_with_column (pm_schema_dict self)
              (λ col_name _, str_in keyword (lower col_name)).
Proof.
  unfold intent_matches.
  rewrite (elem_of_foldl_grow _
    (λ entry : string * list string,
       ∃ keyword, keyword ∈ entry.2 ∧ str_in keyword query_lower = true
         ∧ t ∈ tables_with_column (pm_schema_dict self)
                 (λ col_name _, str_in keyword (lower col_name)))).
  - rewrite elem_of_empty. split.
    + intros [[]|([intent keywords] & Hin & keyword & Hk & Hq & Ht)].
      by exists intent, keywords, keyword.
    + intros (intent & keywords & keyword & Hin & Hk & Hq & Ht). right.
      exists (intent, keywords). split; [done|]. by exists keyword.
  - intros acc [intent keywords]. cbv zeta. simpl. rewrite elem_of_union.
    rewrite (elem_of_foldl_grow _
      (λ keyword, str_in keyword query_lower = true
         ∧ t ∈ tables_with_column (pm_schema_dict self)
                 (λ col_name _, str_in keyword (lower col_name)))).
    + rewrite elem_of_empty. intuition auto.
    + intros acc' keyword. destruct (str_in keyword query_lower).
      * rewrite elem_of_union. intuition auto.
      * intuition discriminate.
Qed.

(** X19. Whatever [update_patterns] is given, a table that [match_pattern]
    returned for a query before is still returned for it afterwards:
    confirmed tables only add patterns and intent keywords, and the catalog
    is not touched. *)
Theorem update_patterns_keeps_matches `{SetOrder} (self : PatternManager)
    (confirmed_query : string) (tables : list string) (query : string)
    (found : list string) :
  match_pattern self query = Ok found →
  ∃ found',
    match_pattern (update_patterns confirmed_query tables self) query = Ok found'
    ∧ ∀ t, t ∈ found → t ∈ found'.
Proof.
  intros Hrun.
  destruct (update_patterns_extends confirmed_query tables self)
    as (Hsd & Hnlp & Hpats & Hents).
  destruct (pm_nlp self) as [nlp|] eqn:Hself.
  - unfold match_pattern in *. rewrite Hnlp, Hself in *.
    eexists. split; [reflexivity|]. injection Hrun as <-.
    set (self' := update_patterns confirmed_query tables self) in *.
    assert (∀ t, t ∈ direct_matches self nlp query →
                 t ∈ direct_matches self' nlp query) as Hdirect.
    { intros t. unfold direct_matches. rewrite !elem_of_union.
      intros [[Hp|He]|Hi].
      - left. left. apply elem_of_pattern_matches in Hp
          as (pats & pattern & Hin & Hp & Hfire).
        destruct (Hpats t pats Hin) as (pats' & Hin' & Hsub).
        apply elem_of_pattern_matches. exists pats', pattern.
        split; [done|]. split; [by apply Hsub | done].
      - left. right. unfold entity_matches in *. by rewrite Hsd.
      - right. apply elem_of_intent_matches in Hi
          as (intent & keywords & keyword & Hin & Hk & Hq & Ht).
        destruct (Hents intent keywords Hin) as (keywords' & Hin' & Hsub).
        apply elem_of_intent_matches. exists intent, keywords', keyword.
        split; [done|]. split; [by apply Hsub|]. split; [done|].
        by rewrite Hsd. }
    intros t. rewrite !elem_of_set_iter, !elem_of_union, !elem_of_fk_matches.
    intros [Ht|(source & Hsource & Href)].
    + left. by apply Hdirect.
    + right. exists source. split; [by apply Hdirect|]. by rewrite Hsd.
  - unfold update_patterns. rewrite Hself. by exists found.
Qed.

Lemma update_patterns_keeps_matches_witness :
  @match_pattern elements_order (sales_patterns (Some stub_nlp)) "item quantity"
  = Ok ["sales.order_items"; "sales.orders"]
  ∧ ∃ found',
      @match_pattern elements_order
        (update_patterns "first order" ["sales.customers"]
           (sales_patterns (Some stub_nlp))) "item quantity" = Ok found'
      ∧ ∀ t, t ∈ ["sales.order_items"; "sales.orders"] → t ∈ found'.
Proof.
  split; [vm_compute; reflexivity|].
  apply (@update_patterns_keeps_matches elements_order
           (sales_patterns (Some stub_nlp)) "first order" ["sales.customers"]
           "item quantity" ["sales.order_items"; "sales.orders"]).
  vm_compute. reflexivity.
Defined.

(** X20. A pattern that a table has after [update_patterns] was a pattern of
    that table before, or it is a single lemma of the confirmed query that
    occurs in the name of a column which the catalog lists for the table,
    and the table is one of the confirmed tables, named [schema.table].
    No pattern is learnt for a table whose columns the catalog does not
    list. *)
Theorem update_patterns_learns_relevant (self : PatternManager) (nlp : NLP)
    (query : string) (tables : list string) (t : string)
    (pats' : list (list string)) (pattern : list string) :
  pm_nlp self = Some nlp →
  dict_index (patterns (update_patterns query tables self)) t = Ok pats' →
  pattern ∈ pats' →
  (∃ pats, dict_index (patterns self) t = Ok pats ∧ pattern ∈ pats)
  ∨ learnable (pm_schema_dict self) (lemmas nlp (lower query)) tables t pattern.
Proof.
  intros Hnlp. unfold update_patterns. rewrite Hnlp.
  set (sd := pm_schema_dict self). set (keywords := lemmas nlp (lower query)).
  assert (∀ st, st = update_tables sd keywords tables
                       (patterns self, entity_mappings self) →
    ∀ t pats' pattern, dict_index st.1 t = Ok pats' → pattern ∈ pats' →
      (∃ pats, dict_index (patterns self) t = Ok pats ∧ pattern ∈ pats)
      ∨ learnable sd keywords tables t pattern) as Hinv.
  { intros st ->.
    apply (update_tables_preserve
      (λ st, ∀ t pats' pattern, dict_index st.1 t = Ok pats' → pattern ∈ pats' →
         (∃ pats, dict_index (patterns self) t = Ok pats ∧ pattern ∈ pats)
         ∨ learnable sd keywords tables t pattern)).
    - intros pats ents table e _ Hidx Hst t0 pats0 pattern0. simpl in *.
      destruct (decide (t0 = table)) as [->|Hne].
      + rewrite dict_index_set_eq. intros [= <-] Hin.
        by apply elem_of_nil in Hin.
      + rewrite dict_index_set_ne by done. apply Hst.
    - intros [pats ents] table schema table_name keyword Htable Hsplit Hkw Hst
        t0 pats0 pattern0.
      unfold update_keyword. simpl in *.
      destruct (dict_index pats table) as [tp|e] eqn:Hidx; [|apply Hst].
      destruct (is_relevant _ keyword) eqn:Hrel; simpl; [|apply Hst].
      case_bool_decide as Hnew; [|apply Hst].
      destruct (decide (t0 = table)) as [->|Hne].
      + rewrite dict_index_set_eq. intros [= <-] Hin.
        apply elem_of_app in Hin as [Hin|Hin].
        * by apply (Hst table tp).
        * apply list_elem_of_singleton in Hin as ->. right.
          apply existsb_exists in Hrel as ([col_name info] & Hcol & Hsub).
          apply list_elem_of_In in Hcol.
          exists keyword, schema, table_name, col_name, info.
          repeat split; try done. by apply Is_true_eq_left.
      + rewrite dict_index_set_ne by done. apply Hst.
    - intros t0 pats0 pattern0 Hidx Hin. left. by exists pats0. }
  specialize (Hinv _ eq_refl).
  destruct (update_tables sd keywords tables _) as [pats ents]. simpl in *.
  apply Hinv.
Qed.

Lemma update_patterns_learns_relevant_witness :
  pm_nlp (sales_patterns (Some stub_nlp)) = Some stub_nlp
  ∧ dict_index
      (patterns (update_patterns "first order" ["sales.customers"]
                   (sales_patterns (Some stub_nlp)))) "sales.customers"
    = Ok [["customers"]; ["sales"]; ["customer id"]; ["first name"];
          ["last name"]; ["customer"; "name"]; ["employee"; "name"]; ["first"]]
  ∧ ["first"] ∈ [["customers"]; ["sales"]; ["customer id"]; ["first name"];
                 ["last name"]; ["customer"; "name"]; ["employee"; "name"];
                 ["first"]]
  ∧ ((∃ pats, dict_index (patterns (sales_patterns (Some stub_nlp)))
                "sales.customers" = Ok pats ∧ ["first"] ∈ pats)
     ∨ learnable sales_catalog (lemmas stub_nlp (lower "first order"))
         ["sales.customers"] "sales.customers" ["first"]).
Proof.
  assert (["first"] ∈ [["customers"]; ["sales"]; ["customer id"]; ["first name"];
                       ["last name"]; ["customer"; "name"]; ["employee"; "name"];
                       ["first"]]) as Hin.
  { apply (bool_decide_unpack _). vm_compute. exact I. }
  split; [reflexivity|]. split; [vm_compute; reflexivity|]. split; [exact Hin|].
  apply (update_patterns_learns_relevant (sales_patterns (Some stub_nlp))
           stub_nlp "first order" ["sales.customers"] "sales.customers"
           [["customers"]; ["sales"]; ["customer id"]; ["first name"];
            ["last name"]; ["customer"; "name"]; ["employee"; "name"]; ["first"]]
           ["first"] eq_refl); [vm_compute; reflexivity | exact Hin].
Defined.

Lemma update_tables_malformed (sd : schema_dict) (keywords : list string)
    (before after : list string) (bad : string) (state : learnt_state) :
  length (split_dot bad) ≠ 2%nat →
  update_tables sd keywords (before ++ bad :: after) state
  = update_tables sd keywords (before ++ [bad]) state.
Proof.
  intros Hbad. revert state.
  induction before as [|table before IH]; intros [pats ents]; simpl.
  - destruct (split_dot bad) as [|schema [|table_name [|extra parts]]]; done.
  - destruct (split_dot table) as [|schema [|table_name [|extra parts]]];
      try reflexivity.
    apply IH.
Qed.

(** X21. A confirmed table name that is not of the form [schema.table]
    (no dot, or more than one) ends [update_patterns]: the tables listed
    after it are ignored, whatever they are, and the result is that of the
    call on the list that ends with this name. *)
Theorem update_patterns_malformed_name (self : PatternManager) (query : string)
    (before after : list string) (bad : string) :
  length (split_dot bad) ≠ 2%nat →
  update_patterns query (before ++ bad :: after) self
  = update_patterns query (before ++ [bad]) self.
Proof.
  intros Hbad. unfold update_patterns.
  destruct (pm_nlp self) as [nlp|]; [|done].
  by rewrite (update_tables_malformed _ _ before after bad).
Qed.

Lemma update_patterns_malformed_name_witness :
  length (split_dot "orders") ≠ 2%nat
  ∧ update_patterns "first order" (["sales.customers"] ++ "orders" :: ["sales.orders"])
      (sales_patterns (Some stub_nlp))
    = update_patterns "first order" (["sales.customers"] ++ ["orders"])
        (sales_patterns (Some stub_nlp)).
Proof.
  split; [vm_compute; lia|].
  apply (update_patterns_malformed_name (sales_patterns (Some stub_nlp))
           "first order" ["sales.customers"] ["sales.orders"] "orders").
  vm_compute. lia.
Defined.

(** ** Validation of table names *)

Lemma schema_map_lookup (sd : schema_dict) (key canonical : string) :
  schema_map sd !! key = Some canonical →
  lower canonical = key ∧ ∃ table_list, (canonical, table_list) ∈ sd_tables sd.
Proof.
  unfold schema_map. revert key canonical.
  apply (foldl_preserve
    (λ m : gmap string string, ∀ key canonical, m !! key = Some canonical →
       lower canonical = key
       ∧ ∃ table_list, (canonical, table_list) ∈ sd_tables sd)).
  - intros m [s tl] Hin Hm key canonical.
    destruct (decide (lower s = key)) as [<-|Hne].
    + rewrite lookup_insert_eq. intros [= <-]. split; [done|]. by exists tl.
    + rewrite lookup_insert_ne by done. apply Hm.
  - intros key canonical. by rewrite lookup_empty.
Qed.

Lemma dict_index_total {V : Type} (d : list (string * V)) (key : string)
    (value : V) :
  (key, value) ∈ d → ∃ value', dict_index d key = Ok value'.
Proof.
  induction d as [|[k v] d IH]; intros Hin; [by apply elem_of_nil in Hin|].
  simpl. case_bool_decide as Hk; [by eexists|].
  apply elem_of_cons in Hin as [[= -> ->]|Hin]; [done | by apply IH].
Qed.

Lemma validate_table_spec (sd : schema_dict) (valid invalid : list string)
    (table : string) :
  validate_table sd (valid, invalid) table = Ok (valid, invalid ++ [table])
  ∨ ∃ v, accepted sd [table] v
         ∧ validate_table sd (valid, invalid) table = Ok (valid ++ [v], invalid).
Proof.
  unfold validate_table.
  destruct (split_dot table) as [|schema [|typed [|extra parts]]] eqn:Hsplit;
    try by left.
  destruct (schema_map sd !! lower schema) as [canonical|] eqn:Hmap; [|by left].
  destruct (schema_map_lookup sd _ _ Hmap) as [Hlower [tl Htl]].
  destruct (dict_index_total _ _ _ Htl) as [table_list Hidx].
  rewrite Hidx. simpl. case_bool_decide as Hin; [|by left].
  right. exists (full_table_name canonical typed). split; [|done].
  apply list_elem_of_fmap in Hin as (t & Ht & Hin).
  exists table, schema, typed, canonical, table_list, t.
  split; [apply list_elem_of_here|]. split; [done|].
  split; [by apply dict_index_elem_of|]. by repeat split.
Qed.

Lemma accepted_mono (sd : schema_dict) (tables tables' : list string)
    (v : string) :
  (∀ t, t ∈ tables → t ∈ tables') → accepted sd tables v → accepted sd tables' v.
Proof.
  intros Hsub (table & schema & typed & canonical & tl & t & Hin & Hrest).
  exists table, schema, typed, canonical, tl, t. split; [by apply Hsub | done].
Qed.

Lemma validate_tables_from (sd : schema_dict) (tables valid invalid : list string) :
  ∃ valid' invalid',
    for_each (validate_table sd) (valid, invalid) tables
    = Ok (valid ++ valid', invalid ++ invalid')
    ∧ (length valid' + length invalid' = length tables)%nat
    ∧ (∀ t, t ∈ invalid' → t ∈ tables)
    ∧ (∀ v, v ∈ valid' → accepted sd tables v).
Proof.
  revert valid invalid. induction tables as [|table tables IH];
    intros valid invalid; cbn [for_each].
  - exists [], []. rewrite !app_nil_r. split; [done|]. split; [done|].
    split; intros x Hx; by apply elem_of_nil in Hx.
  - destruct (validate_table_spec sd valid invalid table)
      as [->|(v & Hv & ->)]; cbn [mbind result_bind].
    + destruct (IH valid (invalid ++ [table]))
        as (valid' & invalid' & -> & Hlen & Hinv & Hval).
      exists valid', (table :: invalid'). rewrite <- app_assoc. simpl.
      split; [done|]. split; [lia|]. split.
      * intros t [->|Ht]%elem_of_cons; [apply list_elem_of_here|].
        by apply list_elem_of_further, Hinv.
      * intros v Hv. apply (accepted_mono sd tables); [|by apply Hval].
        intros t. apply list_elem_of_further.
    + destruct (IH (valid ++ [v]) invalid)
        as (valid' & invalid' & -> & Hlen & Hinv & Hval).
      exists (v :: valid'), invalid'. rewrite <- app_assoc. simpl.
      split; [done|]. split; [lia|]. split.
      * intros t Ht. by apply list_elem_of_further, Hinv.
      * intros v' [->|Hv']%elem_of_cons.
        -- apply (accepted_mono sd [table]); [|done].
           intros t ->%list_elem_of_singleton. apply list_elem_of_here.
        -- apply (accepted_mono sd tables); [|by apply Hval].
           intros t. apply list_elem_of_further.
Qed.

(** X22. [validate_tables_exist] never raises and sorts every name it is
    given into one of its two lists.  A name is accepted only if it is
    [schema.table] for a table of the catalog up to the case of the letters;
    the accepted name is written with the schema of the catalog and with the
    table as it was typed.  The rejected names are returned unchanged. *)
Theorem validate_tables_exist_spec (sd : schema_dict) (tables : list string) :
  ∃ valid invalid,
    validate_tables_exist sd tables = Ok (valid, invalid)
    ∧ (length valid + length invalid = length tables)%nat
    ∧ (∀ t, t ∈ invalid → t ∈ tables)
    ∧ (∀ v, v ∈ valid → accepted sd tables v).
Proof. apply (validate_tables_from sd tables [] []). Qed.

Lemma length_split_dot (s : string) : length (split_dot s) = S (dots s).
Proof.
  induction s as [|c s IH]; simpl; [done|].
  destruct (Ascii.eqb c "."); simpl; [by rewrite IH|].
  destruct (split_dot s) as [|part parts]; simpl in *; [done | exact IH].
Qed.

Lemma dots_split_dot (s : string) : Forall (λ part, dots part = 0%nat) (split_dot s).
Proof.
  induction s as [|c s IH]; simpl; [by constructor|].
  destruct (Ascii.eqb c ".") eqn:Hc; [by constructor|].
  destruct (split_dot s) as [|part parts]; simpl.
  - constructor; [|done]. simpl. by rewrite Hc.
  - inversion IH as [|? ? Hpart Hparts]; subst.
    constructor; [|done]. simpl. by rewrite Hc.
Qed.

Lemma dots_app (a b : string) : dots (a +:+ b) = (dots a + dots b)%nat.
Proof. induction a as [|c a IH]; simpl; [done|]. rewrite IH. lia. Qed.

Lemma ascii_lower_dot (c : ascii) :
  Ascii.eqb (ascii_lower c) "." = Ascii.eqb c ".".
Proof. by destruct c as [[] [] [] [] [] [] [] []]. Qed.

Lemma dots_lower (s : string) : dots (lower s) = dots s.
Proof.
  induction s as [|c s IH]; simpl; [done|].
  fold (lower s). by rewrite ascii_lower_dot, IH.
Qed.

(** X23. Every name that [validate_tables_exist] accepts has exactly one
    dot, so [split('.')] gives its schema and its table: [update_patterns],
    which stops at a name of another form, is never stopped by a validated
    name. *)
Theorem validated_names_split (sd : schema_dict) (tables valid invalid : list string)
    (v : string) :
  validate_tables_exist sd tables = Ok (valid, invalid) →
  v ∈ valid →
  length (split_dot v) = 2%nat.
Proof.
  intros Hrun Hv.
  destruct (validate_tables_from sd tables [] [])
    as (valid0 & invalid0 & Hrun0 & _ & _ & Hacc).
  fold (validate_tables_exist sd tables) in Hrun0. simpl in Hrun0.
  rewrite Hrun in Hrun0. injection Hrun0 as <- <-.
  destruct (Hacc v Hv) as (table & schema & typed & canonical & tl & t & _
                           & Hsplit & _ & Hlower & _ & _ & ->).
  pose proof (dots_split_dot table) as Hparts. rewrite Hsplit in Hparts.
  inversion Hparts as [|? ? Hschema Hrest]; subst.
  inversion Hrest as [|? ? Htyped _]; subst.
  rewrite length_split_dot. unfold full_table_name.
  rewrite !dots_app. simpl.
  rewrite <- (dots_lower canonical), Hlower, dots_lower. lia.
Qed.

Lemma validated_names_split_witness :
  validate_tables_exist sales_catalog ["SALES.Customers"; "orders"; "sales.nope"]
  = Ok (["sales.Customers"], ["orders"; "sales.nope"])
  ∧ "sales.Customers" ∈ ["sales.Customers"]
  ∧ length (split_dot "sales.Customers") = 2%nat.
Proof.
  split; [vm_compute; reflexivity|]. split; [apply list_elem_of_here|].
  apply (validated_names_split sales_catalog
           ["SALES.Customers"; "orders"; "sales.nope"]
           ["sales.Customers"] ["orders"; "sales.nope"] "sales.Customers").
  - vm_compute. reflexivity.
  - apply list_elem_of_here.
Defined.

(** ** The pattern index: confirming twice teaches nothing new *)

Lemma fmap_id_on {A : Type} (f : A → A) (l : list A) :
  (∀ x, x ∈ l → f x = x) → f <$> l = l.
Proof.
  induction l as [|a l IH]; intros Hf; [done|].
  rewrite fmap_cons, (Hf a (list_elem_of_here _ _)), IH; [done|].
  intros x Hx. by apply Hf, list_elem_of_further.
Qed.

Lemma foldl_id_on {A S : Type} (f : S → A → S) (l : list A) (s : S) :
  (∀ x, x ∈ l → f s x = s) → foldl f s l = s.
Proof.
  induction l as [|a l IH]; intros Hf; simpl; [done|].
  rewrite (Hf a (list_elem_of_here _ _)). apply IH.
  intros x Hx. by apply Hf, list_elem_of_further.
Qed.

Lemma update_keyword_learnt_id (table : string)
    (relevant_columns : list (string * column_info)) (keyword : string)
    (state : learnt_state) :
  keyword_learnt table relevant_columns keyword state →
  update_keyword table relevant_columns state keyword = state.
Proof.
  destruct state as [pats ents]. intros [(tp & Hidx & Hrel) Hents].
  unfold update_keyword. simpl in *. rewrite Hidx. f_equal.
  - destruct (is_relevant relevant_columns keyword); [|done]. simpl.
    by rewrite bool_decide_false by (intros Hnot; by apply Hnot, Hrel).
  - apply fmap_id_on. intros [intent kl] Hin.
    destruct (intent_applies intent relevant_columns) eqn:Happ; [|done]. simpl.
    by rewrite bool_decide_false
      by (intros Hnot; by apply Hnot, (Hents intent kl)).
Qed.

Lemma update_keyword_learns (table : string)
    (relevant_columns : list (string * column_info)) (keyword : string)
    (state : learnt_state) :
  (∃ table_patterns, dict_index state.1 table = Ok table_patterns) →
  keyword_learnt table relevant_columns keyword
    (update_keyword table relevant_columns state keyword).
Proof.
  destruct state as [pats ents]. intros [tp Hidx]. simpl in Hidx.
  unfold update_keyword. rewrite Hidx. split.
  - simpl. destruct (is_relevant relevant_columns keyword) eqn:Hrel; simpl.
    + case_bool_decide as Hnew.
      * exists (tp ++ [[keyword]]). split; [apply dict_index_set_eq|].
        intros _. apply elem_of_app. right. apply list_elem_of_here.
      * exists tp. split; [done|]. intros _.
        by destruct (decide ([keyword] ∈ tp)).
    + exists tp. by split.
  - simpl. intros intent kl' Hin Happ.
    apply list_elem_of_fmap in Hin as ([i kl] & [= -> ->] & Hin).
    rewrite Happ. simpl. case_bool_decide as Hnew.
    + apply elem_of_app. right. apply list_elem_of_here.
    + by destruct (decide (keyword ∈ kl)).
Qed.

Lemma update_keyword_keeps_entry (table table' : string)
    (cols' : list (string * column_info)) (keyword' : string)
    (state : learnt_state) (table_patterns : list (list string)) :
  dict_index state.1 table = Ok table_patterns →
  ∃ table_patterns',
    dict_index (update_keyword table' cols' state keyword').1 table
    = Ok table_patterns'
    ∧ table_patterns ⊆ table_patterns'.
Proof.
  destruct state as [pats ents]. simpl. intros Hidx. unfold update_keyword.
  simpl. destruct (dict_index pats table') as [tp'|e] eqn:Hidx';
    [|by exists table_patterns].
  destruct (is_relevant cols' keyword' && bool_decide ([keyword'] ∉ tp'));
    [|by exists table_patterns].
  destruct (decide (table = table')) as [->|Hne].
  - rewrite dict_index_set_eq. rewrite Hidx in Hidx'. injection Hidx' as <-.
    eexists. split; [done|]. intros x Hx. apply elem_of_app. by left.
  - rewrite dict_index_set_ne by done. by exists table_patterns.
Qed.

Lemma update_keyword_keeps_learnt (table table' : string)
    (cols cols' : list (string * column_info)) (keyword keyword' : string)
    (state : learnt_state) :
  keyword_learnt table cols keyword state →
  keyword_learnt table cols keyword (update_keyword table' cols' state keyword').
Proof.
  intros [(tp & Hidx & Hrel) Hents]. split.
  - destruct (update_keyword_keeps_entry table table' cols' keyword' state tp Hidx)
      as (tp' & Hidx' & Hsub).
    exists tp'. split; [done|]. intros Hr. by apply Hsub, Hrel.
  - destruct state as [pats ents]. unfold update_keyword. simpl in *.
    intros intent kl' Hin Happ.
    apply list_elem_of_fmap in Hin as ([i kl] & [= <- ->] & Hin).
    pose proof (Hents intent kl Hin Happ) as Hkw.
    destruct (intent_applies intent cols' && bool_decide (keyword' ∉ kl));
      [|done].
    apply elem_of_app. by left.
Qed.

Lemma update_tables_keeps_entry (sd : schema_dict) (keywords tables : list string)
    (state : learnt_state) (table : string) :
  (∃ table_patterns, dict_index state.1 table = Ok table_patterns) →
  ∃ table_patterns,
    dict_index (update_tables sd keywords tables state).1 table
    = Ok table_patterns.
Proof.
  apply (update_tables_preserve
           (λ st, ∃ table_patterns, dict_index st.1 table = Ok table_patterns)).
  - intros pats ents table' e _ Hidx [tp Htp]. simpl in *.
    exists tp. rewrite dict_index_set_ne; [done|].
    intros ->. by rewrite Htp in Hidx.
  - intros st table' schema table_name keyword _ _ _ [tp Htp].
    destruct (update_keyword_keeps_entry table table'
                (dict_get_or_empty (dict_get_or_empty (sd_columns sd) schema)
                                   table_name) keyword st tp Htp)
      as (tp' & Htp' & _).
    by exists tp'.
Qed.

Lemma update_tables_keeps_learnt (sd : schema_dict) (keywords tables : list string)
    (state : learnt_state) (table : string) (cols : list (string * column_info))
    (keyword : string) :
  keyword_learnt table cols keyword state →
  keyword_learnt table cols keyword (update_tables sd keywords tables state).
Proof.
  apply (update_tables_preserve (keyword_learnt table cols keyword)).
  - intros pats ents table' e _ Hidx [(tp & Htp & Hrel) Hents]. simpl in *.
    split; [|done]. exists tp. simpl. split; [|done].
    rewrite dict_index_set_ne; [done|].
    intros ->. by rewrite Htp in Hidx.
  - intros st table' schema table_name keyword' _ _ _.
    apply update_keyword_keeps_learnt.
Qed.

Lemma update_tables_keeps_stable (sd : schema_dict)
    (keywords tables tables' : list string) (state : learnt_state) :
  stable sd keywords tables state →
  stable sd keywords tables (update_tables sd keywords tables' state).
Proof.
  induction tables as [|table rest IH]; simpl; [done|].
  intros [Hentry Hrest]. split; [by apply update_tables_keeps_entry|].
  destruct (split_dot table) as [|schema [|table_name [|extra parts]]]; try done.
  destruct Hrest as [Hkw Hrest]. split; [|by apply IH].
  intros keyword Hin. by apply update_tables_keeps_learnt, Hkw.
Qed.

Lemma update_tables_stable (sd : schema_dict) (keywords tables : list string)
    (state : learnt_state) :
  stable sd keywords tables (update_tables sd keywords tables state).
Proof.
  revert state. induction tables as [|table rest IH]; intros [pats ents];
    [done|].
  cbn [update_tables stable].
  set (pats0 := match dict_index pats table with
                | Ok _ => pats
                | Raise _ => dict_set pats table []
                end).
  assert (∃ tp, dict_index pats0 table = Ok tp) as Hentry.
  { unfold pats0. destruct (dict_index pats table) as [tp|e] eqn:Hidx.
    - by exists tp.
    - exists []. apply dict_index_set_eq. }
  destruct (split_dot table) as [|schema [|table_name [|extra parts]]] eqn:Hsplit;
    try (split; [exact Hentry | exact I]).
  set (cols := dict_get_or_empty (dict_get_or_empty (sd_columns sd) schema)
                                 table_name).
  set (state1 := foldl (update_keyword table cols) (pats0, ents) keywords).
  assert (∃ tp, dict_index state1.1 table = Ok tp) as Hentry1.
  { apply (foldl_preserve (λ st, ∃ tp, dict_index st.1 table = Ok tp));
      [|exact Hentry].
    intros st keyword _ [tp Htp].
    destruct (update_keyword_keeps_entry table table cols keyword st tp Htp)
      as (tp' & Htp' & _).
    by exists tp'. }
  split; [by apply update_tables_keeps_entry|].
  split; [|apply IH].
  intros keyword Hin. apply update_tables_keeps_learnt.
  apply (foldl_reach (λ st, ∃ tp, dict_index st.1 table = Ok tp)
           (keyword_learnt table cols keyword) _ keywords (pats0, ents) keyword);
    [| | |exact Hin|exact Hentry].
  - intros st kw _ [tp Htp].
    destruct (update_keyword_keeps_entry table table cols kw st tp Htp)
      as (tp' & Htp' & _).
    by exists tp'.
  - intros st kw _ _. apply update_keyword_keeps_learnt.
  - intros st. apply update_keyword_learns.
Qed.

Lemma update_tables_stable_id (sd : schema_dict) (keywords tables : list string)
    (state : learnt_state) :
  stable sd keywords tables state →
  update_tables sd keywords tables state = state.
Proof.
  induction tables as [|table rest IH]; [done|].
  destruct state as [pats ents]. cbn [update_tables stable].
  intros [[tp Hentry] Hrest]. simpl in Hentry. rewrite Hentry.
  destruct (split_dot table) as [|schema [|table_name [|extra parts]]]; try done.
  destruct Hrest as [Hkw Hrest].
  rewrite foldl_id_on; [by apply IH|].
  intros keyword Hin. by apply update_keyword_learnt_id, Hkw.
Qed.

(** X24. [update_patterns] is idempotent: a second call with the same query
    and the same tables changes neither the patterns nor the intent
    keywords, whatever the names of the tables are. *)
Theorem update_patterns_idempotent (query : string) (tables : list string)
    (self : PatternManager) :
  update_patterns query tables (update_patterns query tables self)
  = update_patterns query tables self.
Proof.
  unfold update_patterns at 2 3.
  destruct (pm_nlp self) as [nlp|] eqn:Hnlp.
  - pose proof (update_tables_stable (pm_schema_dict self)
                  (lemmas nlp (lower query)) tables
                  (patterns self, entity_mappings self)) as Hstable.
    destruct (update_tables _ _ _ _) as [pats ents] eqn:Hrun.
    unfold update_patterns. simpl.
    by rewrite (update_tables_stable_id _ _ _ _ Hstable).
  - unfold update_patterns. by rewrite Hnlp.
Qed.
